(** * Pythagoras tree viewer: rule algebra, layout engine, depth-limited drawing

    A shallow embedding of [orangecontrib/prototypes/widgets/pythagorastreeviewer.py].

    - [Rules]: the classes [DiscreteRule], [ContinuousRule], [IntervalRule] and
      their [merge_with] and [__str__] methods, with Python's outcomes (a
      returned value, [None], a raised exception, a line on stderr) made
      explicit.
    - [Geometry]: [PythagorasTree.pythagoras_tree], [_compute_child],
      [_compute_center] and their helpers, over an arbitrary carrier for the
      floating-point operations, the [_slopes] memo threaded as state.
    - [Viewer]: [PythagorasTreeViewer._draw_tree] with its two deques, the
      [_square_objects] table and the trace of create/show/hide calls.

    - [Adapter]: [SklTreeAdapter] over the arrays of a scikit-learn tree:
      [parent], [children], [weight], [rules] with its ordered dictionary,
      [leaves] and [get_samples_in_leaves].

    The modules [RulesFacts], [ViewerFacts] and [GeometryFacts] hold what is
    proved of the first three, [RulesLaws], [ViewerLaws] and [GeometryLaws]
    further laws of them, and [AdapterFacts] what is proved of the adapter;
    [Notions] holds the notions these are stated with. *)

From Stdlib Require Import ZArith List String DecimalString Bool Lia Reals Lra.
From stdpp Require Import base option list gmap sorting.

#[local] Set Warnings "-register-all".

Local Open Scope Z_scope.

(* ===================================================================== *)
(** * Tree nodes *)
(* ===================================================================== *)

(** [TreeNode(label, square, parent, children)].  The parent back-reference
    is kept as the parent's label: the root holds what the adapter's
    [parent] returned, and [pythagoras_tree] re-points every child to the
    node it has just built.  The [graphics_item] slot is the viewer's
    business and lives in its [_square_objects] table. *)
Inductive TreeNode (Sq : Type) : Type :=
  mkTreeNode (label : Z) (square : Sq) (parent : Z) (children : list (TreeNode Sq)).
Arguments mkTreeNode {Sq} label square parent children.

Definition label {Sq} (n : TreeNode Sq) : Z :=
  match n with mkTreeNode l _ _ _ => l end.
Definition square {Sq} (n : TreeNode Sq) : Sq :=
  match n with mkTreeNode _ s _ _ => s end.
Definition parent {Sq} (n : TreeNode Sq) : Z :=
  match n with mkTreeNode _ _ p _ => p end.
Definition children {Sq} (n : TreeNode Sq) : list (TreeNode Sq) :=
  match n with mkTreeNode _ _ _ cs => cs end.

(** [c.parent = obj] *)
Definition set_parent {Sq} (p : Z) (n : TreeNode Sq) : TreeNode Sq :=
  mkTreeNode (label n) (square n) p (children n).

(* ===================================================================== *)
(** * Rule algebra *)
(* ===================================================================== *)

Module Rules.

Local Open Scope string_scope.

(** What a Python call produces: a value or a raised exception. *)
Inductive exn : Type :=
  | TypeError (msg : string)
  | AttributeError (msg : string)
  | ValueError (msg : string).

Inductive result (A : Type) : Type :=
  | Returned (a : A)
  | Raised (e : exn).
Arguments Returned {A} a.
Arguments Raised {A} e.

Definition bind {A B : Type} (r : result A) (k : A -> result B) : result B :=
  match r with
  | Returned a => k a
  | Raised e => Raised e
  end.

Section RuleAlgebra.

(** The thresholds carried by continuous rules.  Their type, the two
    comparisons [>] and [<] the code applies to them, and the
    interpreter's rendering of a number are parameters: ['%.3f' % v],
    which every number has, and ['{:.3}'.format(v)], which raises for the
    numbers that take no precision (see [int_brace_3] below). *)
Variable number : Type.
Variable gt lt : number -> number -> bool.
Variable fmt_percent_3f : number -> string.
Variable fmt_brace_3 : number -> result string.

(** [DiscreteRule(attr_name, eq, value)]; [eq] is stored in [self.sign]. *)
Record DiscreteRule : Type := mkDiscreteRule {
  d_attr_name : string;
  d_sign : bool;
  d_value : string
}.

(** [ContinuousRule(attr_name, gt, value, inclusive=False)]. *)
Record ContinuousRule : Type := mkContinuousRule {
  attr_name : string;
  sign : bool;
  value : number;
  inclusive : bool
}.

(** [IntervalRule(attr_name, left_rule, right_rule)]: the constructor
    accepts only [ContinuousRule] instances for the two sides (see
    [IntervalRule_init]), which the field types record. *)
Record IntervalRule : Type := mkIntervalRule {
  i_attr_name : string;
  left_rule : ContinuousRule;
  right_rule : ContinuousRule
}.

Inductive Rule : Type :=
  | Discrete (r : DiscreteRule)
  | Continuous (r : ContinuousRule)
  | Interval (r : IntervalRule).

(** The objects that reach [merge_with] or leave it: a rule, or [None]. *)
Inductive pyvalue : Type :=
  | VRule (r : Rule)
  | VNone.

(** [ContinuousRule.__init__] called with the default [inclusive=False]. *)
Definition ContinuousRule_init (a : string) (g : bool) (v : number) : ContinuousRule :=
  mkContinuousRule a g v false.

(** [IntervalRule.__init__]: two [isinstance] checks, each raising
    [AttributeError]. *)
Definition IntervalRule_init (a : string) (l r : pyvalue) : result pyvalue :=
  match l with
  | VRule (Continuous lc) =>
      match r with
      | VRule (Continuous rc) => Returned (VRule (Interval (mkIntervalRule a lc rc)))
      | _ => Raised (AttributeError
               "The right rule must be an instance of the `ContinuousRule` class.")
      end
  | _ => Raised (AttributeError
           "The left rule must be an instance of the `ContinuousRule` class.")
  end.

(** The [__str__] methods. *)
Definition DiscreteRule_str (r : DiscreteRule) : string :=
  d_attr_name r ++ " " ++ (if d_sign r then "=" else "≠") ++ " " ++ d_value r.

Definition ContinuousRule_str (r : ContinuousRule) : string :=
  attr_name r ++ " " ++ (if sign r then ">" else "≤") ++ " "
    ++ fmt_percent_3f (value r).

(** ['{} ∈ {}{:.3}, {:.3}{}'.format(...)]: the fields are rendered from
    left to right, and the two bounds go through ['{:.3}']. *)
Definition IntervalRule_str (r : IntervalRule) : result string :=
  bind (fmt_brace_3 (value (left_rule r))) (fun l =>
  bind (fmt_brace_3 (value (right_rule r))) (fun u =>
  Returned (i_attr_name r ++ " ∈ "
    ++ (if inclusive (left_rule r) then "[" else "(")
    ++ l ++ ", " ++ u
    ++ (if inclusive (right_rule r) then "]" else ")")))).

(** [str(v)] *)
Definition str (v : pyvalue) : result string :=
  match v with
  | VRule (Discrete r) => Returned (DiscreteRule_str r)
  | VRule (Continuous r) => Returned (ContinuousRule_str r)
  | VRule (Interval r) => IntervalRule_str r
  | VNone => Returned "None"
  end.

(** ['WARNING: Merged two discrete rules `%s` and `%s`' % (self, rule)],
    the line [DiscreteRule.merge_with] prints to stderr. *)
Definition discrete_warning (self : DiscreteRule) (rule : pyvalue) : result string :=
  bind (str rule) (fun s =>
  Returned ("WARNING: Merged two discrete rules `" ++ DiscreteRule_str self
              ++ "` and `" ++ s ++ "`")).

(** [DiscreteRule.merge_with]: the result and the lines written to stderr.
    The message is built before [print] is entered, so an exception from
    the rendering leaves stderr untouched and the [return] unreached. *)
Definition DiscreteRule_merge_with (self : DiscreteRule) (rule : pyvalue)
  : result pyvalue * list string :=
  match discrete_warning self rule with
  | Returned line => (Returned rule, [line])
  | Raised e => (Raised e, [])
  end.

(** [raise NotImplemented(msg)]: [NotImplemented] is the built-in constant,
    not an exception class, so evaluating the call [NotImplemented(msg)]
    itself raises [TypeError] before any [raise] takes place. *)
Definition raise_NotImplemented {A : Type} : result A :=
  Raised (TypeError "'NotImplementedType' object is not callable").

(** [ContinuousRule.merge_with]. *)
Definition ContinuousRule_merge_with (self : ContinuousRule) (rule : pyvalue)
  : result pyvalue :=
  match rule with
  | VRule (Continuous rule) =>
      if Bool.eqb (sign self) (sign rule) then
        if sign self then
          let larger := if gt (value self) (value rule)
                        then value self else value rule in
          Returned (VRule (Continuous
            (ContinuousRule_init (attr_name self) (sign self) larger)))
        else
          let smaller := if lt (value self) (value rule)
                         then value self else value rule in
          Returned (VRule (Continuous
            (ContinuousRule_init (attr_name self) (sign self) smaller)))
      else
        (* [lt_rule = self if self.sign is False else rule];
           [gt_rule = self if lt_rule != self else rule] *)
        let lt_rule := if sign self then rule else self in
        let gt_rule := if sign self then self else rule in
        IntervalRule_init (attr_name self)
          (VRule (Continuous gt_rule)) (VRule (Continuous lt_rule))
  | _ => raise_NotImplemented
  end.

(** [IntervalRule.merge_with]: an [if]/[elif] without [else], so any
    other argument falls through to the implicit [return None]. *)
Definition IntervalRule_merge_with (self : IntervalRule) (rule : pyvalue)
  : result pyvalue :=
  match rule with
  | VRule (Continuous r) =>
      if sign r then
        bind (ContinuousRule_merge_with (left_rule self) rule) (fun l =>
        IntervalRule_init (i_attr_name self) l
          (VRule (Continuous (right_rule self))))
      else
        bind (ContinuousRule_merge_with (right_rule self) rule) (fun r' =>
        IntervalRule_init (i_attr_name self)
          (VRule (Continuous (left_rule self))) r')
  | VRule (Interval r) =>
      bind (ContinuousRule_merge_with (left_rule self)
              (VRule (Continuous (left_rule r)))) (fun l =>
      bind (ContinuousRule_merge_with (right_rule self)
              (VRule (Continuous (right_rule r)))) (fun r' =>
      IntervalRule_init (i_attr_name self) l r'))
  | _ => Returned VNone
  end.

(** Method dispatch on the receiver. *)
Definition merge_with (self : Rule) (rule : pyvalue)
  : result pyvalue * list string :=
  match self with
  | Discrete d => DiscreteRule_merge_with d rule
  | Continuous c => (ContinuousRule_merge_with c rule, [])
  | Interval i => (IntervalRule_merge_with i rule, [])
  end.

Definition is_continuous (v : pyvalue) : bool :=
  match v with VRule (Continuous _) => true | _ => false end.

Definition is_interval (v : pyvalue) : bool :=
  match v with VRule (Interval _) => true | _ => false end.

End RuleAlgebra.

Arguments mkContinuousRule {number}.
Arguments attr_name {number}.
Arguments sign {number}.
Arguments value {number}.
Arguments inclusive {number}.
Arguments mkIntervalRule {number}.
Arguments i_attr_name {number}.
Arguments left_rule {number}.
Arguments right_rule {number}.
Arguments Discrete {number}.
Arguments Continuous {number}.
Arguments Interval {number}.
Arguments VRule {number}.
Arguments VNone {number}.
Arguments is_continuous {number}.
Arguments is_interval {number}.
Arguments ContinuousRule_merge_with {number}.
Arguments IntervalRule_merge_with {number}.
Arguments IntervalRule_init {number}.
Arguments ContinuousRule_init {number}.
Arguments merge_with {number}.
Arguments DiscreteRule_merge_with {number}.
Arguments discrete_warning {number}.
Arguments str {number}.

(** Python [int] thresholds, as in the docstrings of the classes:
    ['%.3f' % 30] is ['30.000'], and ['{:.3}'.format(30)] raises. *)
Definition int_percent_3f (z : Z) : string :=
  NilZero.string_of_int (Z.to_int z) ++ ".000".

Definition int_brace_3 (z : Z) : result string :=
  Raised (ValueError "Precision not allowed in integer format specifier").

End Rules.

(* ===================================================================== *)
(** * Geometry engine *)
(* ===================================================================== *)

Module Geometry.

(** The arithmetic the engine performs on Python floats.  Nothing is
    assumed of the operations, so what is proved of the engine for every
    instance holds for IEEE doubles as well as for the real numbers of
    [RealArith] below. *)
Class FloatOps (F : Type) : Type := {
  eqb : F -> F -> bool;          (* [==] *)
  of_int : Z -> F;               (* an [int] literal met by a float *)
  add : F -> F -> F;
  sub : F -> F -> F;
  mul : F -> F -> F;
  div : F -> F -> F;
  neg : F -> F;
  pow_int : F -> Z -> F;         (* [x ** n] for an [int] literal [n] *)
  sqrt : F -> F;
  sin : F -> F;
  cos : F -> F;
  pi : F
}.

Section Engine.

Context {F : Type} {ops : FloatOps F}.

(** [Point = namedtuple('Point', ['x', 'y'])] *)
Record Point : Type := mkPoint { x : F; y : F }.

(** [Square = namedtuple('Square', ['center', 'length', 'angle'])] *)
Record Square : Type := mkSquare { center : Point; length : F; angle : F }.

(** Tuple equality, component by component. *)
Definition Point_eqb (p q : Point) : bool :=
  eqb (x p) (x q) && eqb (y p) (y q).

Definition Square_eqb (s t : Square) : bool :=
  Point_eqb (center s) (center t) && eqb (length s) (length t)
    && eqb (angle s) (angle t).

(** The adapter, as far as the engine and the viewer consult it. *)
Record TreeAdapter : Type := mkTreeAdapter {
  weight : Z -> F;
  adapter_parent : Z -> Z;
  adapter_children : Z -> list Z;
  root : Z;
  max_depth : Z
}.

(** [self._slopes = defaultdict(list)], keyed by the parent square. *)
Definition slopes_memo : Type := list (Square * list F).

(** [self._slopes[k]]; a missing key reads as the empty list. *)
Fixpoint slopes_get (m : slopes_memo) (k : Square) : list F :=
  match m with
  | [] => []
  | (k', v) :: m' => if Square_eqb k' k then v else slopes_get m' k
  end.

(** [self._slopes[k].append(a)] *)
Fixpoint slopes_append (m : slopes_memo) (k : Square) (a : F) : slopes_memo :=
  match m with
  | [] => [(k, [a])]
  | (k', v) :: m' =>
      if Square_eqb k' k then (k', v ++ [a]) :: m'
      else (k', v) :: slopes_append m' k a
  end.

(** The built-in [sum]: starts from the [int] 0 and adds from the left. *)
Definition sum (l : list F) : F := fold_left add l (of_int 0).

Definition _get_point_on_square_edge (center : Point) (length angle : F) : Point :=
  mkPoint (add (x center) (mul (div length (of_int 2)) (cos angle)))
          (add (y center) (mul (div length (of_int 2)) (sin angle))).

Definition _rotate_point (point around : Point) (alpha : F) : Point :=
  let temp := mkPoint (sub (x point) (x around)) (sub (y point) (y around)) in
  let temp := mkPoint
    (sub (mul (x temp) (cos alpha)) (mul (y temp) (sin alpha)))
    (add (mul (x temp) (sin alpha)) (mul (y temp) (cos alpha))) in
  mkPoint (add (x temp) (x around)) (add (y temp) (y around)).

Definition _compute_center (initial_square : Square) (length alpha base_angle : F)
  : Point :=
  let '(mkSquare parent_center parent_length parent_angle) := initial_square in
  let t0 := _get_point_on_square_edge parent_center parent_length parent_angle in
  let square_diagonal_length :=
    sqrt (mul (of_int 2) (pow_int parent_length 2)) in
  let edge := _get_point_on_square_edge parent_center square_diagonal_length
                (sub parent_angle (div pi (of_int 4))) in
  let edge := if negb (eqb base_angle (of_int 0))
              then _rotate_point edge t0 base_angle else edge in
  let t1 := _rotate_point edge t0 alpha in
  let t2 := mkPoint (div (add (x t1) (x edge)) (of_int 2))
                    (div (add (y t1) (y edge)) (of_int 2)) in
  let slope := add (sub parent_angle (div pi (of_int 2))) (div alpha (of_int 2)) in
  _get_point_on_square_edge t2 length (add slope base_angle).

(** The square [_compute_child] builds for a child of the given weight
    when the memo holds a list summing to [prev_angles] for the parent. *)
Definition child_square (parent_square : Square) (weight prev_angles : F) : Square :=
  let alpha := mul weight pi in
  let length := mul (length parent_square) (sin (div alpha (of_int 2))) in
  mkSquare (_compute_center parent_square length alpha prev_angles) length
    (add (add (sub (angle parent_square) (div pi (of_int 2))) prev_angles)
         (div alpha (of_int 2))).

(** The layout call a child is handed to: [self.pythagoras_tree]. *)
Definition layout : Type :=
  Z -> Square -> slopes_memo -> option (TreeNode Square * slopes_memo).

(** [_compute_child], with the recursive call passed in. *)
Definition _compute_child (pythagoras_tree : layout) (tree : TreeAdapter)
    (parent_square : Square) (node : Z) (slopes : slopes_memo)
  : option (TreeNode Square * slopes_memo) :=
  let weight := weight tree node in
  let alpha := mul weight pi in
  let length := mul (length parent_square) (sin (div alpha (of_int 2))) in
  let prev_angles := sum (slopes_get slopes parent_square) in
  let center := _compute_center parent_square length alpha prev_angles in
  let angle := add (add (sub (angle parent_square) (div pi (of_int 2))) prev_angles)
                   (div alpha (of_int 2)) in
  let square := mkSquare center length angle in
  let slopes := slopes_append slopes parent_square alpha in
  pythagoras_tree node square slopes.

(** [tuple(f(child) for child in children)], the memo threaded through. *)
Fixpoint map_children
    (f : Z -> slopes_memo -> option (TreeNode Square * slopes_memo))
    (cs : list Z) (slopes : slopes_memo)
  : option (list (TreeNode Square) * slopes_memo) :=
  match cs with
  | [] => Some ([], slopes)
  | c :: cs' =>
      match f c slopes with
      | None => None
      | Some (n, slopes) =>
          match map_children f cs' slopes with
          | None => None
          | Some (ns, slopes) => Some (n :: ns, slopes)
          end
      end
  end.

(** [pythagoras_tree]; [fuel] bounds the depth of the recursion, and
    [None] means it was exhausted. *)
Fixpoint pythagoras_tree (fuel : nat) (tree : TreeAdapter) (node : Z)
    (square : Square) (slopes : slopes_memo)
  : option (TreeNode Square * slopes_memo) :=
  match fuel with
  | O => None
  | S fuel' =>
      let slopes := if node =? root tree then [] else slopes in
      match map_children
              (_compute_child (pythagoras_tree fuel' tree) tree square)
              (adapter_children tree node) slopes with
      | None => None
      | Some (children, slopes) =>
          Some (mkTreeNode node square (adapter_parent tree node)
                  (map (set_parent node) children), slopes)
      end
  end.

(** [Square(Point(0, 0), 200, -pi / 2)] *)
Definition initial_square : Square :=
  mkSquare (mkPoint (of_int 0) (of_int 0)) (of_int 200)
           (div (neg pi) (of_int 2)).

(** [_calculate_tree]: a fresh [PythagorasTree()] has an empty memo. *)
Definition _calculate_tree (fuel : nat) (tree_adapter : TreeAdapter)
  : option (TreeNode Square) :=
  option_map fst
    (pythagoras_tree fuel tree_adapter (root tree_adapter) initial_square []).

(** The adapter describes a tree of height below [n] under [node]. *)
Inductive height_below (tree : TreeAdapter) : nat -> Z -> Prop :=
  | height_below_S n node :
      Forall (height_below tree n) (adapter_children tree node) ->
      height_below tree (S n) node.

End Engine.

Arguments Point F : clear implicits.
Arguments Square F : clear implicits.
Arguments TreeAdapter F : clear implicits.
Arguments slopes_memo F : clear implicits.

(** A root (label 0) with the children 1 and 2 of weights 0 and 1; node 1
    has the only child 3 and node 3 the only child 4, both of weight 1.
    The weights of the children of every node sum to 1. *)
Definition degenerate {F} {ops : FloatOps F} : TreeAdapter F :=
  {| weight := fun n => if n =? 1 then of_int 0 else of_int 1;
     adapter_parent := fun n =>
       if n =? 0 then -1 else if n =? 3 then 1 else if n =? 4 then 3 else 0;
     adapter_children := fun n =>
       if n =? 0 then [1; 2] else if n =? 1 then [3]
       else if n =? 3 then [4] else [];
     root := 0;
     max_depth := 3 |}.

(** The squares the engine computes on [degenerate], and the tree it
    returns.  Node 4 has no sibling before it, yet its square is built from
    the sum of a memo list that already holds the angle of node 3. *)
Definition square1 {F} {ops : FloatOps F} : Square F :=
  child_square initial_square (of_int 0) (sum []).
Definition square3 {F} {ops : FloatOps F} : Square F :=
  child_square square1 (of_int 1) (sum []).
Definition square4 {F} {ops : FloatOps F} : Square F :=
  child_square square3 (of_int 1) (sum [mul (of_int 1) pi]).
Definition square2 {F} {ops : FloatOps F} : Square F :=
  child_square initial_square (of_int 1) (sum [mul (of_int 0) pi]).

Definition degenerate_tree {F} {ops : FloatOps F} : TreeNode (Square F) :=
  mkTreeNode 0 initial_square (-1)
    [ mkTreeNode 1 square1 0
        [ mkTreeNode 3 square3 1 [ mkTreeNode 4 square4 3 [] ] ];
      mkTreeNode 2 square2 0 [] ].

(** ** The engine over the real numbers *)

Definition Req_bool (a b : R) : bool :=
  if Req_dec_T a b then true else false.

#[export] Instance real_ops : FloatOps R :=
  {| eqb := Req_bool;
     of_int := IZR;
     add := Rplus;
     sub := Rminus;
     mul := Rmult;
     div := Rdiv;
     neg := Ropp;
     pow_int := powerRZ;
     sqrt := R_sqrt.sqrt;
     sin := Rtrigo_def.sin;
     cos := Rtrigo_def.cos;
     pi := PI |}.

(** A root (label 0) with the two leaves 1 and 2 of weight 0.5 each. *)
Definition two_halves : TreeAdapter R :=
  {| weight := fun _ => (1 / 2)%R;
     adapter_parent := fun n => if n =? 0 then -1 else 0;
     adapter_children := fun n => if n =? 0 then [1; 2] else [];
     root := 0;
     max_depth := 1 |}.

(** Where the sub-arc of a child starts on the half-turn of its parent,
    recovered from the two angles: the child's angle is the parent's angle
    minus a quarter turn, plus this start, plus half the child's own arc. *)
Definition arc_start (parent_square child_square : Square R) (alpha : R) : R :=
  (angle child_square - (angle parent_square - PI / 2) - alpha / 2)%R.

(** What the specification asks of the children of one node: the i-th
    child's square is [child_square] of the parent's square, the child's
    weight and the sum of the angles of the children before it. *)
Fixpoint siblings_laid_out {F} {ops : FloatOps F} (tree : TreeAdapter F)
    (parent_square : Square F) (earlier : list F)
    (cs : list (TreeNode (Square F))) : Prop :=
  match cs with
  | [] => True
  | c :: cs' =>
      square c = child_square parent_square (weight tree (label c)) (sum earlier)
      /\ siblings_laid_out tree parent_square
           (earlier ++ [mul (weight tree (label c)) pi]) cs'
  end.

(** The same of every node of a tree. *)
Fixpoint laid_out {F} {ops : FloatOps F} (tree : TreeAdapter F)
    (n : TreeNode (Square F)) : Prop :=
  match n with
  | mkTreeNode _ sq _ cs =>
      siblings_laid_out tree sq [] cs
      /\ (fix all (l : list (TreeNode (Square F))) : Prop :=
            match l with
            | [] => True
            | c :: l' => laid_out tree c /\ all l'
            end) cs
  end.

End Geometry.

(* ===================================================================== *)
(** * Visible-set controller *)
(* ===================================================================== *)

Module Viewer.

(** A [while] loop.  One pass over the body either goes round again
    ([inl]) or leaves the loop ([inr]: the condition failed, or a [break]
    was reached).  [None] means the fuel ran out. *)
Fixpoint while {St : Type} (fuel : nat) (body : St -> St + St) (s : St)
  : option St :=
  match fuel with
  | O => None
  | S fuel' =>
      match body s with
      | inl s' => while fuel' body s'
      | inr s' => Some s'
      end
  end.

(** [collections.deque]: the left end is the head of the list. *)
Definition deque (A : Type) : Type := list A.

Definition appendleft {A} (x : A) (d : deque A) : deque A := x :: d.
Definition append {A} (d : deque A) (x : A) : deque A := d ++ [x].
Definition extend {A} (d : deque A) (xs : list A) : deque A := d ++ xs.

Definition popleft {A} (d : deque A) : option (A * deque A) :=
  match d with
  | [] => None
  | x :: d' => Some (x, d')
  end.

Definition pop {A} (d : deque A) : option (A * deque A) :=
  match rev d with
  | [] => None
  | x :: r => Some (x, rev r)
  end.

Section Controller.

Context {Sq : Type}.

(** What the viewer asks of the scene.  [Create] is the construction of
    a [SquareGraphicsItem] for the node with [zvalue=depth] (brush, tooltip
    and the z-values the item derives from its parent's item are the
    scene's side); [Show] and [Hide] are the calls on the item stored
    under the label. *)
Inductive event : Type :=
  | Create (node : TreeNode Sq) (zvalue : Z)
  | Show (label : Z)
  | Hide (label : Z).

(** The viewer's fields.  [_square_objects] maps a label to its graphics
    item, of which the visibility flag is kept. *)
Record PythagorasTreeViewer : Type := mkViewer {
  _tree : option (TreeNode Sq);
  _depth_limit : Z;
  _square_objects : gmap Z bool;
  _drawn_nodes : deque (Z * TreeNode Sq);
  _frontier : deque (Z * TreeNode Sq)
}.

Definition set_drawn_nodes (d : deque (Z * TreeNode Sq)) (v : PythagorasTreeViewer) :=
  mkViewer (_tree v) (_depth_limit v) (_square_objects v) d (_frontier v).
Definition set_frontier (f : deque (Z * TreeNode Sq)) (v : PythagorasTreeViewer) :=
  mkViewer (_tree v) (_depth_limit v) (_square_objects v) (_drawn_nodes v) f.
Definition set_square_objects (o : gmap Z bool) (v : PythagorasTreeViewer) :=
  mkViewer (_tree v) (_depth_limit v) o (_drawn_nodes v) (_frontier v).

(** The viewer together with the calls made on the scene so far. *)
Definition state : Type := PythagorasTreeViewer * list event.

(** [PythagorasTreeViewer(parent)] without an adapter. *)
Definition init (depth_limit : Z) : PythagorasTreeViewer :=
  mkViewer None depth_limit ∅ [] [].

(** [_depth_was_decreased] *)
Definition _depth_was_decreased (v : PythagorasTreeViewer) : bool :=
  match pop (_drawn_nodes v) with
  | None => false
  | Some ((depth, node), _) => depth >? _depth_limit v
  end.

(** One pass of [while self._drawn_nodes: ...]. *)
Definition shrink_body (s : state) : state + state :=
  let '(v, trace) := s in
  match pop (_drawn_nodes v) with
  | None => inr s
  | Some ((depth, node), drawn) =>
      let v := set_drawn_nodes drawn v in
      if depth <=? _depth_limit v then
        inr (set_drawn_nodes (append (_drawn_nodes v) (depth, node)) v, trace)
      else
        let v := if depth =? _depth_limit v + 1
                 then set_frontier (appendleft (depth, node) (_frontier v)) v
                 else v in
        match _square_objects v !! label node with
        | Some _ =>
            inl (set_square_objects (<[label node := false]> (_square_objects v)) v,
                 trace ++ [Hide (label node)])
        | None => inl (v, trace)
        end
  end.

(** One pass of [while self._frontier: ...]. *)
Definition grow_body (s : state) : state + state :=
  let '(v, trace) := s in
  match popleft (_frontier v) with
  | None => inr s
  | Some ((depth, node), frontier) =>
      let v := set_frontier frontier v in
      if depth >? _depth_limit v then
        inr (set_frontier (appendleft (depth, node) (_frontier v)) v, trace)
      else
        let v := set_drawn_nodes (append (_drawn_nodes v) (depth, node)) v in
        let v := set_frontier
                   (extend (_frontier v)
                      (map (fun c => (depth + 1, c)) (children node))) v in
        match _square_objects v !! label node with
        | Some _ =>
            inl (set_square_objects (<[label node := true]> (_square_objects v)) v,
                 trace ++ [Show (label node)])
        | None =>
            inl (set_square_objects (<[label node := true]> (_square_objects v)) v,
                 trace ++ [Create node depth])
        end
  end.

(** Number of nodes of a tree, of a forest, of a deque of entries. *)
Fixpoint size (n : TreeNode Sq) : nat :=
  match n with
  | mkTreeNode _ _ _ cs =>
      S ((fix sizes (l : list (TreeNode Sq)) : nat :=
            match l with
            | [] => O
            | c :: l' => (size c + sizes l')%nat
            end) cs)
  end.

Definition forest_size (l : list (TreeNode Sq)) : nat :=
  fold_right (fun c acc => (size c + acc)%nat) O l.

Definition entries_size (d : deque (Z * TreeNode Sq)) : nat :=
  forest_size (map snd d).

(** [_draw_tree(self, root)].  The shrinking loop gets one unit of fuel
    per drawn entry and the growing loop one per node still reachable
    from the frontier, plus one for the pass that leaves the loop. *)
Definition _draw_tree (root : TreeNode Sq) (s : state) : option state :=
  let '(v, trace) := s in
  match _tree v with
  | None => Some s
  | Some _ =>
      let v := match _drawn_nodes v with
               | [] => set_frontier (appendleft (0, root) (_frontier v)) v
               | _ => v
               end in
      let was_decreased := _depth_was_decreased v in
      let v := if was_decreased then set_frontier [] v else v in
      match while (S (List.length (_drawn_nodes v))) shrink_body (v, trace) with
      | None => None
      | Some (v, trace) =>
          while (S (entries_size (_frontier v))) grow_body (v, trace)
      end
  end.

(** [set_depth_limit]; [self._tree] is what [_draw_tree] is handed, and
    when it is [None] the call returns at once. *)
Definition set_depth_limit (depth : Z) (s : state) : option state :=
  let '(v, trace) := s in
  let v := mkViewer (_tree v) depth (_square_objects v)
             (_drawn_nodes v) (_frontier v) in
  match _tree v with
  | None => Some (v, trace)
  | Some root => _draw_tree root (v, trace)
  end.

(** [clear] with [_clear_scene]. *)
Definition clear (v : PythagorasTreeViewer) : PythagorasTreeViewer :=
  mkViewer None (_depth_limit v) ∅ [] [].

(** [set_tree] for an adapter that is not [None]: [calculated] is what
    [_calculate_tree(tree_adapter)] returned and [max_depth] is
    [tree_adapter.max_depth]. *)
Definition set_tree (calculated : TreeNode Sq) (max_depth : Z) (s : state)
  : option state :=
  let '(v, trace) := s in
  let v := clear v in
  let v := mkViewer (Some calculated) (_depth_limit v) (_square_objects v)
             (_drawn_nodes v) (_frontier v) in
  match set_depth_limit max_depth (v, trace) with
  | None => None
  | Some s => _draw_tree calculated s
  end.

(** A run of [set_depth_limit] calls. *)
Fixpoint set_depth_limits (limits : list Z) (s : state) : option state :=
  match limits with
  | [] => Some s
  | l :: limits' =>
      match set_depth_limit l s with
      | None => None
      | Some s' => set_depth_limits limits' s'
      end
  end.

(** The labels whose graphics item is currently shown. *)
Definition visible (v : PythagorasTreeViewer) (l : Z) : Prop :=
  _square_objects v !! l = Some true.

(** ** The tree, level by level *)

(** The nodes at depth [d] below a forest, left to right. *)
Fixpoint level (d : nat) (ns : list (TreeNode Sq)) : list (TreeNode Sq) :=
  match d with
  | O => ns
  | S d' => flat_map children (level d' ns)
  end.

Definition tag (d : Z) (ns : list (TreeNode Sq)) : list (Z * TreeNode Sq) :=
  map (fun n => (d, n)) ns.

(** Levels [0 .. k-1] with their depths, shallowest first. *)
Fixpoint levels_below (k : nat) (ns : list (TreeNode Sq)) : list (Z * TreeNode Sq) :=
  match k with
  | O => []
  | S k' => levels_below k' ns ++ tag (Z.of_nat k') (level k' ns)
  end.

(** The nodes a depth limit asks for: those at depth at most [limit]. *)
Definition within (limit : Z) (root : TreeNode Sq) : list (Z * TreeNode Sq) :=
  levels_below (Z.to_nat (limit + 1)) [root].

(** Levels [d .. d+k-1] with their depths. *)
Fixpoint levels_from (d k : nat) (ns : list (TreeNode Sq)) : list (Z * TreeNode Sq) :=
  match k with
  | O => []
  | S k' => tag (Z.of_nat d) (level d ns) ++ levels_from (S d) k' ns
  end.

(** No label occurs twice in the tree, listed level by level. *)
Definition unique_labels (root : TreeNode Sq) : Prop :=
  forall k, NoDup (map (fun e => label (snd e)) (levels_below k [root])).

(** ** What one entry costs the scene *)

(** An entry joins [_drawn_nodes]: its item is shown, or built when the
    label has none yet. *)
Definition materialize (ot : gmap Z bool * list event) (e : Z * TreeNode Sq)
  : gmap Z bool * list event :=
  match fst ot !! label (snd e) with
  | Some _ => (<[label (snd e) := true]> (fst ot), snd ot ++ [Show (label (snd e))])
  | None => (<[label (snd e) := true]> (fst ot), snd ot ++ [Create (snd e) (fst e)])
  end.

(** An entry leaves [_drawn_nodes]: its item, if any, is hidden. *)
Definition dematerialize (ot : gmap Z bool * list event) (e : Z * TreeNode Sq)
  : gmap Z bool * list event :=
  match fst ot !! label (snd e) with
  | Some _ => (<[label (snd e) := false]> (fst ot), snd ot ++ [Hide (label (snd e))])
  | None => ot
  end.

(** A viewer and its trace, from the table and trace threaded by
    [materialize] and [dematerialize]. *)
Definition state_of (t : option (TreeNode Sq)) (limit : Z)
    (drawn frontier : deque (Z * TreeNode Sq))
    (ot : gmap Z bool * list event) : state :=
  (mkViewer t limit (fst ot) drawn frontier, snd ot).

(** ** The shape of the two deques between calls *)

(** With [m] the number of times the root was seeded into the frontier
    since the drawn deque was last empty: the drawn deque holds the
    levels up to the limit of [m] copies of the tree, and the frontier
    holds the next level. *)
Definition consistent (root : TreeNode Sq) (v : PythagorasTreeViewer) : Prop :=
  _tree v = Some root /\
  exists m : nat,
    (-1 <= _depth_limit v -> (1 <= m)%nat) /\
    _drawn_nodes v = levels_below (Z.to_nat (_depth_limit v + 1)) (repeat root m) /\
    _frontier v = tag (Z.max 0 (_depth_limit v + 1))
                    (level (Z.to_nat (_depth_limit v + 1)) (repeat root m)).

(** What a call with limit [limit] makes of a consistent viewer: some
    entries beyond the limit are [removed] from the back of the drawn
    deque and hidden, some within the limit are [added] and shown or
    created, and the deques are again the levels of [m] copies. *)
Definition redrawn (root : TreeNode Sq) (limit : Z)
    (v : PythagorasTreeViewer) (trace : list event) (s' : state) : Prop :=
  exists (m : nat) (kept removed added : list (Z * TreeNode Sq)),
    _drawn_nodes v = kept ++ removed /\
    Forall (fun e => fst e <= limit) kept /\
    Forall (fun e => limit < fst e) removed /\
    kept ++ added = levels_below (Z.to_nat (limit + 1)) (repeat root m) /\
    (-1 <= limit -> (1 <= m)%nat) /\
    s' = state_of (Some root) limit (kept ++ added)
           (tag (Z.max 0 (limit + 1))
              (level (Z.to_nat (limit + 1)) (repeat root m)))
           (fold_left materialize added
              (fold_left dematerialize (rev removed)
                 (_square_objects v, trace))).

(** ** The graphics items between calls *)

(** Every drawn entry has an item, and every shown item belongs to a
    drawn entry. *)
Definition handles_follow (v : PythagorasTreeViewer) : Prop :=
  (forall e, In e (_drawn_nodes v) -> is_Some (_square_objects v !! label (snd e))) /\
  (forall l, visible v l -> exists e, In e (_drawn_nodes v) /\ label (snd e) = l).

(** The item of every drawn entry is shown. *)
Definition drawn_visible (v : PythagorasTreeViewer) : Prop :=
  forall e, In e (_drawn_nodes v) -> visible v (label (snd e)).

Definition good (root : TreeNode Sq) (v : PythagorasTreeViewer) : Prop :=
  consistent root v /\ handles_follow v /\ (unique_labels root -> drawn_visible v).

(** [set_tree] on a viewer, then a run of [set_depth_limit] calls; the
    trace starts with [set_tree]. *)
Definition run (root : TreeNode Sq) (max_depth : Z) (limits : list Z)
    (v0 : PythagorasTreeViewer) : option state :=
  match set_tree root max_depth (v0, []) with
  | Some s => set_depth_limits limits s
  | None => None
  end.

Definition creates (l : Z) (e : event) : bool :=
  match e with
  | Create n _ => label n =? l
  | _ => false
  end.

(** A label has been created once if it has an item and never otherwise. *)
Definition creates_once (ot : gmap Z bool * list event) : Prop :=
  forall l, List.length (List.filter (creates l) (snd ot)) =
            match fst ot !! l with Some _ => 1%nat | None => 0%nat end.

(** The events of entries leaving and joining the drawn deque. *)
Definition hides (removed : list (Z * TreeNode Sq)) : list event :=
  map (fun e => Hide (label (snd e))) (rev removed).

Definition shows_or_creates (added : list (Z * TreeNode Sq)) (evs : list event) : Prop :=
  Forall2 (fun e ev => ev = Show (label (snd e)) \/ ev = Create (snd e) (fst e))
    added evs.

End Controller.

Arguments event Sq : clear implicits.
Arguments PythagorasTreeViewer Sq : clear implicits.
Arguments state Sq : clear implicits.

(** [set_tree(tree_adapter)] from the adapter: the layout is computed
    first, with [fuel] for its recursion. *)
Definition set_tree_adapter {F} {ops : Geometry.FloatOps F} (fuel : nat)
    (tree_adapter : Geometry.TreeAdapter F) (s : state (Geometry.Square F))
  : option (state (Geometry.Square F)) :=
  match Geometry._calculate_tree fuel tree_adapter with
  | Some calculated => set_tree calculated (Geometry.max_depth tree_adapter) s
  | None => None
  end.

(** A balanced binary tree of three levels, labelled in breadth-first
    order; squares play no part in the drawing. *)
Definition leaf (l p : Z) : TreeNode unit := mkTreeNode l tt p [].
Definition tree7 : TreeNode unit :=
  mkTreeNode 0 tt (-1)
    [ mkTreeNode 1 tt 0 [leaf 3 1; leaf 4 1];
      mkTreeNode 2 tt 0 [leaf 5 2; leaf 6 2] ].

Definition is_create {Sq} (e : event Sq) : bool :=
  match e with Create _ _ => true | _ => false end.
Definition is_show {Sq} (e : event Sq) : bool :=
  match e with Show _ => true | _ => false end.
Definition is_hide {Sq} (e : event Sq) : bool :=
  match e with Hide _ => true | _ => false end.

(** The label an event is about. *)
Definition event_label {Sq} (e : event Sq) : Z :=
  match e with
  | Create n _ => label n
  | Show l => l
  | Hide l => l
  end.

Definition count {A} (p : A -> bool) (l : list A) : nat :=
  List.length (List.filter p l).

(** How many create, show and hide events a list holds. *)
Definition counts {Sq} (evs : list (event Sq)) : nat * nat * nat :=
  (count is_create evs, count is_show evs, count is_hide evs).

(** The counts of the events each call of a run adds to the trace. *)
Fixpoint call_counts {Sq} (limits : list Z) (s : state Sq) : list (nat * nat * nat) :=
  match limits with
  | [] => []
  | l :: limits' =>
      match set_depth_limit l s with
      | Some s' =>
          counts (skipn (List.length (snd s)) (snd s')) :: call_counts limits' s'
      | None => []
      end
  end.

End Viewer.

(* ===================================================================== *)
(** * The scikit-learn adapter *)
(* ===================================================================== *)

Module Adapter.
Import Rules.

Local Open Scope string_scope.
Local Open Scope Z_scope.

(** What a call on the adapter can raise: [IndexError] from an array or
    a tuple, a failed [assert], or what the rule classes raise. *)
Inductive error : Type :=
  | IndexError
  | AssertionError
  | RuleError (e : exn).

(** A call that returns or raises, with the lines it has written to
    stderr until then. *)
Definition out (A : Type) : Type := (A + error) * list string.

Definition ret {A} (a : A) : out A := (inl a, []).
Definition raise {A} (e : error) : out A := (inr e, []).

Definition bind {A B} (m : out A) (k : A -> out B) : out B :=
  match m with
  | (inl a, w) => let '(r, w') := k a in (r, (w ++ w')%list)
  | (inr e, w) => (inr e, w)
  end.

Local Notation "x <- m ;; k" := (bind m (fun x => k))
  (at level 100, m at next level, right associativity).

(** A list comprehension whose element expression can raise. *)
Fixpoint for_each {A B} (f : A -> out B) (l : list A) : out (list B) :=
  match l with
  | [] => ret []
  | a :: l' => b <- f a ;; bs <- for_each f l' ;; ret (b :: bs)
  end.

(** [arr[i]] on a numpy array, a tuple or a list: a negative index
    counts from the end, and an index outside [-len, len) raises. *)
Definition index {A} (arr : list A) (i : Z) : out A :=
  let n := Z.of_nat (List.length arr) in
  let j := if i <? 0 then i + n else i in
  if (0 <=? j) && (j <? n) then
    match arr !! Z.to_nat j with
    | Some a => ret a
    | None => raise IndexError
    end
  else raise IndexError.

(** [(arr == node).nonzero()[0]], from position [i] on: the first index
    of an entry equal to [node], if any. *)
Fixpoint first_index (node : Z) (arr : list Z) (i : Z) : option Z :=
  match arr with
  | [] => None
  | c :: arr' => if c =? node then Some i else first_index node arr' (i + 1)
  end.

Section Sklearn.

Variable number : Type.
Variable gt lt : number -> number -> bool.
Variable fmt_percent_3f : number -> string.
Variable fmt_brace_3 : number -> result string.

(** The arrays of [sklearn.tree._tree.Tree] the adapter reads. *)
Record Tree : Type := mkTree {
  children_left : list Z;
  children_right : list Z;
  feature : list Z;
  threshold : list number;
  n_node_samples : list Z;
  tree_max_depth : Z;
  node_count : Z
}.

(** An attribute of the domain, as [rules] looks at it: its [name], and
    its [compute_value] when that is an [Indicator] over a variable that
    has [values] (the variable's name and values, and the index the
    indicator stands for). *)
Record Indicator : Type := mkIndicator {
  variable_name : string;
  variable_values : list string;
  indicator_value : Z
}.

Record Attribute : Type := mkAttribute {
  name : string;
  compute_value : option Indicator
}.

(** [SklTreeAdapter(tree, domain)] *)
Record SklTreeAdapter : Type := mkSklTreeAdapter {
  _tree : Tree;
  _domain : list Attribute
}.

Definition ROOT_PARENT_INDEX : Z := -1.

Definition root : Z := 0.

Definition max_depth (self : SklTreeAdapter) : Z := tree_max_depth (_tree self).

Definition num_nodes (self : SklTreeAdapter) : Z := node_count (_tree self).

Definition num_samples (self : SklTreeAdapter) (node : Z) : out Z :=
  index (n_node_samples (_tree self)) node.

(** [parent]: the left children are searched first; the [IndexError] of
    a search that finds nothing is caught. *)
Definition parent (self : SklTreeAdapter) (node : Z) : Z :=
  match first_index node (children_left (_tree self)) 0 with
  | Some i => i
  | None =>
      match first_index node (children_right (_tree self)) 0 with
      | Some i => i
      | None => ROOT_PARENT_INDEX
      end
  end.

Definition _left_child (self : SklTreeAdapter) (node : Z) : out Z :=
  index (children_left (_tree self)) node.

Definition _right_child (self : SklTreeAdapter) (node : Z) : out Z :=
  index (children_right (_tree self)) node.

(** [has_children]: the right array is read only when the left entry is
    [-1]. *)
Definition has_children (self : SklTreeAdapter) (node : Z) : out bool :=
  l <- index (children_left (_tree self)) node ;;
  if negb (l =? -1) then ret true
  else r <- index (children_right (_tree self)) node ;; ret (negb (r =? -1)).

Definition children (self : SklTreeAdapter) (node : Z) : out (list Z) :=
  b <- has_children self node ;;
  if b then l <- _left_child self node ;; r <- _right_child self node ;; ret [l; r]
  else ret [].

(** [TreeAdapter.is_leaf] and [TreeAdapter.is_root]. *)
Definition is_leaf (self : SklTreeAdapter) (node : Z) : out bool :=
  b <- has_children self node ;; ret (negb b).

Definition is_root (self : SklTreeAdapter) (node : Z) : bool := node =? root.

Definition splitting_attribute (self : SklTreeAdapter) (node : Z) : out Z :=
  index (feature (_tree self)) node.

Definition attribute (self : SklTreeAdapter) (node : Z) : out Attribute :=
  f <- splitting_attribute self node ;; index (_domain self) f.

(** [r.attr_name], which [None] does not have. *)
Definition attr_name_of (v : pyvalue number) : out string :=
  match v with
  | VRule (Discrete r) => ret (d_attr_name r)
  | VRule (Continuous r) => ret (attr_name r)
  | VRule (Interval r) => ret (i_attr_name r)
  | VNone => raise (RuleError
               (AttributeError "'NoneType' object has no attribute 'attr_name'"))
  end.

(** [v.merge_with(rule)] *)
Definition call_merge_with (v rule : pyvalue number) : out (pyvalue number) :=
  match v with
  | VRule r =>
      match merge_with gt lt fmt_percent_3f fmt_brace_3 r rule with
      | (Returned m, w) => (inl m, w)
      | (Raised e, w) => (inr (RuleError e), w)
      end
  | VNone => raise (RuleError
               (AttributeError "'NoneType' object has no attribute 'merge_with'"))
  end.

(** [collections.OrderedDict] with string keys: the entries in insertion
    order, no key twice. *)
Definition OrderedDict : Type := list (string * pyvalue number).

Fixpoint od_get (k : string) (d : OrderedDict) : option (pyvalue number) :=
  match d with
  | [] => None
  | (k', v) :: d' => if String.eqb k' k then Some v else od_get k d'
  end.

(** [d[k] = v]: an existing key keeps its place. *)
Fixpoint od_set (k : string) (v : pyvalue number) (d : OrderedDict) : OrderedDict :=
  match d with
  | [] => [(k, v)]
  | (k', v') :: d' =>
      if String.eqb k' k then (k', v) :: d' else (k', v') :: od_set k v d'
  end.

(** [OrderedDict(items)] *)
Definition od_of_items (items : list (string * pyvalue number)) : OrderedDict :=
  fold_left (fun d kv => od_set (fst kv) (snd kv) d) items [].

(** [d.move_to_end(k)] for a key that is present. *)
Definition od_move_to_end (k : string) (d : OrderedDict) : OrderedDict :=
  match od_get k d with
  | Some v => (List.filter (fun kv => negb (String.eqb (fst kv) k)) d ++ [(k, v)])%list
  | None => d
  end.

Definition od_values (d : OrderedDict) : list (pyvalue number) := map snd d.

(** The rule a split contributes to a child, and the key it is filed
    under: the body of [rules] between the rebuilding of [pr] and the
    look-up of the key. *)
Definition split_rule (self : SklTreeAdapter) (parent node : Z)
  : out (string * Rule number) :=
  parent_attr <- attribute self parent ;;
  let parent_attr_cv := compute_value parent_attr in
  lc <- _left_child self parent ;;
  let is_left_child := lc =? node in
  match parent_attr_cv with
  | Some cv =>
      let values := variable_values cv in
      let two := Z.of_nat (List.length values) =? 2 in
      let attr_name := variable_name cv in
      let eq := negb (is_left_child && negb two) in
      value <- index values
                (Z.abs (indicator_value cv - (if is_left_child && two then 1 else 0))) ;;
      ret (attr_name ++ "_" ++ value, Discrete (mkDiscreteRule attr_name eq value))
  | None =>
      let attr_name := name parent_attr in
      let sign := negb is_left_child in
      value <- index (threshold (_tree self)) parent ;;
      ret (attr_name, Continuous (mkContinuousRule attr_name sign value is_left_child))
  end.

(** The rest of the body: the rule is merged into the entry of its key
    and that entry moved to the end, or it is added at the end. *)
Definition file_rule (pr : OrderedDict) (attr_name : string) (new_rule : Rule number)
  : out (list (pyvalue number)) :=
  match od_get attr_name pr with
  | Some old =>
      merged <- call_merge_with old (VRule new_rule) ;;
      ret (od_values (od_move_to_end attr_name (od_set attr_name merged pr)))
  | None => ret (od_values (od_set attr_name (VRule new_rule) pr))
  end.

(** [rules(node)], one call on a fresh cache; [fuel] bounds the depth of
    the recursion towards the root, and [None] means it was exhausted. *)
Fixpoint rules (fuel : nat) (self : SklTreeAdapter) (node : Z)
  : option (out (list (pyvalue number))) :=
  match fuel with
  | O => None
  | S fuel' =>
      if negb (node =? root) then
        let parent := parent self node in
        match rules fuel' self parent with
        | None => None
        | Some above =>
            Some (prs <- above ;;
                  items <- for_each (fun r => a <- attr_name_of r ;; ret (a, r)) prs ;;
                  let pr := od_of_items items in
                  new <- split_rule self parent node ;;
                  file_rule pr (fst new) (snd new))
        end
      else Some (ret [])
  end.

End Sklearn.

Arguments mkTree {number}.
Arguments children_left {number}.
Arguments children_right {number}.
Arguments feature {number}.
Arguments threshold {number}.
Arguments n_node_samples {number}.
Arguments mkSklTreeAdapter {number}.
Arguments _tree {number}.
Arguments _domain {number}.
Arguments parent {number}.
Arguments _left_child {number}.
Arguments _right_child {number}.
Arguments has_children {number}.
Arguments children {number}.
Arguments is_leaf {number}.
Arguments attribute {number}.
Arguments splitting_attribute {number}.
Arguments attr_name_of {number}.
Arguments call_merge_with {number}.
Arguments od_get {number}.
Arguments od_set {number}.
Arguments od_of_items {number}.
Arguments od_move_to_end {number}.
Arguments od_values {number}.
Arguments split_rule {number}.
Arguments file_rule {number}.
Arguments rules {number}.
Arguments num_samples {number}.

(** ** Leaves and samples *)

(** A recursive call that may run out of fuel ([None]), followed by the
    rest of the body. *)
Definition after {A B} (m : option (out A)) (k : A -> option (out B))
  : option (out B) :=
  match m with
  | None => None
  | Some (inr e, w) => Some (inr e, w)
  | Some (inl a, w) =>
      match k a with
      | None => None
      | Some (r, w') => Some (r, (w ++ w')%list)
      end
  end.

Local Notation "x <-- m ;; k" := (after m (fun x => k))
  (at level 100, m at next level, right associativity).

(** [arr[start:stop]] on a numpy array: negative bounds count from the
    end, and bounds outside the array are clipped. *)
Definition slice {A} (arr : list A) (start stop : Z) : list A :=
  let n := Z.of_nat (List.length arr) in
  let clip i := if i <? 0 then Z.max 0 (i + n) else Z.min i n in
  take (Z.to_nat (clip stop - clip start)) (drop (Z.to_nat (clip start)) arr).

(** [np.flatnonzero(mask)]: the positions of the entries that are true,
    counted from [i]. *)
Fixpoint flatnonzero (mask : list bool) (i : Z) : list Z :=
  match mask with
  | [] => []
  | b :: mask' =>
      if b then i :: flatnonzero mask' (i + 1) else flatnonzero mask' (i + 1)
  end.

(** [arr[mask]] for a boolean mask as long as the array. *)
Fixpoint select {A} (arr : list A) (mask : list bool) : list A :=
  match arr, mask with
  | a :: arr', b :: mask' => if b then a :: select arr' mask' else select arr' mask'
  | _, _ => []
  end.

Section Samples.

Context {number : Type}.

(** [find_largest_idx] of [_subnode_range]. *)
Fixpoint find_largest_idx (fuel : nat) (self : SklTreeAdapter number) (n : Z)
  : option (out Z) :=
  match fuel with
  | O => None
  | S fuel' =>
      l <-- Some (index (children_left (_tree self)) n) ;;
      if l =? -1 then Some (ret n)
      else
        l_node <-- find_largest_idx fuel' self l ;;
        r <-- Some (index (children_right (_tree self)) n) ;;
        r_node <-- find_largest_idx fuel' self r ;;
        Some (ret (if l_node >? r_node then l_node else r_node))
  end.

Definition _subnode_range (fuel : nat) (self : SklTreeAdapter number) (node : Z)
  : option (out (Z * Z)) :=
  l <-- Some (index (children_left (_tree self)) node) ;;
  if l =? -1 then
    r <-- Some (index (children_right (_tree self)) node) ;;
    if r =? -1 then Some (ret (node, node)) else Some (raise AssertionError)
  else
    right <-- find_largest_idx fuel self node ;;
    Some (ret (l, right + 1)).

(** [leaves] *)
Definition leaves (fuel : nat) (self : SklTreeAdapter number) (node : Z)
  : option (out (list Z)) :=
  range <-- _subnode_range fuel self node ;;
  let '(start, stop) := range in
  if start =? stop then Some (ret [node])
  else
    let is_leaf := map (fun c => c =? -1)
                     (slice (children_left (_tree self)) start stop) in
    match flatnonzero is_leaf 0 with
    | [] => Some (raise AssertionError)
    | hits => Some (ret (map (fun i => start + i) hits))
    end.

(** The matrix of samples, one row per instance and one column per
    attribute; it covers the rows and columns that are asked of it.
    [le] is [<=] on its entries. *)
Variable data : Z -> Z -> number.
Variable le : number -> number -> bool.

(** [assign] of [get_samples_in_leaves]. *)
Fixpoint assign (fuel : nat) (self : SklTreeAdapter number) (node_id : Z)
    (indices : list Z) : option (out (list (list Z))) :=
  match fuel with
  | O => None
  | S fuel' =>
      l <-- Some (index (children_left (_tree self)) node_id) ;;
      if l =? -1 then Some (ret [indices])
      else
        feature_idx <-- Some (index (feature (_tree self)) node_id) ;;
        thresh <-- Some (index (threshold (_tree self)) node_id) ;;
        let column := map (fun i => data i feature_idx) indices in
        let leftmask := map (fun x => le x thresh) column in
        leftind <-- assign fuel' self l (select indices leftmask) ;;
        r <-- Some (index (children_right (_tree self)) node_id) ;;
        rightind <-- assign fuel' self r (select indices (map negb leftmask)) ;;
        Some (ret (leftind ++ rightind)%list)
  end.

(** [get_samples_in_leaves] for a matrix of [n] rows: the groups it
    returns, and what [self._all_leaves] holds afterwards. *)
Definition get_samples_in_leaves (fuel : nat) (self : SklTreeAdapter number)
    (_all_leaves : option (list (list Z))) (n : Z)
  : option (out (list (list Z)) * option (list (list Z))) :=
  match _all_leaves with
  | Some cached => Some (ret cached, Some cached)
  | None =>
      match assign fuel self 0 (seqZ 0 n) with
      | None => None
      | Some (inl leaf_indices, w) => Some ((inl leaf_indices, w), Some leaf_indices)
      | Some (inr e, w) => Some ((inr e, w), None)
      end
  end.

End Samples.

Section Weights.

Context {number F : Type} {ops : Geometry.FloatOps F}.

(** [self._adjust_weight], applied to the sample count of a node. *)
Variable adjust_weight : Z -> F.

(** [_adjusted_child_weight]: the built-in [sum] over the adjusted
    sample counts of the children, or the [int] 0 for a node without
    children. *)
Definition _adjusted_child_weight (self : SklTreeAdapter number) (node : Z) : out F :=
  b <- has_children self node ;;
  if b then
    cs <- children self node ;;
    ws <- for_each (fun c => n <- num_samples self c ;; ret (adjust_weight n)) cs ;;
    ret (Geometry.sum ws)
  else ret (Geometry.of_int 0).

(** [weight]: the operands of the division are evaluated from left to
    right.  The sample counts are numpy scalars, and so are their
    adjusted values under the default [adjust_weight] and under numpy's
    functions: their division returns a number for every divisor. *)
Definition weight (self : SklTreeAdapter number) (node : Z) : out F :=
  n <- num_samples self node ;;
  total <- _adjusted_child_weight self (parent self node) ;;
  ret (Geometry.div (adjust_weight n) total).

End Weights.

End Adapter.

(* ===================================================================== *)
(** * Notions the further properties are stated with *)
(* ===================================================================== *)

Module Notions.
Import Rules.

Local Open Scope string_scope.
Local Open Scope Z_scope.

(** An interval the way the merges build it: a lower bound on the left
    and an upper bound on the right. *)
Definition well_formed {number} (i : IntervalRule number) : Prop :=
  sign (left_rule i) = true /\ sign (right_rule i) = false.

(** The attribute a rule is about. *)
Definition rule_name {number} (r : Rule number) : string :=
  match r with
  | Discrete d => d_attr_name d
  | Continuous c => attr_name c
  | Interval i => i_attr_name i
  end.

(** A rule on a numeric attribute: a bound, or a well-formed interval. *)
Definition numeric {number} (r : Rule number) : Prop :=
  match r with
  | Discrete _ => False
  | Continuous _ => True
  | Interval i => well_formed i
  end.

(** The tree the layout returns follows the adapter: the children of
    a node are the nodes of the adapter's children of its label, in the
    adapter's order, each pointing back to it, and so on below. *)
Fixpoint mirrors {F} (tree : Geometry.TreeAdapter F)
    (n : TreeNode (Geometry.Square F)) : Prop :=
  match n with
  | mkTreeNode l _ _ cs =>
      map label cs = Geometry.adapter_children tree l
      /\ map parent cs = map (fun _ => l) cs
      /\ (fix all (cs : list (TreeNode (Geometry.Square F))) : Prop :=
            match cs with
            | [] => True
            | c :: cs' => mirrors tree c /\ all cs'
            end) cs
  end.




(** ** The adapter *)

(** The attribute an entry of a rule list is about. *)
Definition value_name {number} (v : pyvalue number) : string :=
  match v with
  | VRule r => rule_name r
  | VNone => EmptyString
  end.

Definition numeric_value {number} (v : pyvalue number) : Prop :=
  match v with
  | VRule r => numeric r
  | VNone => False
  end.

(** The items [rules] rebuilds its dictionary from, for a list without
    [None]: each rule under its attribute. *)
Definition keyed {number} (prs : list (pyvalue number))
  : list (string * pyvalue number) :=
  map (fun v => (value_name v, v)) prs.

(** The arrays of a tree as scikit-learn builds them, with the nodes
    numbered in the order they were added: the arrays have one entry per
    node; a child has a larger number than its parent, and a number that
    exists; no node is the child of two nodes, or twice the child of one;
    and every node but node 0 is the child of some node. *)
Record sklearn_shaped {number} (self : Adapter.SklTreeAdapter number) : Prop := {
  shaped_right :
    List.length (Adapter.children_right (Adapter._tree self))
    = List.length (Adapter.children_left (Adapter._tree self));
  shaped_feature :
    List.length (Adapter.feature (Adapter._tree self))
    = List.length (Adapter.children_left (Adapter._tree self));
  shaped_threshold :
    List.length (Adapter.threshold (Adapter._tree self))
    = List.length (Adapter.children_left (Adapter._tree self));
  shaped_after : forall (p : nat) (c : Z),
    Adapter.children_left (Adapter._tree self) !! p = Some c
    \/ Adapter.children_right (Adapter._tree self) !! p = Some c ->
    c = -1 \/
    Z.of_nat p < c
      < Z.of_nat (List.length (Adapter.children_left (Adapter._tree self)));
  shaped_once :
    NoDup
      (List.filter (fun c => negb (c =? -1))
         (Adapter.children_left (Adapter._tree self)
          ++ Adapter.children_right (Adapter._tree self)));
  shaped_reached : forall c : Z,
    0 < c < Z.of_nat (List.length (Adapter.children_left (Adapter._tree self))) ->
    In c (Adapter.children_left (Adapter._tree self)
          ++ Adapter.children_right (Adapter._tree self))
}.

(** Every node that has a child splits on an attribute of the domain
    whose [compute_value] is no indicator of a discrete variable. *)
Definition numeric_domain {number} (self : Adapter.SklTreeAdapter number) : Prop :=
  forall (p : nat) (c : Z),
    Adapter.children_left (Adapter._tree self) !! p = Some c
    \/ Adapter.children_right (Adapter._tree self) !! p = Some c ->
    c <> -1 ->
    exists (f : nat) (a : Adapter.Attribute),
      Adapter.feature (Adapter._tree self) !! p = Some (Z.of_nat f)
      /\ Adapter._domain self !! f = Some a
      /\ Adapter.compute_value a = None.

(** The names of the attributes the ancestors of a node split on, from
    the root down. *)
Fixpoint split_names {number} (fuel : nat) (self : Adapter.SklTreeAdapter number)
    (node : Z) : list string :=
  match fuel with
  | O => []
  | S fuel' =>
      if node =? Adapter.root then []
      else
        let p := Adapter.parent self node in
        split_names fuel' self p
          ++ match Adapter.attribute self p with
             | (inl a, _) => [Adapter.name a]
             | _ => []
             end
  end.

(** The arrays describe a binary tree under a node: [spans self n ids]
    holds when [ids] lists the nodes of that tree, a node before the
    nodes under its left child and these before the nodes under its
    right child.  A leaf has [-1] for both children, and a node with a
    left child has a right child. *)
Inductive spans {number} (self : Adapter.SklTreeAdapter number) : Z -> list Z -> Prop :=
  | spans_leaf n :
      0 <= n ->
      Adapter.children_left (Adapter._tree self) !! Z.to_nat n = Some (-1) ->
      Adapter.children_right (Adapter._tree self) !! Z.to_nat n = Some (-1) ->
      spans self n [n]
  | spans_node n l r il ir :
      0 <= n ->
      Adapter.children_left (Adapter._tree self) !! Z.to_nat n = Some l ->
      l <> -1 ->
      Adapter.children_right (Adapter._tree self) !! Z.to_nat n = Some r ->
      spans self l il -> spans self r ir ->
      spans self n (n :: il ++ ir).

Definition is_leaf_id {number} (self : Adapter.SklTreeAdapter number) (id : Z) : bool :=
  match Adapter.children_left (Adapter._tree self) !! Z.to_nat id with
  | Some c => c =? -1
  | None => false
  end.

(** The leaves among the nodes of a list. *)
Definition leaf_ids {number} (self : Adapter.SklTreeAdapter number) (ids : list Z)
  : list Z :=
  List.filter (is_leaf_id self) ids.

(** The leaf the thresholds send a sample to: [lands data le self i n
    leaf] holds when the walk of sample [i] from node [n], to the left
    child where the sample's entry for the node's feature is [<=] the
    node's threshold and to the right child otherwise, ends in [leaf]. *)
Inductive lands {number} (data : Z -> Z -> number) (le : number -> number -> bool)
    (self : Adapter.SklTreeAdapter number) (i : Z) : Z -> Z -> Prop :=
  | lands_here n :
      0 <= n ->
      Adapter.children_left (Adapter._tree self) !! Z.to_nat n = Some (-1) ->
      lands data le self i n n
  | lands_left n l f t leaf :
      0 <= n ->
      Adapter.children_left (Adapter._tree self) !! Z.to_nat n = Some l ->
      l <> -1 ->
      Adapter.feature (Adapter._tree self) !! Z.to_nat n = Some f ->
      Adapter.threshold (Adapter._tree self) !! Z.to_nat n = Some t ->
      le (data i f) t = true ->
      lands data le self i l leaf ->
      lands data le self i n leaf
  | lands_right n l r f t leaf :
      0 <= n ->
      Adapter.children_left (Adapter._tree self) !! Z.to_nat n = Some l ->
      l <> -1 ->
      Adapter.children_right (Adapter._tree self) !! Z.to_nat n = Some r ->
      Adapter.feature (Adapter._tree self) !! Z.to_nat n = Some f ->
      Adapter.threshold (Adapter._tree self) !! Z.to_nat n = Some t ->
      le (data i f) t = false ->
      lands data le self i r leaf ->
      lands data le self i n leaf.

(** ** What the rules say of a sample *)

(** A bound read by its direction, as [__str__] prints it: [>] for a
    lower bound, [≤] for an upper bound. *)
Definition holds_bound (env : string -> Z) (c : ContinuousRule Z) : Prop :=
  if sign c then value c < env (attr_name c) else env (attr_name c) <= value c.

(** A rule on a numeric attribute read on the values [env] gives the
    attributes; a discrete rule says nothing of them. *)
Definition holds (env : string -> Z) (v : pyvalue Z) : Prop :=
  match v with
  | VRule (Continuous c) => holds_bound env c
  | VRule (Interval i) =>
      holds_bound env (left_rule i) /\ holds_bound env (right_rule i)
  | _ => True
  end.

(** The two sides of an interval are about the interval's attribute. *)
Definition coherent (v : pyvalue Z) : Prop :=
  match v with
  | VRule (Interval i) =>
      attr_name (left_rule i) = i_attr_name i
      /\ attr_name (right_rule i) = i_attr_name i
  | _ => True
  end.

(** The column of the attribute called [a], counted from [f]. *)
Fixpoint column (a : string) (attributes : list Adapter.Attribute) (f : Z) : Z :=
  match attributes with
  | [] => f
  | b :: rest =>
      if String.eqb (Adapter.name b) a then f else column a rest (f + 1)
  end.

(** The values of sample [i], by the name of the attribute. *)
Definition sample (data : Z -> Z -> Z) (self : Adapter.SklTreeAdapter Z) (i : Z)
  : string -> Z :=
  fun a => data i (column a (Adapter._domain self) 0).

(** The walk of sample [i] from the root comes through a node. *)
Inductive passes (data : Z -> Z -> Z) (self : Adapter.SklTreeAdapter Z) (i : Z)
  : Z -> Prop :=
  | passes_root : passes data self i Adapter.root
  | passes_left (p : nat) l f t :
      passes data self i (Z.of_nat p) ->
      Adapter.children_left (Adapter._tree self) !! p = Some l ->
      l <> -1 ->
      Adapter.feature (Adapter._tree self) !! p = Some f ->
      Adapter.threshold (Adapter._tree self) !! p = Some t ->
      data i f <= t ->
      passes data self i l
  | passes_right (p : nat) l r f t :
      passes data self i (Z.of_nat p) ->
      Adapter.children_left (Adapter._tree self) !! p = Some l ->
      l <> -1 ->
      Adapter.children_right (Adapter._tree self) !! p = Some r ->
      Adapter.feature (Adapter._tree self) !! p = Some f ->
      Adapter.threshold (Adapter._tree self) !! p = Some t ->
      t < data i f ->
      passes data self i r.

(** A node with a right child has a left child. *)
Definition two_children {number} (self : Adapter.SklTreeAdapter number) : Prop :=
  forall (p : nat) (l r : Z),
    Adapter.children_left (Adapter._tree self) !! p = Some l ->
    Adapter.children_right (Adapter._tree self) !! p = Some r ->
    r <> -1 -> l <> -1.

(** Seven nodes: node 0 splits on [x] at 5 into 1 and 6, node 1 on [y]
    at 3 into 2 and 5, node 2 on [x] at 2 into 3 and 4. *)
Definition numeric_sample : Adapter.SklTreeAdapter Z :=
  Adapter.mkSklTreeAdapter
    (Adapter.mkTree
       [1; 2; 3; -1; -1; -1; -1] [6; 5; 4; -1; -1; -1; -1]
       [0; 1; 0; -2; -2; -2; -2] [5; 3; 2; -2; -2; -2; -2]
       [40; 30; 20; 10; 10; 10; 10] 3 7)
    [Adapter.mkAttribute "x" None; Adapter.mkAttribute "y" None].

(** The same tree over the indicator columns of one discrete variable
    [legs] with the values 2, 4 and 6: node 0 splits on [legs=2], node 1
    on [legs=4] and node 2 on [legs=6]. *)
Definition legs (i : Z) : Adapter.Attribute :=
  Adapter.mkAttribute "legs" (Some (Adapter.mkIndicator "legs" ["2"; "4"; "6"] i)).

Definition discrete_sample : Adapter.SklTreeAdapter Z :=
  Adapter.mkSklTreeAdapter
    (Adapter.mkTree
       [1; 2; 3; -1; -1; -1; -1] [6; 5; 4; -1; -1; -1; -1]
       [0; 1; 2; -2; -2; -2; -2] [0; 0; 0; -2; -2; -2; -2]
       [40; 30; 20; 10; 10; 10; 10] 3 7)
    [legs 0; legs 1; legs 2].

End Notions.

(* ===================================================================== *)
(** * Facts about the rule algebra *)
(* ===================================================================== *)

Module RulesFacts.
Import Rules.

Local Open Scope string_scope.
Local Open Scope Z_scope.

Lemma gtb_max (a b : Z) : (if a >? b then a else b) = Z.max a b.
Proof. destruct (Z.gtb_spec a b); lia. Qed.

Lemma ltb_min (a b : Z) : (if a <? b then a else b) = Z.min a b.
Proof. destruct (Z.ltb_spec a b); lia. Qed.

(** Two continuous rules of one direction merge into one continuous rule
    that carries the receiver's attribute and direction. *)
Lemma merge_same_direction {number} (gt lt : number -> number -> bool)
    (self rule : ContinuousRule number) :
  sign self = sign rule ->
  ContinuousRule_merge_with gt lt self (VRule (Continuous rule)) =
  Returned (VRule (Continuous
    (mkContinuousRule (attr_name self) (sign self)
       (if sign self
        then (if gt (value self) (value rule) then value self else value rule)
        else (if lt (value self) (value rule) then value self else value rule))
       false))).
Proof.
  intros Hs. unfold ContinuousRule_merge_with, ContinuousRule_init.
  rewrite <- Hs, Bool.eqb_reflx. destruct (sign self); reflexivity.
Qed.

(** Two continuous rules of opposite directions merge into an interval
    with the greater-than rule on the left. *)
Lemma merge_opposite_direction {number} (gt lt : number -> number -> bool)
    (self rule : ContinuousRule number) :
  sign self = negb (sign rule) ->
  ContinuousRule_merge_with gt lt self (VRule (Continuous rule)) =
  Returned (VRule (Interval
    (mkIntervalRule (attr_name self)
       (if sign self then self else rule)
       (if sign self then rule else self)))).
Proof.
  intros Hs. unfold ContinuousRule_merge_with, IntervalRule_init.
  rewrite Hs. destruct (sign rule); reflexivity.
Qed.

(** C3.  Merging two continuous rules: with equal directions the result
    is one continuous rule with the tighter bound, the larger value for two
    greater-than rules and the smaller for two upper bounds (5 and 8, both
    greater-than, give 8); with different directions it is an interval rule
    whose left side is the greater-than rule and whose right side is the
    other one (x > 5 with x <= 10 gives left value 5, right value 10).
    Nothing is written to stderr. *)
Theorem continuous_merge_tighter_bound_or_interval :
  (forall f1 f2 (self rule : ContinuousRule Z),
     merge_with Z.gtb Z.ltb f1 f2 (Continuous self) (VRule (Continuous rule)) =
     (if Bool.eqb (sign self) (sign rule)
      then Returned (VRule (Continuous
             (mkContinuousRule (attr_name self) (sign self)
                (if sign self then Z.max (value self) (value rule)
                 else Z.min (value self) (value rule))
                false)))
      else Returned (VRule (Interval
             (mkIntervalRule (attr_name self)
                (if sign self then self else rule)
                (if sign self then rule else self)))),
      []))
  /\ (forall f1 f2 i1 i2,
        merge_with Z.gtb Z.ltb f1 f2 (Continuous (mkContinuousRule "x" true 5 i1))
          (VRule (Continuous (mkContinuousRule "x" true 8 i2))) =
        (Returned (VRule (Continuous (mkContinuousRule "x" true 8 false))), []))
  /\ (forall f1 f2,
        merge_with Z.gtb Z.ltb f1 f2 (Continuous (mkContinuousRule "x" true 5 false))
          (VRule (Continuous (mkContinuousRule "x" false 10 true))) =
        (Returned (VRule (Interval
           (mkIntervalRule "x" (mkContinuousRule "x" true 5 false)
                               (mkContinuousRule "x" false 10 true)))), [])).
Proof.
  split; [| split; reflexivity].
  intros f1 f2 self rule. unfold merge_with. f_equal.
  destruct (Bool.eqb (sign self) (sign rule)) eqn:E.
  - apply Bool.eqb_prop in E. rewrite (merge_same_direction _ _ _ _ E).
    rewrite gtb_max, ltb_min. reflexivity.
  - apply Bool.eqb_false_iff in E. apply merge_opposite_direction.
    destruct (sign self), (sign rule); simpl; congruence.
Qed.

(** C10.  When two continuous rules of one direction are merged, the
    resulting continuous rule is not inclusive, whatever the inclusive
    flags of the two rules were. *)
Theorem same_direction_merge_drops_inclusive {number}
    (gt lt : number -> number -> bool) f1 f2 (self rule : ContinuousRule number) :
  sign self = sign rule ->
  exists merged,
    merge_with gt lt f1 f2 (Continuous self) (VRule (Continuous rule)) =
      (Returned (VRule (Continuous merged)), [])
    /\ inclusive merged = false.
Proof.
  intros Hs. eexists. unfold merge_with.
  rewrite (merge_same_direction _ _ _ _ Hs). split; reflexivity.
Qed.

Lemma same_direction_merge_drops_inclusive_witness :
  exists merged,
    merge_with Z.gtb Z.ltb int_percent_3f int_brace_3
      (Continuous (mkContinuousRule "age" false 30 true))
      (VRule (Continuous (mkContinuousRule "age" false 25 true))) =
      (Returned (VRule (Continuous merged)), [])
    /\ inclusive merged = false.
Proof.
  apply (same_direction_merge_drops_inclusive Z.gtb Z.ltb int_percent_3f int_brace_3
           (mkContinuousRule "age" false 30 true)
           (mkContinuousRule "age" false 25 true)).
  reflexivity.
Defined.

(** An interval rule handed anything but a continuous or an interval rule
    returns [None]: no exception leaves the call. *)
Lemma interval_merge_unsupported {number} (gt lt : number -> number -> bool)
    f1 f2 (self : IntervalRule number) (rule : pyvalue number) :
  is_continuous rule = false -> is_interval rule = false ->
  merge_with gt lt f1 f2 (Interval self) rule = (Returned VNone, []).
Proof.
  intros Hc Hi. destruct rule as [[d|c|i]|]; try discriminate; reflexivity.
Qed.

(** A continuous rule handed anything but a continuous rule raises the
    [TypeError] of calling [NotImplemented]. *)
Lemma continuous_merge_unsupported {number} (gt lt : number -> number -> bool)
    f1 f2 (self : ContinuousRule number) (rule : pyvalue number) :
  is_continuous rule = false ->
  merge_with gt lt f1 f2 (Continuous self) rule =
    (Raised (TypeError "'NotImplementedType' object is not callable"), []).
Proof.
  intros Hc. destruct rule as [[d|c|i]|]; try discriminate; reflexivity.
Qed.

(** C4, at the failing input.  The interval rule 1 <= x < 3 merged with
    the discrete rule [x = a] returns [None] instead of raising, and the
    continuous rule x > 1 merged with the same discrete rule raises a
    [TypeError] about [NotImplemented] not being callable. *)
Theorem unsupported_merge_outcomes :
  forall f1 f2,
    merge_with Z.gtb Z.ltb f1 f2
      (Interval (mkIntervalRule "x" (mkContinuousRule "x" true 1 true)
                                    (mkContinuousRule "x" false 3 false)))
      (VRule (Discrete (mkDiscreteRule "x" true "a")))
    = (Returned VNone, [])
    /\
    merge_with Z.gtb Z.ltb f1 f2
      (Continuous (mkContinuousRule "x" true 1 false))
      (VRule (Discrete (mkDiscreteRule "x" true "a")))
    = (Raised (TypeError "'NotImplementedType' object is not callable"), []).
Proof. intros; split; reflexivity. Qed.

(** When the incoming object can be rendered, [DiscreteRule.merge_with]
    returns it and writes the one warning line to stderr. *)
Lemma discrete_merge_returns_argument {number}
    (gt lt : number -> number -> bool) f1 f2
    (self : DiscreteRule) (rule : pyvalue number) (line : string) :
  discrete_warning f1 f2 self rule = Returned line ->
  merge_with gt lt f1 f2 (Discrete self) rule = (Returned rule, [line]).
Proof. intros H. unfold merge_with, DiscreteRule_merge_with. now rewrite H. Qed.

(** [None], discrete rules and continuous rules can always be rendered;
    an interval rule can when ['{:.3}'] accepts both its bounds. *)
Lemma discrete_warning_defined {number} f1 f2
    (self : DiscreteRule) (rule : pyvalue number) :
  (forall i, rule = VRule (Interval i) ->
     exists l u, f2 (value (left_rule i)) = Returned l
                 /\ f2 (value (right_rule i)) = Returned u) ->
  exists line, discrete_warning f1 f2 self rule = Returned line.
Proof.
  intros H. unfold discrete_warning.
  destruct rule as [[d|c|i]|]; cbn [str bind]; eauto.
  destruct (H i eq_refl) as [l [u [Hl Hu]]].
  unfold IntervalRule_str. rewrite Hl, Hu. cbn [bind]. eauto.
Qed.

(** C9, at the failing input.  The discrete rule [x = a] merged with the
    interval rule of the class's own docstring, 1 <= Rule < 3 with [int]
    bounds, raises [ValueError] and writes nothing to stderr: building the
    warning renders the interval rule, and ['{:.3}'] takes no [int].
    With a discrete rule, a continuous rule or [None] as the argument the
    call returns the argument and writes the warning. *)
Theorem discrete_merge_raises_on_int_interval :
  merge_with Z.gtb Z.ltb int_percent_3f int_brace_3
    (Discrete (mkDiscreteRule "x" true "a"))
    (VRule (Interval (mkIntervalRule "Rule"
                        (mkContinuousRule "Rule" true 1 true)
                        (mkContinuousRule "Rule" false 3 false))))
  = (Raised (ValueError "Precision not allowed in integer format specifier"), [])
  /\
  merge_with Z.gtb Z.ltb int_percent_3f int_brace_3
    (Discrete (mkDiscreteRule "x" true "a"))
    (VRule (Discrete (mkDiscreteRule "x" false "b")))
  = (Returned (VRule (Discrete (mkDiscreteRule "x" false "b"))),
     ["WARNING: Merged two discrete rules `x = a` and `x ≠ b`"])
  /\
  merge_with Z.gtb Z.ltb int_percent_3f int_brace_3
    (Discrete (mkDiscreteRule "x" true "a"))
    (VRule (Continuous (mkContinuousRule "x" true 5 false)))
  = (Returned (VRule (Continuous (mkContinuousRule "x" true 5 false))),
     ["WARNING: Merged two discrete rules `x = a` and `x > 5.000`"]).
Proof. repeat split; vm_compute; reflexivity. Qed.

End RulesFacts.

(* ===================================================================== *)
(** * Facts about the visible-set controller *)
(* ===================================================================== *)

Module ViewerFacts.
Import Viewer.

(** ** Loops *)

Section While.

Context {St : Type} (body : St -> St + St).

Lemma while_mono fuel fuel' s r :
  while fuel body s = Some r -> (fuel <= fuel')%nat ->
  while fuel' body s = Some r.
Proof.
  revert fuel' s. induction fuel as [|fuel IH]; intros fuel' s H Hle.
  - discriminate.
  - destruct fuel' as [|fuel']; [lia|]. simpl in *.
    destruct (body s); [apply IH; [assumption | lia] | assumption].
Qed.

Lemma while_agree f1 f2 s r1 r2 :
  while f1 body s = Some r1 -> while f2 body s = Some r2 -> r1 = r2.
Proof.
  intros H1 H2.
  apply while_mono with (fuel' := Nat.max f1 f2) in H1; [|lia].
  apply while_mono with (fuel' := Nat.max f1 f2) in H2; [|lia].
  congruence.
Qed.

(** A loop whose every pass lowers a measure ends within that many passes. *)
Lemma while_terminates (mu : St -> nat) :
  (forall s s', body s = inl s' -> (mu s' < mu s)%nat) ->
  forall fuel s, (mu s < fuel)%nat -> exists r, while fuel body s = Some r.
Proof.
  intros Hdec. induction fuel as [|fuel IH]; intros s Hlt; [lia|].
  simpl. destruct (body s) as [s'|s'] eqn:E; [|eauto].
  apply IH. specialize (Hdec _ _ E). lia.
Qed.

Lemma while_invariant (P : St -> Prop) :
  (forall s s', body s = inl s' -> P s -> P s') ->
  (forall s s', body s = inr s' -> P s -> P s') ->
  forall fuel s r, while fuel body s = Some r -> P s -> P r.
Proof.
  intros Hl Hr. induction fuel as [|fuel IH]; intros s r H HP; [discriminate|].
  simpl in H. destruct (body s) as [s'|s'] eqn:E.
  - eapply IH; eauto.
  - injection H as <-. eauto.
Qed.

End While.

(** ** Deques *)

Lemma pop_snoc {A} (d : deque A) (x : A) : pop (d ++ [x]) = Some (x, d).
Proof. unfold pop. rewrite rev_app_distr. simpl. now rewrite rev_involutive. Qed.

Lemma pop_nil {A} : pop (@nil A) = None.
Proof. reflexivity. Qed.

Lemma pop_Some {A} (d d' : deque A) (x : A) : pop d = Some (x, d') -> d = d' ++ [x].
Proof.
  destruct d as [|a d0] using rev_ind; [discriminate|].
  rewrite pop_snoc. congruence.
Qed.

Lemma pop_None {A} (d : deque A) : pop d = None -> d = [].
Proof.
  destruct d as [|a d0] using rev_ind; [reflexivity|].
  rewrite pop_snoc. discriminate.
Qed.

Section ControllerFacts.

Context {Sq : Type}.
Implicit Types (n c root : TreeNode Sq) (ns F : list (TreeNode Sq)).
Implicit Types (v : PythagorasTreeViewer Sq) (s : state Sq).
Implicit Types (drawn frontier : deque (Z * TreeNode Sq)).
Implicit Types (o : gmap Z bool) (tr : list (event Sq)).
Implicit Types (ot : gmap Z bool * list (event Sq)) (e : Z * TreeNode Sq).
Implicit Types (t : option (TreeNode Sq)) (prefix suffix fr D : deque (Z * TreeNode Sq)).

(** ** Termination of the two loops *)

Lemma forest_size_app ns1 ns2 :
  forest_size (ns1 ++ ns2) = (forest_size ns1 + forest_size ns2)%nat.
Proof.
  induction ns1 as [|a ns1 IH]; [reflexivity|].
  unfold forest_size in *. simpl. rewrite IH. lia.
Qed.

Lemma size_children n : size n = S (forest_size (children n)).
Proof.
  destruct n as [l sq p cs]. reflexivity.
Qed.

Lemma shrink_body_decreases s s' :
  shrink_body s = inl s' ->
  (List.length (_drawn_nodes (fst s')) < List.length (_drawn_nodes (fst s)))%nat.
Proof.
  destruct s as [v tr]. unfold shrink_body.
  destruct (pop (_drawn_nodes v)) as [[[d n] drawn]|] eqn:E; [|discriminate].
  apply pop_Some in E. simpl.
  destruct (d <=? _); [discriminate|]. intros H.
  assert (_drawn_nodes (fst s') = drawn) as ->.
  { destruct (d =? _), (_ !! _); injection H as <-; reflexivity. }
  rewrite E, length_app. simpl. lia.
Qed.

Lemma grow_body_decreases s s' :
  grow_body s = inl s' ->
  (entries_size (_frontier (fst s')) < entries_size (_frontier (fst s)))%nat.
Proof.
  destruct s as [v tr]. unfold grow_body.
  destruct (_frontier v) as [|[d n] fr] eqn:E; [discriminate|]. simpl.
  destruct (d >? _); [discriminate|].
  assert (Nat.lt (entries_size (extend fr (map (fun c => (d + 1, c)) (children n))))
                 (entries_size ((d, n) :: fr))) as Hlt.
  { unfold entries_size, extend. rewrite map_app, forest_size_app, map_map. simpl.
    rewrite map_id. unfold forest_size at 3. simpl. fold (forest_size (map snd fr)).
    rewrite (size_children n). lia. }
  destruct (_ !! _); intros [= <-]; simpl; rewrite E; exact Hlt.
Qed.

(** [_draw_tree] returns from every state. *)
Lemma _draw_tree_total root s : exists s', _draw_tree root s = Some s'.
Proof.
  destruct s as [v tr]. unfold _draw_tree.
  destruct (_tree v); [|eauto].
  match goal with
  | |- context [while ?f shrink_body ?s0] =>
      destruct (while_terminates shrink_body
                  (fun s => List.length (_drawn_nodes (fst s)))
                  shrink_body_decreases f s0) as [[v1 tr1] ->]; [simpl; lia|]
  end.
  apply (while_terminates grow_body (fun s => entries_size (_frontier (fst s)))
           grow_body_decreases). simpl. lia.
Qed.

Lemma set_depth_limit_total depth s : exists s', set_depth_limit depth s = Some s'.
Proof.
  destruct s as [v tr]. unfold set_depth_limit. cbn [_tree].
  destruct (_tree v); [apply _draw_tree_total | eauto].
Qed.

Lemma set_depth_limits_total limits s : exists s', set_depth_limits limits s = Some s'.
Proof.
  revert s. induction limits as [|l limits IH]; intros s; simpl; [eauto|].
  destruct (set_depth_limit_total l s) as [s' ->]. apply IH.
Qed.

Lemma set_tree_total root max_depth s : exists s', set_tree root max_depth s = Some s'.
Proof.
  destruct s as [v tr]. unfold set_tree.
  match goal with
  | |- context [set_depth_limit ?d ?s0] =>
      destruct (set_depth_limit_total d s0) as [s1 ->]
  end.
  apply _draw_tree_total.
Qed.

(** ** The shrinking loop *)

Lemma shrink_pass t L prefix e fr ot :
  L < fst e ->
  shrink_body (state_of t L (prefix ++ [e]) fr ot) =
  inl (state_of t L prefix (if fst e =? L + 1 then e :: fr else fr)
         (dematerialize ot e)).
Proof.
  intros H. destruct e as [d n], ot as [o tr].
  unfold state_of, shrink_body. cbn [fst snd _drawn_nodes]. rewrite pop_snoc.
  cbn [fst snd] in *. unfold set_drawn_nodes. cbn [_depth_limit _drawn_nodes].
  destruct (Z.leb_spec d L); [lia|].
  unfold dematerialize. cbn [fst snd].
  destruct (d =? L + 1); cbn; destruct (o !! label n); reflexivity.
Qed.

Lemma shrink_suffix t L suffix : forall prefix fr ot fuel,
  Forall (fun e => L < fst e) suffix ->
  while (List.length suffix + fuel) shrink_body (state_of t L (prefix ++ suffix) fr ot) =
  while fuel shrink_body
    (state_of t L prefix (List.filter (fun e => fst e =? L + 1) suffix ++ fr)
       (fold_left dematerialize (rev suffix) ot)).
Proof.
  induction suffix as [|e suffix IH] using rev_ind; intros prefix fr ot fuel HF.
  - simpl. rewrite app_nil_r. reflexivity.
  - apply Forall_app in HF as [HF He]. inversion He as [|? ? Hd _]; subst.
    rewrite length_app. simpl.
    replace (List.length suffix + 1 + fuel)%nat
      with (S (List.length suffix + fuel)) by lia.
    rewrite app_assoc. cbn [while]. rewrite shrink_pass by assumption.
    rewrite IH by assumption.
    rewrite rev_app_distr, List.filter_app. simpl.
    destruct (fst e =? L + 1); simpl; rewrite <- ?app_assoc; reflexivity.
Qed.

Lemma shrink_stop t L prefix fr ot fuel :
  Forall (fun e => fst e <= L) prefix ->
  while (S fuel) shrink_body (state_of t L prefix fr ot) =
  Some (state_of t L prefix fr ot).
Proof.
  intros HF. cbn [while]. destruct ot as [o tr].
  unfold state_of, shrink_body. cbn [fst snd _drawn_nodes].
  destruct prefix as [|e prefix _] using rev_ind; [reflexivity|].
  rewrite pop_snoc. apply Forall_app in HF as [_ He].
  inversion He as [|? ? Hd _]; subst.
  destruct e as [d n]. cbn in *. destruct (Z.leb_spec d L); [reflexivity | lia].
Qed.

(** The shrinking loop as a whole: it cuts the drawn deque back to the
    entries within the limit, hides what it removes and hands the
    entries one level beyond the limit to the frontier. *)
Lemma shrink_loop t L prefix suffix fr ot :
  Forall (fun e => fst e <= L) prefix ->
  Forall (fun e => L < fst e) suffix ->
  while (S (List.length (prefix ++ suffix))) shrink_body
    (state_of t L (prefix ++ suffix) fr ot) =
  Some (state_of t L prefix (List.filter (fun e => fst e =? L + 1) suffix ++ fr)
          (fold_left dematerialize (rev suffix) ot)).
Proof.
  intros Hp Hs. rewrite length_app.
  replace (S (List.length prefix + List.length suffix))
    with (List.length suffix + S (List.length prefix))%nat by lia.
  rewrite shrink_suffix by assumption. apply shrink_stop. assumption.
Qed.

Lemma was_decreased_split t L o prefix suffix fr :
  Forall (fun e => fst e <= L) prefix ->
  Forall (fun e => L < fst e) suffix ->
  _depth_was_decreased (mkViewer t L o (prefix ++ suffix) fr) =
  match suffix with [] => false | _ => true end.
Proof.
  intros Hp Hs. unfold _depth_was_decreased. cbn [_drawn_nodes _depth_limit].
  destruct suffix as [|e suffix _] using rev_ind.
  - rewrite app_nil_r.
    destruct prefix as [|e prefix _] using rev_ind; [reflexivity|].
    rewrite pop_snoc. apply Forall_app in Hp as [_ He].
    inversion He as [|? ? Hd _]; subst. destruct e as [d n]. cbn in *.
    destruct (Z.gtb_spec d L); [lia | reflexivity].
  - rewrite app_assoc, pop_snoc. apply Forall_app in Hs as [_ He].
    inversion He as [|? ? Hd _]; subst. destruct e as [d n]. cbn in *.
    destruct (Z.gtb_spec d L); [|lia]. destruct suffix; reflexivity.
Qed.

(** ** The growing loop *)

Lemma grow_pass t L D e fr ot :
  fst e <= L ->
  grow_body (state_of t L D (e :: fr) ot) =
  inl (state_of t L (D ++ [e]) (fr ++ tag (fst e + 1) (children (snd e)))
         (materialize ot e)).
Proof.
  intros H. destruct e as [d n], ot as [o tr].
  unfold state_of, grow_body. cbn in *.
  destruct (Z.gtb_spec d L); [lia|].
  unfold materialize. cbn. destruct (o !! label n); reflexivity.
Qed.

Lemma grow_stop t L D fr ot fuel :
  Forall (fun e => L < fst e) fr ->
  while (S fuel) grow_body (state_of t L D fr ot) = Some (state_of t L D fr ot).
Proof.
  intros HF. cbn [while]. destruct ot as [o tr]. unfold state_of, grow_body. cbn.
  destruct fr as [|[d n] fr]; [reflexivity|].
  inversion HF as [|? ? Hd _]; subst. cbn in *.
  destruct (Z.gtb_spec d L); [reflexivity | lia].
Qed.

(** One level of the frontier, all of it within the limit, moves to the
    drawn deque and leaves its children at the back of the frontier. *)
Lemma grow_level t L d : d <= L -> forall xs rest D ot fuel,
  while (List.length xs + fuel) grow_body (state_of t L D (tag d xs ++ rest) ot) =
  while fuel grow_body
    (state_of t L (D ++ tag d xs) (rest ++ tag (d + 1) (flat_map children xs))
       (fold_left materialize (tag d xs) ot)).
Proof.
  intros Hd. induction xs as [|x xs IH]; intros rest D ot fuel.
  - simpl. rewrite !app_nil_r. reflexivity.
  - cbn [List.length Nat.add while tag map app].
    rewrite grow_pass by (simpl; lia). cbn [fst snd].
    change (map (fun n => (d, n)) xs) with (tag d xs).
    rewrite <- app_assoc, IH. cbn [fold_left flat_map].
    unfold tag. rewrite map_app, <- !app_assoc. reflexivity.
Qed.

(** From a frontier that holds level [d], the loop draws the levels up
    to the limit and stops with the level beyond it in the frontier. *)
Lemma grow_levels t L F : forall k d D ot,
  Z.of_nat d + Z.of_nat k = L + 1 ->
  exists steps, forall fuel,
    while (steps + S fuel) grow_body
      (state_of t L D (tag (Z.of_nat d) (level d F)) ot) =
    Some (state_of t L (D ++ levels_from d k F)
            (tag (L + 1) (level (d + k) F))
            (fold_left materialize (levels_from d k F) ot)).
Proof.
  induction k as [|k IH]; intros d D ot Hk.
  - exists O. intros fuel. simpl. rewrite app_nil_r, Nat.add_0_r.
    replace (L + 1) with (Z.of_nat d) by lia.
    apply grow_stop. unfold tag. apply Forall_map, Forall_forall. simpl. lia.
  - assert (Z.of_nat d <= L) as Hd by lia.
    destruct (IH (S d) (D ++ tag (Z.of_nat d) (level d F))
                (fold_left materialize (tag (Z.of_nat d) (level d F)) ot))
      as [steps Hsteps]; [lia|].
    exists (List.length (level d F) + steps)%nat. intros fuel.
    rewrite <- Nat.add_assoc.
    rewrite <- (app_nil_r (tag (Z.of_nat d) (level d F))) at 1.
    rewrite (grow_level t L _ Hd). simpl app.
    replace (Z.of_nat d + 1) with (Z.of_nat (S d)) by lia.
    change (flat_map children (level d F)) with (level (S d) F).
    rewrite Hsteps. cbn [levels_from]. rewrite fold_left_app, <- app_assoc.
    replace (S d + k)%nat with (d + S k)%nat by lia. reflexivity.
Qed.

(** The growing loop with the fuel [_draw_tree] gives it. *)
Lemma grow_loop_exact s r :
  (exists steps, forall fuel, while (steps + S fuel) grow_body s = Some r) ->
  while (S (entries_size (_frontier (fst s)))) grow_body s = Some r.
Proof.
  intros [steps Hsteps].
  destruct (while_terminates grow_body (fun s => entries_size (_frontier (fst s)))
              grow_body_decreases (S (entries_size (_frontier (fst s)))) s)
    as [r0 Hr0]; [lia|].
  rewrite Hr0. f_equal. eapply while_agree; [exact Hr0 | exact (Hsteps O)].
Qed.

(** ** Levels *)

Lemma level_app d F1 F2 : level d (F1 ++ F2) = level d F1 ++ level d F2.
Proof.
  induction d as [|d IH]; simpl; [reflexivity|].
  rewrite IH. apply flat_map_app.
Qed.

Lemma level_nil d : level d (@nil (TreeNode Sq)) = [].
Proof. induction d as [|d IH]; simpl; [reflexivity|]. now rewrite IH. Qed.

Lemma level_repeat_S d root m :
  level d (repeat root (S m)) = level d [root] ++ level d (repeat root m).
Proof. exact (level_app d [root] (repeat root m)). Qed.

Lemma In_level_repeat d root m n :
  In n (level d (repeat root m)) <-> (1 <= m)%nat /\ In n (level d [root]).
Proof.
  induction m as [|m IH].
  - simpl. rewrite level_nil. simpl. split; [tauto | lia].
  - rewrite level_repeat_S, in_app_iff, IH. split; [|tauto].
    intros [H|[_ H]]; (split; [lia | exact H]).
Qed.

(** Below an empty level every level is empty. *)
Lemma level_empty_later d j F : level d F = [] -> level (d + j) F = [].
Proof.
  intros H. induction j as [|j IH].
  - now rewrite Nat.add_0_r.
  - rewrite Nat.add_succ_r. simpl. now rewrite IH.
Qed.

Lemma levels_from_app d a b F :
  levels_from d (a + b) F = levels_from d a F ++ levels_from (d + a) b F.
Proof.
  revert d. induction a as [|a IH]; intros d; simpl.
  - now rewrite Nat.add_0_r.
  - rewrite IH, <- app_assoc. now rewrite Nat.add_succ_r.
Qed.

Lemma levels_below_from k F : levels_below k F = levels_from 0 k F.
Proof.
  induction k as [|k IH]; [reflexivity|].
  simpl levels_below. rewrite IH.
  replace (S k) with (k + 1)%nat by lia.
  rewrite levels_from_app. simpl. now rewrite app_nil_r.
Qed.

Lemma levels_below_app a b F :
  levels_below (a + b) F = levels_below a F ++ levels_from a b F.
Proof. rewrite !levels_below_from. apply levels_from_app. Qed.

Lemma In_tag z d ns n : In (z, n) (tag d ns) <-> z = d /\ In n ns.
Proof.
  unfold tag. rewrite in_map_iff. split.
  - intros [n' [[= <- <-] H]]. tauto.
  - intros [-> H]. eauto.
Qed.

Lemma In_levels_from z n d k F :
  In (z, n) (levels_from d k F) <->
  exists j, (d <= j < d + k)%nat /\ z = Z.of_nat j /\ In n (level j F).
Proof.
  revert d. induction k as [|k IH]; intros d; simpl.
  - split; [tauto | intros [j [Hj _]]; lia].
  - rewrite in_app_iff, In_tag, IH. split.
    + intros [[-> H]|[j [Hj [-> H]]]]; [exists d | exists j]; (split; [lia | tauto]).
    + intros [j [Hj [-> H]]].
      destruct (Nat.eq_dec j d) as [->|Hne]; [left; tauto|].
      right. exists j. split; [lia | tauto].
Qed.

Lemma In_levels_below z n k F :
  In (z, n) (levels_below k F) <->
  exists j, (j < k)%nat /\ z = Z.of_nat j /\ In n (level j F).
Proof.
  rewrite levels_below_from, In_levels_from. split.
  - intros [j [Hj H]]. exists j. split; [lia | exact H].
  - intros [j [Hj H]]. exists j. split; [lia | exact H].
Qed.

Lemma levels_from_depths d k F :
  Forall (fun e => Z.of_nat d <= fst e < Z.of_nat (d + k)) (levels_from d k F).
Proof.
  apply Forall_forall. intros [z n] H.
  apply list_elem_of_In, In_levels_from in H as [j [Hj [-> _]]]. simpl. lia.
Qed.

(** Several copies of the tree hold the same entries as one. *)
Lemma In_levels_below_repeat z n k root m :
  In (z, n) (levels_below k (repeat root m)) <->
  (1 <= m)%nat /\ In (z, n) (levels_below k [root]).
Proof.
  rewrite !In_levels_below. split.
  - intros [j [Hj [-> H]]]. apply In_level_repeat in H as [Hm H]. eauto 6.
  - intros [Hm [j [Hj [-> H]]]]. exists j. rewrite In_level_repeat. eauto.
Qed.

Lemma filter_tag_same z ns :
  List.filter (fun e : Z * TreeNode Sq => fst e =? z) (tag z ns) = tag z ns.
Proof.
  induction ns as [|n ns IH]; simpl; [reflexivity|].
  rewrite Z.eqb_refl. f_equal. exact IH.
Qed.

Lemma filter_none z (l : list (Z * TreeNode Sq)) :
  Forall (fun e => fst e <> z) l ->
  List.filter (fun e : Z * TreeNode Sq => fst e =? z) l = [].
Proof.
  induction 1 as [|e l He _ IH]; simpl; [reflexivity|].
  destruct (Z.eqb_spec (fst e) z); [contradiction | exact IH].
Qed.

(** Of the levels from [d] on, the entries at depth [d] are level [d]. *)
Lemma filter_levels_from d k F :
  List.filter (fun e : Z * TreeNode Sq => fst e =? Z.of_nat d) (levels_from d (S k) F)
  = tag (Z.of_nat d) (level d F).
Proof.
  simpl. rewrite List.filter_app, filter_tag_same, filter_none, app_nil_r; [reflexivity|].
  eapply Forall_impl; [apply levels_from_depths|]. simpl. intros e He. lia.
Qed.

(** ** One call of [_draw_tree] *)

(** Nothing drawn yet: the root is seeded and the growing loop runs. *)
Lemma _draw_tree_first root c0 L o fr tr :
  _draw_tree root (mkViewer (Some c0) L o [] fr, tr) =
  while (S (entries_size ((0, root) :: fr))) grow_body
    (state_of (Some c0) L [] ((0, root) :: fr) (o, tr)).
Proof. reflexivity. Qed.

(** Something drawn: the entries beyond the limit are removed, and when
    there were any, the frontier is replaced by those one level beyond
    the limit; then the growing loop runs. *)
Lemma _draw_tree_next root c0 L o tr prefix suffix fr :
  prefix ++ suffix <> [] ->
  Forall (fun e => fst e <= L) prefix ->
  Forall (fun e => L < fst e) suffix ->
  _draw_tree root (mkViewer (Some c0) L o (prefix ++ suffix) fr, tr) =
  let fr1 := List.filter (fun e => fst e =? L + 1) suffix
               ++ match suffix with [] => fr | _ => [] end in
  while (S (entries_size fr1)) grow_body
    (state_of (Some c0) L prefix fr1 (fold_left dematerialize (rev suffix) (o, tr))).
Proof.
  intros Hne Hp Hs. unfold _draw_tree. cbn [_tree _drawn_nodes].
  destruct (prefix ++ suffix) as [|e0 l0] eqn:E; [contradiction|].
  cbv beta iota. rewrite <- E.
  rewrite (was_decreased_split _ _ _ _ _ _ Hp Hs).
  destruct suffix as [|e suffix].
  - change (mkViewer (Some c0) L o (prefix ++ []) fr, tr)
      with (state_of (Some c0) L (prefix ++ []) fr (o, tr)).
    rewrite (shrink_loop _ _ _ _ _ _ Hp Hs). reflexivity.
  - change (set_frontier [] (mkViewer (Some c0) L o (prefix ++ e :: suffix) fr), tr)
      with (state_of (Some c0) L (prefix ++ e :: suffix) [] (o, tr)).
    cbn [_drawn_nodes set_frontier].
    rewrite (shrink_loop _ _ _ _ _ _ Hp Hs). reflexivity.
Qed.

Lemma set_depth_limit_unfold root L0 L o D fr tr :
  set_depth_limit L (mkViewer (Some root) L0 o D fr, tr) =
  _draw_tree root (mkViewer (Some root) L o D fr, tr).
Proof. reflexivity. Qed.

Lemma levels_below_depths k F :
  Forall (fun e => 0 <= fst e < Z.of_nat k) (levels_below k F).
Proof.
  rewrite levels_below_from. eapply Forall_impl; [apply levels_from_depths|].
  simpl. intros e He. lia.
Qed.

Lemma tag_depths (P : Z -> Prop) z ns :
  P z -> Forall (fun e => P (fst e)) (tag z ns).
Proof. intros H. induction ns; constructor; assumption. Qed.

Lemma tag_nil_inv z ns : tag z ns = [] -> ns = [].
Proof. destruct ns; [reflexivity | discriminate]. Qed.

(** Nothing is drawn (the limit was negative): the root is seeded once
    more, and a limit that is not negative draws the levels from the
    top. *)
Lemma redraw_first root v tr L' :
  consistent root v -> _depth_limit v < 0 ->
  exists s', set_depth_limit L' (v, tr) = Some s' /\ redrawn root L' v tr s'.
Proof.
  intros [Ht [m [Hm [Hd Hf]]]] HL. destruct v as [t L o D fr].
  cbn in Ht, Hm, Hd, Hf, HL. subst t.
  replace (Z.to_nat (L + 1)) with O in * by lia.
  replace (Z.max 0 (L + 1)) with 0 in * by lia. cbn in Hd, Hf. subst D fr.
  rewrite set_depth_limit_unfold, _draw_tree_first.
  change ((0, root) :: tag 0 (repeat root m))
    with (tag (Z.of_nat 0) (level 0 (repeat root (S m)))).
  destruct (Z.ltb_spec L' 0) as [Hneg|Hpos].
  - eexists. split.
    + apply grow_stop.
      apply (tag_depths (fun z => L' < z) 0 (repeat root (S m))). lia.
    + exists (S m), [], [], []. cbn [app rev fold_left _square_objects _drawn_nodes].
      replace (Z.to_nat (L' + 1)) with O by lia.
      replace (Z.max 0 (L' + 1)) with 0 by lia.
      repeat split; auto. lia.
  - eexists. split.
    + apply grow_loop_exact.
      apply (grow_levels (Some root) L' (repeat root (S m)) (Z.to_nat (L' + 1)) O).
      lia.
    + exists (S m), [], [], (levels_below (Z.to_nat (L' + 1)) (repeat root (S m))).
      cbn [app rev fold_left _square_objects _drawn_nodes Nat.add].
      replace (Z.max 0 (L' + 1)) with (L' + 1) by lia.
      rewrite <- levels_below_from.
      repeat split; auto. lia.
Qed.

Lemma drawn_nonempty root m k :
  (1 <= m)%nat -> (1 <= k)%nat -> levels_below k (repeat root m) <> [].
Proof.
  intros Hm Hk H.
  assert (In (0, root) (levels_below k (repeat root m))) as Hin.
  { apply In_levels_below. exists O. split; [lia|]. split; [reflexivity|].
    destruct m; [lia|]. left. reflexivity. }
  rewrite H in Hin. contradiction.
Qed.

(** The limit does not decrease: nothing is removed, and the growing
    loop draws the levels between the old limit and the new one. *)
Lemma redraw_raise root v tr L' :
  consistent root v -> 0 <= _depth_limit v <= L' ->
  exists s', set_depth_limit L' (v, tr) = Some s' /\ redrawn root L' v tr s'.
Proof.
  intros [Ht [m [Hm [Hd Hf]]]] HL. destruct v as [t L o D fr].
  cbn in Ht, Hm, Hd, Hf, HL. subst t.
  replace (Z.max 0 (L + 1)) with (L + 1) in Hf by lia.
  set (F := repeat root m) in *.
  set (j := Z.to_nat (L + 1)) in *.
  set (k := (Z.to_nat (L' + 1) - j)%nat).
  assert (Forall (fun e => fst e <= L') D) as Hp.
  { rewrite Hd. eapply Forall_impl; [apply levels_below_depths|].
    simpl. intros e He. lia. }
  rewrite set_depth_limit_unfold, <- (app_nil_r D).
  rewrite (_draw_tree_next root root L' o tr D [] fr); [| | exact Hp | constructor].
  2:{ rewrite app_nil_r, Hd. apply drawn_nonempty; lia. }
  cbn [List.filter app rev fold_left]. cbv zeta.
  rewrite Hf. replace (L + 1) with (Z.of_nat j) by lia.
  eexists. split.
  - apply grow_loop_exact. apply (grow_levels (Some root) L' F k j). lia.
  - exists m, D, [], (levels_from j k F).
    cbn [rev fold_left _square_objects _drawn_nodes].
    replace (Z.max 0 (L' + 1)) with (L' + 1) by lia.
    replace (Z.to_nat (L' + 1)) with (j + k)%nat by lia.
    change (repeat root m) with F.
    rewrite levels_below_app, <- Hd, app_nil_r.
    repeat split; auto. lia.
Qed.

(** The limit decreases below a limit that was not negative: the levels
    beyond the new limit are removed and nothing is added. *)
Lemma redraw_lower root v tr L' :
  consistent root v -> 0 <= _depth_limit v -> L' < _depth_limit v ->
  exists s', set_depth_limit L' (v, tr) = Some s' /\ redrawn root L' v tr s'.
Proof.
  intros [Ht [m [Hm [Hd Hf]]]] HL HL'. destruct v as [t L o D fr].
  cbn in Ht, Hm, Hd, Hf, HL, HL'. subst t.
  replace (Z.max 0 (L + 1)) with (L + 1) in Hf by lia.
  set (F := repeat root m) in *.
  set (j := Z.to_nat (L' + 1)).
  assert (exists k, Z.to_nat (L + 1) = (j + S k)%nat) as [k Hk].
  { exists (Z.to_nat (L + 1) - j - 1)%nat. lia. }
  rewrite Hk in Hd, Hf. rewrite levels_below_app in Hd.
  assert (Forall (fun e => fst e <= L') (levels_below j F)) as Hp.
  { eapply Forall_impl; [apply levels_below_depths|]. simpl. intros e He. lia. }
  assert (Forall (fun e => L' < fst e) (levels_from j (S k) F)) as Hs.
  { eapply Forall_impl; [apply levels_from_depths|]. simpl. intros e He. lia. }
  assert (levels_below j F ++ levels_from j (S k) F <> []) as Hne.
  { rewrite <- levels_below_app. apply drawn_nonempty; lia. }
  rewrite set_depth_limit_unfold, Hd.
  rewrite (_draw_tree_next root root L' o tr _ _ fr Hne Hp Hs). cbv zeta.
  destruct (Z.le_gt_cases (-1) L') as [Hge|Hlt].
  - replace (L' + 1) with (Z.of_nat j) by lia. rewrite filter_levels_from.
    assert (levels_from j (S k) F = [] -> fr = []) as Htail.
    { intros E. simpl in E. apply app_eq_nil in E as [E _]. apply tag_nil_inv in E.
      rewrite Hf, (level_empty_later j (S k) F E). reflexivity. }
    destruct (levels_from j (S k) F) as [|e0 l0] eqn:E.
    + rewrite (Htail eq_refl). cbv iota. rewrite app_nil_r. eexists. split.
      * apply grow_stop. apply (tag_depths (fun z => L' < z)). lia.
      * exists m, (levels_below j F), [], [].
        cbn [fold_left _square_objects _drawn_nodes].
        replace (Z.max 0 (L' + 1)) with (Z.of_nat j) by lia.
        change (repeat root m) with F.
        rewrite app_nil_r. fold j. repeat split; auto. lia.
    + cbv iota. rewrite <- E. rewrite app_nil_r. eexists. split.
      * apply grow_stop. apply (tag_depths (fun z => L' < z)). lia.
      * exists m, (levels_below j F), (levels_from j (S k) F), [].
        cbn [fold_left _square_objects _drawn_nodes].
        replace (Z.max 0 (L' + 1)) with (Z.of_nat j) by lia.
        change (repeat root m) with F.
        rewrite app_nil_r. fold j. rewrite E.
        repeat split; auto. lia.
  - rewrite filter_none.
    2:{ eapply Forall_impl; [apply levels_from_depths|]. simpl. intros e He. lia. }
    destruct (levels_from j (S k) F) as [|e0 l0] eqn:E.
    { exfalso. apply Hne. rewrite app_nil_r.
      replace j with O by lia. reflexivity. }
    cbv iota. eexists. split.
    + apply grow_stop. constructor.
    + exists O, (levels_below j F), (e0 :: l0), [].
      cbn [fold_left _square_objects _drawn_nodes repeat].
      replace (Z.to_nat (L' + 1)) with O by lia.
      replace j with O by lia. cbn [levels_below level app].
      unfold tag. cbn [map].
      repeat split; auto. lia.
Qed.

(** Every call of [set_depth_limit] on a consistent viewer returns, and
    with a viewer that is consistent again. *)
Lemma set_depth_limit_redrawn root v tr L' :
  consistent root v ->
  exists s', set_depth_limit L' (v, tr) = Some s' /\ redrawn root L' v tr s'.
Proof.
  intros Hc. destruct (Z.lt_ge_cases (_depth_limit v) 0).
  - apply redraw_first; assumption.
  - destruct (Z.le_gt_cases (_depth_limit v) L').
    + apply redraw_raise; [assumption | lia].
    + apply redraw_lower; [assumption | lia | lia].
Qed.

Lemma redrawn_consistent root L' v tr s' :
  redrawn root L' v tr s' -> consistent root (fst s') /\ _depth_limit (fst s') = L'.
Proof.
  intros [m [kept [removed [added [_ [_ [_ [Hk [Hm ->]]]]]]]]].
  cbn. split; [|reflexivity]. split; [reflexivity|]. exists m. auto.
Qed.

(** ** The table and the trace under [materialize] and [dematerialize] *)

Lemma materialize_fst ot e :
  fst (materialize ot e) = <[label (snd e) := true]> (fst ot).
Proof. unfold materialize. destruct (fst ot !! label (snd e)); reflexivity. Qed.

Lemma dematerialize_lookup ot e l :
  fst (dematerialize ot e) !! l =
  if decide (label (snd e) = l)
  then match fst ot !! l with Some _ => Some false | None => None end
  else fst ot !! l.
Proof.
  unfold dematerialize. destruct (decide (label (snd e) = l)) as [<-|Hne].
  - destruct (fst ot !! label (snd e)) eqn:E; simpl; [apply lookup_insert_eq | exact E].
  - destruct (fst ot !! label (snd e)); simpl; [apply lookup_insert_ne; exact Hne | reflexivity].
Qed.

Lemma fold_materialize_in xs : forall ot e,
  In e xs -> fst (fold_left materialize xs ot) !! label (snd e) = Some true.
Proof.
  induction xs as [|x xs IH] using rev_ind; intros ot e H; [contradiction|].
  rewrite fold_left_app. simpl. rewrite materialize_fst.
  destruct (decide (label (snd x) = label (snd e))) as [->|Hne].
  - apply lookup_insert_eq.
  - rewrite lookup_insert_ne by exact Hne.
    apply in_app_iff in H as [H|[->|[]]]; [apply IH; exact H | congruence].
Qed.

Lemma fold_materialize_other xs : forall ot l,
  (forall e, In e xs -> label (snd e) <> l) ->
  fst (fold_left materialize xs ot) !! l = fst ot !! l.
Proof.
  induction xs as [|x xs IH]; intros ot l H; [reflexivity|].
  simpl. rewrite IH by (intros e He; apply H; right; exact He).
  rewrite materialize_fst. apply lookup_insert_ne. apply H. left. reflexivity.
Qed.

Lemma fold_materialize_keeps xs : forall ot l,
  is_Some (fst ot !! l) -> is_Some (fst (fold_left materialize xs ot) !! l).
Proof.
  induction xs as [|x xs IH]; intros ot l H; [exact H|].
  simpl. apply IH. rewrite materialize_fst.
  destruct (decide (label (snd x) = l)) as [->|Hne].
  - rewrite lookup_insert_eq. eauto.
  - rewrite lookup_insert_ne by exact Hne. exact H.
Qed.

Lemma fold_dematerialize_other xs : forall ot l,
  (forall e, In e xs -> label (snd e) <> l) ->
  fst (fold_left dematerialize xs ot) !! l = fst ot !! l.
Proof.
  induction xs as [|x xs IH]; intros ot l H; [reflexivity|].
  simpl. rewrite IH by (intros e He; apply H; right; exact He).
  rewrite dematerialize_lookup.
  destruct (decide (label (snd x) = l)) as [Heq|]; [|reflexivity].
  exfalso. apply (H x); [left; reflexivity | exact Heq].
Qed.

Lemma fold_dematerialize_keeps xs : forall ot l,
  is_Some (fst ot !! l) -> is_Some (fst (fold_left dematerialize xs ot) !! l).
Proof.
  induction xs as [|x xs IH]; intros ot l H; [exact H|].
  simpl. apply IH. rewrite dematerialize_lookup.
  destruct (decide (label (snd x) = l)); [|exact H].
  destruct H as [b ->]. eauto.
Qed.

(** An item still shown after entries were removed was shown before
    and is the item of none of them. *)
Lemma fold_dematerialize_shown xs : forall ot l,
  fst (fold_left dematerialize xs ot) !! l = Some true ->
  fst ot !! l = Some true /\ forall e, In e xs -> label (snd e) <> l.
Proof.
  induction xs as [|x xs IH]; intros ot l H; [split; [exact H | contradiction]|].
  simpl in H. apply IH in H as [H Hxs]. rewrite dematerialize_lookup in H.
  destruct (decide (label (snd x) = l)) as [Heq|Hne].
  - destruct (fst ot !! l); discriminate.
  - split; [exact H|]. intros e [<-|He]; [exact Hne | apply Hxs; exact He].
Qed.

Lemma fold_dematerialize_trace xs : forall ot,
  (forall e, In e xs -> is_Some (fst ot !! label (snd e))) ->
  snd (fold_left dematerialize xs ot) =
  snd ot ++ map (fun e => Hide (label (snd e))) xs.
Proof.
  induction xs as [|x xs IH]; intros ot H; simpl; [now rewrite app_nil_r|].
  rewrite IH.
  - unfold dematerialize at 1.
    destruct (H x (or_introl eq_refl)) as [b ->]. simpl.
    now rewrite <- app_assoc.
  - intros e He. rewrite dematerialize_lookup.
    destruct (decide _) as [Heq|]; [|apply H; right; exact He].
    rewrite <- Heq. destruct (H x (or_introl eq_refl)) as [b ->]. eauto.
Qed.

Lemma fold_materialize_trace xs : forall ot,
  exists evs, snd (fold_left materialize xs ot) = snd ot ++ evs
              /\ shows_or_creates xs evs.
Proof.
  induction xs as [|x xs IH]; intros ot; simpl.
  - exists []. split; [now rewrite app_nil_r | constructor].
  - destruct (IH (materialize ot x)) as [evs [-> Hevs]].
    unfold materialize at 1. destruct (fst ot !! label (snd x)); simpl.
    + exists (Show (label (snd x)) :: evs). rewrite <- app_assoc.
      split; [reflexivity | constructor; auto].
    + exists (Create (snd x) (fst x) :: evs). rewrite <- app_assoc.
      split; [reflexivity | constructor; auto].
Qed.

Lemma filter_snoc {A} (p : A -> bool) (l : list A) (a : A) :
  List.filter p (l ++ [a]) = List.filter p l ++ (if p a then [a] else []).
Proof. rewrite List.filter_app. reflexivity. Qed.

Lemma materialize_creates_once ot e : creates_once ot -> creates_once (materialize ot e).
Proof.
  intros H l. specialize (H l). unfold materialize.
  destruct (fst ot !! label (snd e)) eqn:E; cbn [fst snd]; rewrite filter_snoc.
  - cbn [creates]. rewrite app_nil_r, H.
    destruct (decide (label (snd e) = l)) as [<-|Hne].
    + rewrite lookup_insert_eq, E. reflexivity.
    + rewrite lookup_insert_ne by exact Hne. reflexivity.
  - cbn [creates]. rewrite length_app, H.
    destruct (Z.eqb_spec (label (snd e)) l) as [<-|Hne].
    + rewrite lookup_insert_eq, E. reflexivity.
    + rewrite lookup_insert_ne by exact Hne. simpl. lia.
Qed.

Lemma dematerialize_creates_once ot e :
  creates_once ot -> creates_once (dematerialize ot e).
Proof.
  intros H l. specialize (H l). unfold dematerialize.
  destruct (fst ot !! label (snd e)) eqn:E; cbn [fst snd]; [|exact H].
  rewrite filter_snoc. cbn [creates]. rewrite app_nil_r, H.
  destruct (decide (label (snd e) = l)) as [<-|Hne].
  - rewrite lookup_insert_eq, E. reflexivity.
  - rewrite lookup_insert_ne by exact Hne. reflexivity.
Qed.

Lemma fold_creates_once (f : _ -> Z * TreeNode Sq -> _) xs :
  (forall ot e, creates_once ot -> creates_once (f ot e)) ->
  forall ot, creates_once ot -> creates_once (fold_left f xs ot).
Proof.
  intros Hf. induction xs as [|x xs IH]; intros ot H; simpl; auto.
Qed.

(** ** The invariant of the viewer *)

Lemma NoDup_map_inj {A B} (f : A -> B) (l : list A) a b :
  NoDup (map f l) -> In a l -> In b l -> f a = f b -> a = b.
Proof.
  induction l as [|x l IH]; simpl; intros Hnd Ha Hb Hf; [contradiction|].
  inversion Hnd as [|? ? Hnotin Hnd']; subst.
  rewrite list_elem_of_In in Hnotin.
  destruct Ha as [->|Ha], Hb as [->|Hb].
  - reflexivity.
  - exfalso. apply Hnotin. rewrite Hf. apply in_map. exact Hb.
  - exfalso. apply Hnotin. rewrite <- Hf. apply in_map. exact Ha.
  - apply IH; assumption.
Qed.

(** With unique labels, entries of the tree at different depths carry
    different labels. *)
Lemma labels_separate root m k e1 e2 :
  unique_labels root ->
  In e1 (levels_below k (repeat root m)) ->
  In e2 (levels_below k (repeat root m)) ->
  label (snd e1) = label (snd e2) -> fst e1 = fst e2.
Proof.
  intros Hu H1 H2 Hl. destruct e1 as [z1 n1], e2 as [z2 n2].
  apply In_levels_below_repeat in H1 as [_ H1].
  apply In_levels_below_repeat in H2 as [_ H2].
  assert ((z1, n1) = (z2, n2)) as [= -> ->]; [|reflexivity].
  exact (NoDup_map_inj (fun e => label (snd e)) _ _ _ (Hu k) H1 H2 Hl).
Qed.

Lemma redrawn_good root L' v tr s' :
  good root v -> redrawn root L' v tr s' -> good root (fst s').
Proof.
  intros [Hc [[H1 H2] H3]] Hr.
  destruct (redrawn_consistent _ _ _ _ _ Hr) as [Hc' _].
  destruct Hr as [m' [kept [removed [added [Hd [Hk [Hrm [Hka [Hm' ->]]]]]]]]].
  split; [exact Hc'|]. unfold handles_follow, drawn_visible, visible.
  cbn [fst snd state_of _drawn_nodes _square_objects].
  set (ot1 := fold_left dematerialize (rev removed) (_square_objects v, tr)).
  assert (forall e, In e kept -> In e (_drawn_nodes v)) as Hkept.
  { intros e He. rewrite Hd. apply in_app_iff. left. exact He. }
  split; [split|].
  - intros e He. apply in_app_iff in He as [He|He].
    + apply fold_materialize_keeps, fold_dematerialize_keeps. cbn [fst]. auto.
    + rewrite (fold_materialize_in _ _ _ He). eauto.
  - intros l Hl.
    destruct (in_dec Z.eq_dec l (map (fun e => label (snd e)) added)) as [Hin|Hout].
    + apply in_map_iff in Hin as [e [<- He]]. exists e.
      split; [apply in_app_iff; right; exact He | reflexivity].
    + rewrite fold_materialize_other in Hl.
      2:{ intros e He Heq. apply Hout. apply in_map_iff. eauto. }
      apply fold_dematerialize_shown in Hl as [Hl Hrem]. cbn [fst] in Hl.
      destruct (H2 l Hl) as [e [He Hel]]. exists e. split; [|exact Hel].
      rewrite Hd in He. apply in_app_iff in He as [He|He];
        [apply in_app_iff; left; exact He|].
      exfalso. apply (Hrem e); [apply in_rev in He; exact He | exact Hel].
  - intros Hu e He.
    destruct (in_dec Z.eq_dec (label (snd e)) (map (fun e => label (snd e)) added))
      as [Hin|Hout].
    + apply in_map_iff in Hin as [e' [<- He']]. apply fold_materialize_in. exact He'.
    + apply in_app_iff in He as [He|He].
      2:{ exfalso. apply Hout.
          apply (in_map (fun e => label (snd e))). exact He. }
      rewrite fold_materialize_other.
      2:{ intros e' He' Heq. apply Hout. rewrite <- Heq.
          apply (in_map (fun e => label (snd e))). exact He'. }
      unfold ot1. rewrite fold_dematerialize_other; [apply (H3 Hu), Hkept, He|].
      intros e' He' Heq. apply in_rev in He'.
      destruct Hc as [_ [m [_ [Hdm _]]]].
      assert (fst e' = fst e) as Hfst.
      { apply (labels_separate root m (Z.to_nat (_depth_limit v + 1))); auto.
        - rewrite <- Hdm, Hd. apply in_app_iff. right. exact He'.
        - rewrite <- Hdm. apply Hkept, He. }
      rewrite Forall_forall in Hk, Hrm.
      specialize (Hk e (proj2 (list_elem_of_In _ _) He)).
      specialize (Hrm e' (proj2 (list_elem_of_In _ _) He')).
      simpl in Hk, Hrm. lia.
Qed.

Lemma redrawn_creates_once root L' v tr s' :
  redrawn root L' v tr s' ->
  creates_once (_square_objects v, tr) ->
  creates_once (_square_objects (fst s'), snd s').
Proof.
  intros [m' [kept [removed [added [_ [_ [_ [_ [_ ->]]]]]]]]] H.
  cbn [fst snd state_of _square_objects].
  rewrite <- surjective_pairing.
  apply fold_creates_once; [apply materialize_creates_once|].
  apply fold_creates_once; [apply dematerialize_creates_once | exact H].
Qed.

(** What a call adds to the trace: a hide for every entry it removes,
    then a show or a create for every entry it adds. *)
Lemma redrawn_events root L' v tr s' :
  good root v -> redrawn root L' v tr s' ->
  exists kept removed added evs,
    _drawn_nodes v = kept ++ removed /\
    _drawn_nodes (fst s') = kept ++ added /\
    snd s' = tr ++ hides removed ++ evs /\
    shows_or_creates added evs.
Proof.
  intros [_ [[H1 _] _]] [m' [kept [removed [added [Hd [_ [_ [_ [_ ->]]]]]]]]].
  exists kept, removed, added. cbn [fst snd state_of _drawn_nodes].
  destruct (fold_materialize_trace added
              (fold_left dematerialize (rev removed) (_square_objects v, tr)))
    as [evs [-> Hevs]].
  exists evs. rewrite fold_dematerialize_trace.
  - cbn [snd]. unfold hides. rewrite <- app_assoc. auto.
  - intros e He. cbn [fst]. apply H1. rewrite Hd. apply in_app_iff. right.
    apply in_rev. exact He.
Qed.

Lemma set_depth_limit_good root s L' :
  good root (fst s) ->
  exists s', set_depth_limit L' s = Some s'
             /\ redrawn root L' (fst s) (snd s) s'
             /\ good root (fst s') /\ _depth_limit (fst s') = L'.
Proof.
  intros Hg. destruct s as [v tr]. cbn [fst snd] in *.
  destruct (set_depth_limit_redrawn root v tr L' (proj1 Hg)) as [s' [Hs' Hr]].
  exists s'. split; [exact Hs'|]. split; [exact Hr|].
  split; [exact (redrawn_good _ _ _ _ _ Hg Hr) | apply (redrawn_consistent _ _ _ _ _ Hr)].
Qed.

Lemma set_tree_unfold root md v0 tr0 :
  set_tree root md (v0, tr0) =
  match set_depth_limit md (mkViewer (Some root) (-2) ∅ [] [], tr0) with
  | None => None
  | Some s => _draw_tree root s
  end.
Proof. reflexivity. Qed.

(** [set_tree] amounts to two calls of [set_depth_limit] with the
    adapter's depth on a cleared viewer. *)
Lemma set_tree_good root md v0 tr0 :
  exists s', set_tree root md (v0, tr0) = Some s'
             /\ good root (fst s') /\ _depth_limit (fst s') = md
             /\ (creates_once (∅, tr0) -> creates_once (_square_objects (fst s'), snd s')).
Proof.
  set (v1 := mkViewer (Some root) (-2) ∅ [] [] : PythagorasTreeViewer Sq).
  assert (good root v1) as Hg1.
  { split; [|split; [split|]].
    - split; [reflexivity|]. exists O. cbn. split; [lia | auto].
    - intros e [].
    - intros l Hl. unfold visible in Hl. cbn in Hl. rewrite lookup_empty in Hl.
      discriminate.
    - intros _ e []. }
  destruct (set_depth_limit_good root (v1, tr0) md Hg1) as [[v2 tr2] [Hs2 [Hr2 [Hg2 HL2]]]].
  destruct (set_depth_limit_good root (v2, tr2) md Hg2) as [s3 [Hs3 [Hr3 [Hg3 HL3]]]].
  exists s3. split; [|split; [exact Hg3 | split; [exact HL3|]]].
  - rewrite set_tree_unfold. fold v1. rewrite Hs2. rewrite <- Hs3. cbn [fst] in HL2.
    destruct Hg2 as [[Ht2 _] _]. destruct v2 as [t2 L2 o2 D2 f2].
    cbn in Ht2, HL2. subst t2 L2. symmetry. apply set_depth_limit_unfold.
  - intros Hc. cbn [fst snd] in *.
    apply (redrawn_creates_once _ _ _ _ _ Hr3).
    apply (redrawn_creates_once _ _ _ _ _ Hr2). exact Hc.
Qed.

Lemma set_depth_limits_app l1 l2 s :
  set_depth_limits (l1 ++ l2) s =
  match set_depth_limits l1 s with
  | Some s' => set_depth_limits l2 s'
  | None => None
  end.
Proof.
  revert s. induction l1 as [|l l1 IH]; intros s; simpl; [reflexivity|].
  destruct (set_depth_limit l s); [apply IH | reflexivity].
Qed.

Lemma set_depth_limits_good root limits : forall s,
  good root (fst s) ->
  exists s', set_depth_limits limits s = Some s' /\ good root (fst s')
    /\ (creates_once (_square_objects (fst s), snd s) ->
        creates_once (_square_objects (fst s'), snd s')).
Proof.
  induction limits as [|L limits IH]; intros s Hg; simpl; [eauto|].
  destruct (set_depth_limit_good root s L Hg) as [s1 [-> [Hr [Hg1 _]]]].
  destruct (IH s1 Hg1) as [s' [Hs' [Hg' Hc']]].
  exists s'. split; [exact Hs'|]. split; [exact Hg'|].
  intros Hc. apply Hc'. apply (redrawn_creates_once _ _ _ _ _ Hr). exact Hc.
Qed.

(** Every run returns, in a good state and with every label created
    at most once. *)
Lemma run_good root md limits v0 :
  exists s, run root md limits v0 = Some s /\ good root (fst s)
            /\ creates_once (_square_objects (fst s), snd s).
Proof.
  unfold run.
  destruct (set_tree_good root md v0 []) as [s1 [-> [Hg1 [_ Hc1]]]].
  destruct (set_depth_limits_good root limits s1 Hg1) as [s [Hs [Hg Hc]]].
  exists s. split; [exact Hs|]. split; [exact Hg|].
  apply Hc, Hc1. intros l. cbn. rewrite lookup_empty. reflexivity.
Qed.

Lemma run_snoc root md limits L v0 :
  run root md (limits ++ [L]) v0 =
  match run root md limits v0 with
  | Some s => set_depth_limit L s
  | None => None
  end.
Proof.
  unfold run. destruct (set_tree root md (v0, [])) as [s|]; [|reflexivity].
  rewrite set_depth_limits_app.
  destruct (set_depth_limits limits s) as [s'|]; [|reflexivity].
  simpl. destruct (set_depth_limit L s'); reflexivity.
Qed.

(** In a good state the drawn deque holds the nodes within the limit. *)
Lemma good_drawn root v d n :
  good root v ->
  In (d, n) (_drawn_nodes v) <-> In (d, n) (within (_depth_limit v) root).
Proof.
  intros [[_ [m [Hm [Hd _]]]] _]. rewrite Hd. unfold within.
  rewrite In_levels_below_repeat. split; [tauto|]. intros H. split; [|exact H].
  apply In_levels_below in H as [j [Hj _]]. lia.
Qed.

Lemma good_visible root v l :
  good root v -> unique_labels root ->
  visible v l <-> exists d n, In (d, n) (within (_depth_limit v) root) /\ label n = l.
Proof.
  intros Hg Hu. split.
  - intros Hl. pose proof Hg as [_ [[_ H2] _]].
    destruct (H2 l Hl) as [[d n] [He Hel]]. exists d, n.
    split; [|exact Hel]. apply (good_drawn root v d n Hg). exact He.
  - intros [d [n [He <-]]]. apply (good_drawn root v d n Hg) in He.
    destruct Hg as [_ [_ H3]]. exact (H3 Hu (d, n) He).
Qed.

Lemma levels_from_empty j k F : level j F = [] -> levels_from j k F = [].
Proof.
  revert j. induction k as [|k IH]; intros j H; simpl; [reflexivity|].
  rewrite H, IH; [reflexivity|].
  replace (S j) with (j + 1)%nat by lia. apply level_empty_later. exact H.
Qed.

(** Labels that differ on the levels above an empty level are unique. *)
Lemma unique_labels_of_height root h :
  level h [root] = [] ->
  NoDup (map (fun e => label (snd e)) (levels_below h [root])) ->
  unique_labels root.
Proof.
  intros Hh Hnd k. destruct (Nat.le_gt_cases k h) as [Hle|Hgt].
  - replace h with (k + (h - k))%nat in Hnd by lia.
    rewrite levels_below_app, map_app in Hnd.
    apply NoDup_app in Hnd as [Hnd _]. exact Hnd.
  - replace k with (h + (k - h))%nat by lia.
    rewrite levels_below_app, (levels_from_empty _ _ _ Hh), app_nil_r. exact Hnd.
Qed.

End ControllerFacts.

(** ** The claims on the controller *)

(** C1.  For every tree set on the viewer and every run of
    [set_depth_limit] calls that ends with limit [L], the calls return and
    the drawn deque holds exactly the nodes of the tree at depth at most
    [L] (the root has depth 0, so limit 0 leaves the root alone),
    whichever limits came before; and when no label occurs twice in the
    tree, the labels whose graphics item is shown are exactly the labels
    of those nodes. *)
Theorem visible_set_is_depth_prefix {Sq} (root : TreeNode Sq) (max_depth : Z)
    (v0 : PythagorasTreeViewer Sq) (limits : list Z) (L : Z) :
  exists v tr,
    run root max_depth (limits ++ [L]) v0 = Some (v, tr) /\
    (forall d n, In (d, n) (_drawn_nodes v) <-> In (d, n) (within L root)) /\
    (unique_labels root ->
     forall l, visible v l <->
               exists d n, In (d, n) (within L root) /\ label n = l).
Proof.
  rewrite run_snoc.
  destruct (run_good root max_depth limits v0) as [s [-> [Hg _]]].
  destruct (set_depth_limit_good root s L Hg) as [[v tr] [-> [_ [Hg' HL]]]].
  cbn [fst] in Hg', HL. exists v, tr. split; [reflexivity|]. subst L. split.
  - intros d n. apply good_drawn. exact Hg'.
  - intros Hu l. apply good_visible; assumption.
Qed.

(** C8, as the code has it.  [set_depth_limit] returns for every integer
    limit and every state.  After a run that ends with a negative limit
    nothing is drawn and no graphics item is shown; every entry of the
    frontier is the root at depth 0, the root is among them when the
    limit is -1, and any later limit that is not negative draws exactly
    the nodes within it. *)
Theorem negative_limit_draws_nothing {Sq} (root : TreeNode Sq) (max_depth : Z)
    (v0 : PythagorasTreeViewer Sq) (limits : list Z) (L : Z) :
  L < 0 ->
  (forall depth (s0 : state Sq), exists s1, set_depth_limit depth s0 = Some s1) /\
  exists v tr,
    run root max_depth (limits ++ [L]) v0 = Some (v, tr) /\
    _drawn_nodes v = [] /\
    (forall l, ~ visible v l) /\
    Forall (fun e => e = (0, root)) (_frontier v) /\
    (L = -1 -> In (0, root) (_frontier v)) /\
    forall L', 0 <= L' ->
      exists v' tr', set_depth_limit L' (v, tr) = Some (v', tr') /\
        forall d n, In (d, n) (_drawn_nodes v') <-> In (d, n) (within L' root).
Proof.
  intros HL. split; [intros depth s0; apply set_depth_limit_total|].
  rewrite run_snoc.
  destruct (run_good root max_depth limits v0) as [s [-> [Hg _]]].
  destruct (set_depth_limit_good root s L Hg) as [[v tr] [-> [_ [Hg' HL']]]].
  cbn [fst] in Hg', HL'. exists v, tr. split; [reflexivity|].
  pose proof Hg' as [[_ [m [Hm [Hd Hf]]]] [[_ H2] _]]. rewrite HL' in Hm, Hd, Hf.
  replace (Z.to_nat (L + 1)) with O in Hd, Hf by lia.
  replace (Z.max 0 (L + 1)) with 0 in Hf by lia. cbn in Hd, Hf.
  split; [exact Hd|]. split; [|split; [|split]].
  - intros l Hl. destruct (H2 l Hl) as [e [He _]]. rewrite Hd in He. contradiction.
  - rewrite Hf. apply Forall_forall. intros e He.
    apply list_elem_of_In, in_map_iff in He as [n [<- Hn]].
    apply repeat_spec in Hn. now subst n.
  - intros ->. rewrite Hf. destruct m as [|m]; [lia|]. left. reflexivity.
  - intros L' HL0.
    destruct (set_depth_limit_good root (v, tr) L' Hg') as [[v' tr'] [-> [_ [Hg2 HL2]]]].
    cbn [fst] in Hg2, HL2. exists v', tr'. split; [reflexivity|].
    intros d n. rewrite <- HL2. apply good_drawn. exact Hg2.
Qed.

(** C7, as the code has it.  Across [set_tree] and any run of
    [set_depth_limit] calls, at most one create is emitted per label.
    Every call emits one hide for each entry it removes from the drawn
    deque and then one show or create for each entry it adds.  On the
    balanced tree of three levels, [set_tree] itself (the adapter reports
    depth 2) emits the 7 creates; the calls with limits 0, 2, 0, 2 that
    follow emit 6 hides, 6 shows, 6 hides and 6 shows, and no create. *)
Theorem handles_created_once_then_reused :
  (forall Sq (root : TreeNode Sq) max_depth v0 limits,
     exists v tr, run root max_depth limits v0 = Some (v, tr) /\
       forall l, (List.length (List.filter (creates l) tr) <= 1)%nat)
  /\
  (forall Sq (root : TreeNode Sq) max_depth v0 limits L,
     exists v tr v' kept removed added evs,
       run root max_depth limits v0 = Some (v, tr) /\
       set_depth_limit L (v, tr) = Some (v', tr ++ hides removed ++ evs) /\
       _drawn_nodes v = kept ++ removed /\
       _drawn_nodes v' = kept ++ added /\
       shows_or_creates added evs)
  /\
  option_map (fun s => (counts (snd s), call_counts [0; 2; 0; 2] s))
    (set_tree tree7 2 (init 0, []))
  = Some ((7, 0, 0), [(0, 0, 6); (0, 6, 0); (0, 0, 6); (0, 6, 0)])%nat.
Proof.
  split; [|split].
  - intros Sq root max_depth v0 limits.
    destruct (run_good root max_depth limits v0) as [[v tr] [-> [_ Hc]]].
    exists v, tr. split; [reflexivity|]. intros l. specialize (Hc l).
    cbn [fst snd] in Hc. rewrite Hc. destruct (_ !! _); lia.
  - intros Sq root max_depth v0 limits L.
    destruct (run_good root max_depth limits v0) as [[v tr] [-> [Hg _]]].
    destruct (set_depth_limit_good root (v, tr) L Hg) as [[v' tr'] [Hs [Hr _]]].
    cbn [fst snd] in Hr.
    destruct (redrawn_events _ _ _ _ _ Hg Hr)
      as [kept [removed [added [evs [Hd [Hd' [Htr Hevs]]]]]]].
    cbn [fst snd] in Hd', Htr. subst tr'.
    exists v, tr, v', kept, removed, added, evs. auto.
  - vm_compute. reflexivity.
Qed.

(** The scenario of the specification, with its 6 creates, arises when
    only the root was drawn before: here the adapter reports depth 0. *)
Lemma scenario_after_root_only :
  option_map (fun s => (counts (snd s), call_counts [0; 2; 0; 2] s))
    (set_tree tree7 0 (init 0, []))
  = Some ((1, 0, 0), [(0, 0, 0); (6, 0, 0); (0, 0, 6); (0, 6, 0)])%nat.
Proof. vm_compute. reflexivity. Qed.

(** Against C7 as stated: after [set_tree] on the balanced tree of three
    levels, the call with limit 0 followed by the call with limit 2 cannot
    emit 6 creates and no hide; the items exist already and are shown. *)
Lemma no_create_after_set_tree :
  ~ exists first shows,
      option_map (call_counts [0; 2]) (set_tree tree7 2 (init 0, []))
      = Some [first; (6, shows, 0)]%nat.
Proof. intros [first [shows H]]. vm_compute in H. discriminate. Qed.

(** Against C8 as stated: from the drawn tree, the limit -2 empties the
    frontier, so the root does not stay in it. *)
Lemma root_not_in_frontier_below_minus_one :
  exists v tr,
    run tree7 2 [-2] (init 0) = Some (v, tr) /\ ~ In (0, tree7) (_frontier v).
Proof.
  eexists. eexists. split; [vm_compute; reflexivity|]. simpl. tauto.
Qed.

Lemma unique_labels_tree7 : unique_labels tree7.
Proof.
  apply (unique_labels_of_height tree7 3); [reflexivity|].
  vm_compute.
  repeat (apply NoDup_cons; split;
          [intros H; apply list_elem_of_In in H; simpl in H; lia|]).
  apply NoDup_nil_2.
Qed.

Lemma visible_set_is_depth_prefix_witness :
  unique_labels tree7 /\
  exists v tr,
    run tree7 2 ([0; 2; -1] ++ [1]) (init 0) = Some (v, tr) /\
    (forall d n, In (d, n) (_drawn_nodes v) <-> In (d, n) (within 1 tree7)) /\
    (forall l, visible v l <->
               exists d n, In (d, n) (within 1 tree7) /\ label n = l).
Proof.
  split; [exact unique_labels_tree7|].
  destruct (visible_set_is_depth_prefix tree7 2 (init 0) [0; 2; -1] 1)
    as [v [tr [Hrun [Hdrawn Hvisible]]]].
  exists v, tr. split; [exact Hrun|]. split; [exact Hdrawn|].
  exact (Hvisible unique_labels_tree7).
Defined.

Lemma negative_limit_draws_nothing_witness :
  -1 < 0 /\
  (forall depth (s0 : state unit), exists s1, set_depth_limit depth s0 = Some s1) /\
  exists v tr,
    run tree7 2 ([0; 2] ++ [-1]) (init 0) = Some (v, tr) /\
    _drawn_nodes v = [] /\
    (forall l, ~ visible v l) /\
    Forall (fun e => e = (0, tree7)) (_frontier v) /\
    (-1 = -1 -> In (0, tree7) (_frontier v)) /\
    forall L', 0 <= L' ->
      exists v' tr', set_depth_limit L' (v, tr) = Some (v', tr') /\
        forall d n, In (d, n) (_drawn_nodes v') <-> In (d, n) (within L' tree7).
Proof.
  split; [lia|].
  apply (negative_limit_draws_nothing tree7 2 (init 0) [0; 2] (-1)). lia.
Defined.

End ViewerFacts.

(* ===================================================================== *)
(** * Facts about the geometry engine *)
(* ===================================================================== *)

Module GeometryFacts.
Import Geometry.

Section EngineFacts.

Context {F : Type} {ops : FloatOps F}.
Implicit Types (tree : TreeAdapter F) (sq P : Square F) (s slopes : slopes_memo F).

Lemma _compute_child_eq (rec : layout) tree P node slopes :
  _compute_child rec tree P node slopes =
  rec node (child_square P (weight tree node) (sum (slopes_get slopes P)))
    (slopes_append slopes P (mul (weight tree node) pi)).
Proof. reflexivity. Qed.

Lemma pythagoras_tree_eq fuel tree node sq s :
  pythagoras_tree (S fuel) tree node sq s =
  match map_children (_compute_child (pythagoras_tree fuel tree) tree sq)
          (adapter_children tree node)
          (if node =? root tree then [] else s) with
  | None => None
  | Some (cs, s') =>
      Some (mkTreeNode node sq (adapter_parent tree node)
              (map (set_parent node) cs), s')
  end.
Proof. reflexivity. Qed.

(** A call on the adapter's root clears the memo first: the memo it
    finds plays no part in what it returns. *)
Lemma pythagoras_tree_root_clears fuel tree sq s1 s2 :
  pythagoras_tree fuel tree (root tree) sq s1 =
  pythagoras_tree fuel tree (root tree) sq s2.
Proof.
  destruct fuel; [reflexivity|].
  rewrite !pythagoras_tree_eq, Z.eqb_refl. reflexivity.
Qed.

Lemma map_children_total f cs :
  (forall c, In c cs -> forall s, exists r, f c s = Some r) ->
  forall s, exists r, map_children f cs s = Some r.
Proof.
  induction cs as [|c cs IH]; intros Hf s; simpl; [eauto|].
  destruct (Hf c (or_introl eq_refl) s) as [[n s1] ->].
  destruct (IH (fun c' Hc' => Hf c' (or_intror Hc')) s1) as [[ns s2] ->]. eauto.
Qed.

(** On an adapter that describes a tree of height below [n], [n] units
    of fuel are enough: the layout returns. *)
Lemma pythagoras_tree_total tree n : forall node,
  height_below tree n node ->
  forall sq s, exists r, pythagoras_tree n tree node sq s = Some r.
Proof.
  induction n as [|n IH]; intros node H; inversion H as [? ? Hcs]; subst.
  intros sq s. rewrite pythagoras_tree_eq.
  match goal with
  | |- context [map_children ?f ?cs ?s0] =>
      destruct (map_children_total f cs) with (s := s0) as [[ns s1] ->]; [|eauto]
  end.
  intros c Hc s'. rewrite _compute_child_eq. apply IH.
  rewrite Forall_forall in Hcs. apply Hcs, list_elem_of_In, Hc.
Qed.



End EngineFacts.

(** C6.  For every adapter that describes a finite tree, every initial
    square and every arithmetic, the layout from the adapter's root
    returns, and a second call on the same engine, which starts from the
    memo the first call left behind, returns the same tree with the same
    squares (and leaves the same memo). *)
Theorem layout_idempotent {F} {ops : FloatOps F} (tree : TreeAdapter F)
    (sq : Square F) (n : nat) (s0 : slopes_memo F) :
  height_below tree n (root tree) ->
  exists t s1,
    pythagoras_tree n tree (root tree) sq s0 = Some (t, s1) /\
    pythagoras_tree n tree (root tree) sq s1 = Some (t, s1).
Proof.
  intros H. destruct (pythagoras_tree_total tree n _ H sq s0) as [[t s1] Hr].
  exists t, s1. split; [exact Hr|].
  rewrite (pythagoras_tree_root_clears n tree sq s1 s0). exact Hr.
Qed.

Lemma two_halves_height : height_below two_halves 2 (root two_halves).
Proof.
  apply height_below_S. cbn.
  repeat (constructor; [apply height_below_S; cbn; constructor|]). constructor.
Qed.

Lemma layout_idempotent_witness :
  height_below two_halves 2 (root two_halves) /\
  exists t s1,
    pythagoras_tree 2 two_halves (root two_halves) initial_square [] = Some (t, s1) /\
    pythagoras_tree 2 two_halves (root two_halves) initial_square s1 = Some (t, s1).
Proof.
  split; [exact two_halves_height|].
  apply (layout_idempotent two_halves initial_square 2 []).
  exact two_halves_height.
Defined.

(** ** Squares that collide in the memo *)

Section Collision.

Context {F : Type} {ops : FloatOps F}.

Local Arguments child_square : simpl never.
Local Arguments Square_eqb : simpl never.
Local Arguments sum : simpl never.
Local Arguments initial_square : simpl never.

Ltac eval_adapter :=
  cbn [adapter_children adapter_parent weight root degenerate map_children
       map set_parent label square children parent Z.eqb Pos.eqb
       slopes_get slopes_append option_map fst snd app].

(** On [degenerate] the layout is [degenerate_tree] as soon as the
    square of node 3 equals the square of its parent, node 1. *)
Lemma degenerate_layout :
  Square_eqb (initial_square (F := F)) initial_square = true ->
  Square_eqb (initial_square (F := F)) square1 = false ->
  Square_eqb (initial_square (F := F)) square3 = false ->
  Square_eqb (square1 (F := F)) square3 = true ->
  _calculate_tree 4 degenerate = Some degenerate_tree.
Proof.
  intros H00 H01 H03 H13. unfold square3, square1 in *. unfold _calculate_tree.
  repeat (rewrite pythagoras_tree_eq; eval_adapter;
          try (rewrite _compute_child_eq; eval_adapter;
               rewrite ?H00, ?H01, ?H03, ?H13; eval_adapter)).
  reflexivity.
Qed.

(** ** Children that are leaves *)

(** Where [==] is reflexive, the children of a node are laid out as
    specified when they are all leaves: no other node then reads or
    extends the memo entry of their parent's square. *)
Hypothesis eqb_refl : forall a : F, eqb a a = true.

Lemma Square_eqb_refl (P : Square F) : Square_eqb P P = true.
Proof. unfold Square_eqb, Point_eqb. now rewrite !eqb_refl. Qed.

Lemma slopes_get_append (m : slopes_memo F) (P : Square F) (a : F) :
  slopes_get (slopes_append m P a) P = slopes_get m P ++ [a].
Proof.
  induction m as [|[k v] m IH]; cbn [slopes_get slopes_append].
  - rewrite Square_eqb_refl. reflexivity.
  - destruct (Square_eqb k P) eqn:E; cbn [slopes_get]; rewrite E;
      [reflexivity | exact IH].
Qed.

Lemma leaves_laid_out (tree : TreeAdapter F) (P : Square F) (fuel : nat) cs :
  (forall c, In c cs -> adapter_children tree c = [] /\ c <> root tree) ->
  forall s, exists ns s',
    map_children (_compute_child (pythagoras_tree (S fuel) tree) tree P) cs s
      = Some (ns, s')
    /\ siblings_laid_out tree P (slopes_get s P) ns
    /\ Forall (fun n => children n = []) ns.
Proof.
  induction cs as [|c cs IH]; intros Hcs s; cbn [map_children].
  - exists [], s. repeat split. constructor.
  - destruct (Hcs c (or_introl eq_refl)) as [Hleaf Hroot].
    rewrite _compute_child_eq, pythagoras_tree_eq, Hleaf.
    apply Z.eqb_neq in Hroot. rewrite Hroot. cbn [map_children map].
    destruct (IH (fun c' Hc' => Hcs c' (or_intror Hc'))
                (slopes_append s P (mul (weight tree c) pi)))
      as [ns [s' [-> [Hns Hleaves]]]].
    eexists. eexists. split; [reflexivity|]. split.
    + cbn [siblings_laid_out label square]. split; [reflexivity|].
      rewrite slopes_get_append in Hns. exact Hns.
    + constructor; [reflexivity | exact Hleaves].
Qed.

Lemma siblings_laid_out_set_parent (tree : TreeAdapter F) (P : Square F) (p : Z) ns :
  forall earlier,
    siblings_laid_out tree P earlier ns ->
    siblings_laid_out tree P earlier (map (set_parent p) ns).
Proof.
  induction ns as [|n ns IH]; intros earlier H; [exact I|].
  destruct H as [Hsq Hrest]. destruct n as [l sq q cs].
  cbn [map siblings_laid_out set_parent label square] in *.
  split; [exact Hsq | apply IH; exact Hrest].
Qed.

(** A root whose children are all leaves is laid out as specified. *)
Lemma flat_tree_laid_out (tree : TreeAdapter F) (sq : Square F) (fuel : nat) s :
  (forall c, In c (adapter_children tree (root tree)) ->
             adapter_children tree c = [] /\ c <> root tree) ->
  exists t s',
    pythagoras_tree (S (S fuel)) tree (root tree) sq s = Some (t, s')
    /\ laid_out tree t.
Proof.
  intros Hcs. rewrite pythagoras_tree_eq, Z.eqb_refl.
  destruct (leaves_laid_out tree sq fuel _ Hcs []) as [ns [s' [-> [Hns Hleaves]]]].
  eexists. eexists. split; [reflexivity|].
  cbn [laid_out slopes_get] in *. split.
  - apply siblings_laid_out_set_parent. exact Hns.
  - clear Hns. induction Hleaves as [|n ns Hn _ IH]; [exact I|].
    destruct n as [l q p cs]. cbn [children] in Hn. subst cs.
    cbn [map set_parent label square children laid_out siblings_laid_out].
    split; [split; exact I | exact IH].
Qed.

End Collision.

(** ** Over the real numbers *)

Local Open Scope R_scope.

Lemma Req_bool_true (a b : R) : a = b -> Req_bool a b = true.
Proof. intros ->. unfold Req_bool. destruct (Req_dec_T b b); congruence. Qed.

Lemma Req_bool_false (a b : R) : a <> b -> Req_bool a b = false.
Proof. intros H. unfold Req_bool. destruct (Req_dec_T a b); congruence. Qed.

Lemma Square_eqb_real_refl (P : Square R) : Square_eqb P P = true.
Proof. apply Square_eqb_refl. intros a. now apply Req_bool_true. Qed.

Lemma Square_eqb_real_length (P Q : Square R) :
  length P <> length Q -> Square_eqb P Q = false.
Proof.
  intros H. unfold Square_eqb. cbn [eqb real_ops].
  rewrite (Req_bool_false _ _ H), andb_false_r. reflexivity.
Qed.

Lemma child_square_length (P : Square R) (w prev : R) :
  length (child_square P w prev) = length P * Rtrigo_def.sin (w * PI / 2).
Proof. reflexivity. Qed.

Lemma child_square_angle (P : Square R) (w prev : R) :
  angle (child_square P w prev) = angle P - PI / 2 + prev + w * PI / 2.
Proof. reflexivity. Qed.

(** A child of weight 1 on a square of side 0, placed first, gets the
    very square of its parent. *)
Lemma child_of_point_square (P : Square R) :
  length P = 0 -> child_square P 1 0 = P.
Proof.
  destruct P as [[cx cy] l a]. cbn [length]. intros ->.
  unfold child_square, _compute_center, _get_point_on_square_edge, _rotate_point.
  cbn [length angle center x y eqb of_int add sub mul div neg pow_int sqrt sin cos pi
       real_ops].
  rewrite (Req_bool_true 0 0 eq_refl). cbn [negb x y].
  replace (R_sqrt.sqrt (2 * powerRZ 0 2)) with 0.
  2:{ replace (2 * powerRZ 0 2) with 0 by (simpl; ring). symmetry. apply sqrt_0. }
  f_equal; [f_equal|..]; field.
Qed.

Lemma square1_length : length (square1 (F := R)) = 0.
Proof.
  unfold square1. rewrite child_square_length.
  cbn [of_int real_ops]. replace (0 * PI / 2) with 0 by field.
  rewrite sin_0. ring.
Qed.

Lemma square3_collides : square3 (F := R) = square1.
Proof. apply child_of_point_square. exact square1_length. Qed.

(** The angles of children whose weights sum to 1 sum to pi, and each
    sub-arc starts where the one before it ends. *)
Lemma fold_plus_scaled (ws : list R) (k acc : R) :
  fold_left Rplus (map (fun w => w * k) ws) (acc * k) = fold_left Rplus ws acc * k.
Proof.
  revert acc. induction ws as [|w ws IH]; intros acc; cbn [map fold_left]; [reflexivity|].
  rewrite <- IH. f_equal. ring.
Qed.

Lemma alphas_sum_to_pi (ws : list R) :
  fold_left Rplus ws 0 = 1 -> sum (map (fun w => mul w pi) ws) = PI.
Proof.
  intros H. unfold sum. cbn [add mul pi of_int real_ops].
  replace 0 with (0 * PI) by ring. rewrite fold_plus_scaled, H. ring.
Qed.

Lemma arcs_consecutive (earlier : list R) (alpha : R) :
  sum (earlier ++ [alpha]) = sum earlier + alpha.
Proof. unfold sum. rewrite fold_left_app. reflexivity. Qed.

(** On [degenerate] the engine returns [degenerate_tree]. *)
Lemma degenerate_layout_real : _calculate_tree 4 (degenerate (F := R)) = Some degenerate_tree.
Proof.
  assert (length (initial_square (F := R)) <> 0) as H200.
  { cbn. lra. }
  apply degenerate_layout.
  - apply Square_eqb_real_refl.
  - apply Square_eqb_real_length. rewrite square1_length. exact H200.
  - apply Square_eqb_real_length. rewrite square3_collides, square1_length. exact H200.
  - rewrite square3_collides. apply Square_eqb_real_refl.
Qed.

Lemma square4_angle : angle (square4 (F := R)) = angle (square3 (F := R)) + PI.
Proof.
  unfold square4. rewrite child_square_angle.
  cbn [sum fold_left of_int add mul pi real_ops]. field.
Qed.

(** C2, at the failing input.  On [degenerate] (child weights 0 and 1
    under the root, then two only children of weight 1) the engine returns
    a tree in which node 3 has the square of its parent, node 1, and node
    4, the only child of node 3, is not laid out as specified: no sibling
    comes before it, yet its angle is the parent's angle plus pi instead of
    the parent's angle. *)
Theorem colliding_squares_break_child_layout :
  exists t,
    _calculate_tree 4 (degenerate (F := R)) = Some t /\
    ~ laid_out degenerate t /\
    square3 (F := R) = square1 /\
    angle (square4 (F := R)) = angle (square3 (F := R)) + PI /\
    angle (child_square (square3 (F := R)) 1 (sum [])) = angle (square3 (F := R)).
Proof.
  exists degenerate_tree. split; [exact degenerate_layout_real|].
  split; [|split; [exact square3_collides | split; [exact square4_angle|]]].
  - intros [_ [[_ [[[H4 _] _] _]] _]].
    cbn [label square weight degenerate Z.eqb Pos.eqb] in H4.
    apply (f_equal angle) in H4. rewrite square4_angle, child_square_angle in H4.
    cbn [sum fold_left of_int real_ops] in H4.
    pose proof PI_RGT_0. lra.
  - rewrite child_square_angle. cbn [sum fold_left of_int real_ops]. field.
Qed.

(** C5, at the failing input.  Node 3 of [degenerate] has one child, of
    weight 1, so the weights of its children sum to 1 and the child's
    angle [alpha] is pi; but the sub-arc of that child starts at pi, not
    at 0, and so is the arc from pi to 2 pi instead of the arc from 0 to
    pi. *)
Theorem colliding_squares_shift_the_arc :
  exists n1 n2 n3 n4,
    _calculate_tree 4 (degenerate (F := R))
      = Some (mkTreeNode 0 initial_square (-1) [n1; n2]) /\
    children n1 = [n3] /\ children n3 = [n4] /\
    weight (degenerate (F := R)) (label n4) = 1 /\
    let alpha := weight (degenerate (F := R)) (label n4) * PI in
    alpha = PI /\
    arc_start (square n3) (square n4) alpha = PI /\
    arc_start (square n3) (square n4) alpha + alpha = 2 * PI.
Proof.
  exists (mkTreeNode 1 square1 0 [mkTreeNode 3 square3 1 [mkTreeNode 4 square4 3 []]]),
    (mkTreeNode 2 square2 0 []),
    (mkTreeNode 3 square3 1 [mkTreeNode 4 square4 3 []]),
    (mkTreeNode 4 square4 3 []).
  split; [exact degenerate_layout_real|].
  cbn [children label square weight degenerate Z.eqb Pos.eqb of_int real_ops].
  repeat split; unfold arc_start; rewrite ?square4_angle; field.
Qed.

(** The scenario of the specification: a root with two children of
    weight 0.5 each, laid out from the square of centre (0,0), side 200
    and angle -pi/2.  Both children get the angle pi/2 and the side
    200 sin(pi/4); the first sub-arc starts at 0 and the second at pi/2. *)
Lemma two_halves_layout :
  exists c1 c2,
    _calculate_tree 2 two_halves = Some (mkTreeNode 0 initial_square (-1) [c1; c2]) /\
    laid_out two_halves (mkTreeNode 0 initial_square (-1) [c1; c2]) /\
    weight two_halves (label c1) * PI = PI / 2 /\
    weight two_halves (label c2) * PI = PI / 2 /\
    length (square c1) = 200 * Rtrigo_def.sin (PI / 4) /\
    length (square c2) = 200 * Rtrigo_def.sin (PI / 4) /\
    arc_start initial_square (square c1) (PI / 2) = 0 /\
    arc_start initial_square (square c2) (PI / 2) = PI / 2.
Proof.
  exists (mkTreeNode 1 (child_square initial_square (1 / 2) (sum [])) 0 []),
    (mkTreeNode 2 (child_square initial_square (1 / 2) (sum [1 / 2 * PI])) 0 []).
  split; [|split].
  - unfold _calculate_tree.
    rewrite pythagoras_tree_eq.
    cbn [adapter_children adapter_parent weight root two_halves map_children
         Z.eqb Pos.eqb].
    rewrite !_compute_child_eq, !pythagoras_tree_eq.
    cbn [adapter_children adapter_parent weight root two_halves map_children
         Z.eqb Pos.eqb slopes_get slopes_append].
    rewrite _compute_child_eq, pythagoras_tree_eq.
    cbn [adapter_children adapter_parent weight root two_halves map_children
         Z.eqb Pos.eqb slopes_get slopes_append].
    rewrite Square_eqb_real_refl. reflexivity.
  - cbn [laid_out siblings_laid_out label square weight two_halves app].
    cbn [mul pi real_ops]. auto.
  - cbn [label square weight two_halves].
    unfold arc_start. rewrite !child_square_length, !child_square_angle.
    cbn [length angle initial_square sum fold_left of_int add div neg pi real_ops].
    replace (1 / 2 * PI / 2) with (PI / 4) by field.
    repeat split; field.
Qed.

End GeometryFacts.

(* ===================================================================== *)
(** * Laws of the rule algebra *)
(* ===================================================================== *)

Module RulesLaws.
Import Rules Notions.

Local Open Scope string_scope.
Local Open Scope Z_scope.

Lemma gtb_pick_max (a b : Z) : (if a >? b then a else b) = Z.max a b.
Proof. destruct (Z.gtb_spec a b); lia. Qed.

Lemma ltb_pick_min (a b : Z) : (if a <? b then a else b) = Z.min a b.
Proof. destruct (Z.ltb_spec a b); lia. Qed.

(** What [ContinuousRule.merge_with] returns on integer thresholds, in
    one formula. *)
Lemma continuous_merge_int (a b : ContinuousRule Z) :
  ContinuousRule_merge_with Z.gtb Z.ltb a (VRule (Continuous b)) =
  Returned (VRule
    (if Bool.eqb (sign a) (sign b) then
       Continuous (mkContinuousRule (attr_name a) (sign a)
                     (if sign a then Z.max (value a) (value b)
                      else Z.min (value a) (value b)) false)
     else
       Interval (mkIntervalRule (attr_name a)
                   (if sign a then a else b) (if sign a then b else a)))).
Proof.
  unfold ContinuousRule_merge_with, ContinuousRule_init.
  rewrite gtb_pick_max, ltb_pick_min.
  destruct (Bool.eqb (sign a) (sign b)), (sign a); reflexivity.
Qed.

(** X1. Merging continuous rules of one direction is associative: for
    three rules that are all lower bounds or all upper bounds, merging
    the first with the second and the outcome with the third gives the
    same rule as merging the first with the outcome of merging the second
    with the third. *)
Theorem same_direction_merge_associative (a b c : ContinuousRule Z) :
  sign a = sign b -> sign b = sign c ->
  exists ab bc : ContinuousRule Z,
    ContinuousRule_merge_with Z.gtb Z.ltb a (VRule (Continuous b))
      = Returned (VRule (Continuous ab)) /\
    ContinuousRule_merge_with Z.gtb Z.ltb b (VRule (Continuous c))
      = Returned (VRule (Continuous bc)) /\
    ContinuousRule_merge_with Z.gtb Z.ltb ab (VRule (Continuous c))
      = ContinuousRule_merge_with Z.gtb Z.ltb a (VRule (Continuous bc)).
Proof.
  intros Hab Hbc.
  rewrite !continuous_merge_int, <- Hbc, <- Hab, !Bool.eqb_reflx.
  do 2 eexists. split; [reflexivity|]. split; [reflexivity|].
  rewrite !continuous_merge_int. cbn [sign value attr_name].
  rewrite <- Hbc, <- Hab, !Bool.eqb_reflx.
  destruct (sign a); do 4 f_equal; lia.
Qed.

Lemma same_direction_merge_associative_witness :
  exists ab bc : ContinuousRule Z,
    ContinuousRule_merge_with Z.gtb Z.ltb (mkContinuousRule "x" true 5 false)
      (VRule (Continuous (mkContinuousRule "x" true 8 true)))
      = Returned (VRule (Continuous ab)) /\
    ContinuousRule_merge_with Z.gtb Z.ltb (mkContinuousRule "x" true 8 true)
      (VRule (Continuous (mkContinuousRule "x" true 2 false)))
      = Returned (VRule (Continuous bc)) /\
    ContinuousRule_merge_with Z.gtb Z.ltb ab
      (VRule (Continuous (mkContinuousRule "x" true 2 false)))
      = ContinuousRule_merge_with Z.gtb Z.ltb (mkContinuousRule "x" true 5 false)
          (VRule (Continuous bc)).
Proof.
  apply (same_direction_merge_associative
           (mkContinuousRule "x" true 5 false) (mkContinuousRule "x" true 8 true)
           (mkContinuousRule "x" true 2 false)); reflexivity.
Defined.

(** X2. For two continuous rules on the same attribute the order of the
    merge does not matter: [a.merge_with(b)] and [b.merge_with(a)] return
    the same rule, in the same direction as well as in opposite
    directions. *)
Theorem continuous_merge_commutative (a b : ContinuousRule Z) :
  attr_name a = attr_name b ->
  ContinuousRule_merge_with Z.gtb Z.ltb a (VRule (Continuous b)) =
  ContinuousRule_merge_with Z.gtb Z.ltb b (VRule (Continuous a)).
Proof.
  intros Hn. rewrite !continuous_merge_int, <- Hn.
  destruct (sign a) eqn:Ea, (sign b) eqn:Eb; cbn [Bool.eqb];
    try reflexivity; do 4 f_equal; lia.
Qed.

Lemma continuous_merge_commutative_witness :
  ContinuousRule_merge_with Z.gtb Z.ltb (mkContinuousRule "x" true 5 false)
    (VRule (Continuous (mkContinuousRule "x" false 8 true))) =
  ContinuousRule_merge_with Z.gtb Z.ltb (mkContinuousRule "x" false 8 true)
    (VRule (Continuous (mkContinuousRule "x" true 5 false))).
Proof.
  apply (continuous_merge_commutative
           (mkContinuousRule "x" true 5 false) (mkContinuousRule "x" false 8 true)).
  reflexivity.
Defined.

(** X3. Merging a continuous rule into a well-formed interval returns a
    well-formed interval on the same attribute in which the bound of the
    rule's direction is tightened (the larger lower bound, the smaller
    upper bound, the inclusive flag of that side dropped) and the other
    side is the receiver's, untouched. *)
Theorem interval_merge_continuous_tightens (i : IntervalRule Z) (c : ContinuousRule Z) :
  well_formed i ->
  exists i' : IntervalRule Z,
    IntervalRule_merge_with Z.gtb Z.ltb i (VRule (Continuous c))
      = Returned (VRule (Interval i')) /\
    well_formed i' /\ i_attr_name i' = i_attr_name i /\
    (if sign c
     then left_rule i' = mkContinuousRule (attr_name (left_rule i)) true
                           (Z.max (value (left_rule i)) (value c)) false
          /\ right_rule i' = right_rule i
     else left_rule i' = left_rule i
          /\ right_rule i' = mkContinuousRule (attr_name (right_rule i)) false
                               (Z.min (value (right_rule i)) (value c)) false).
Proof.
  intros [Hl Hr]. unfold IntervalRule_merge_with.
  rewrite !continuous_merge_int, Hl, Hr.
  destruct (sign c) eqn:Ec; cbn [Bool.eqb bind IntervalRule_init];
    eexists; (split; [reflexivity|]); unfold well_formed; cbn; auto.
Qed.

Lemma interval_merge_continuous_tightens_witness :
  exists i' : IntervalRule Z,
    IntervalRule_merge_with Z.gtb Z.ltb
      (mkIntervalRule "x" (mkContinuousRule "x" true 1 true)
         (mkContinuousRule "x" false 9 true))
      (VRule (Continuous (mkContinuousRule "x" false 4 true)))
      = Returned (VRule (Interval i')) /\
    well_formed i' /\ i_attr_name i' = "x" /\
    left_rule i' = mkContinuousRule "x" true 1 true /\
    right_rule i' = mkContinuousRule "x" false 4 false.
Proof.
  apply (interval_merge_continuous_tightens
           (mkIntervalRule "x" (mkContinuousRule "x" true 1 true)
              (mkContinuousRule "x" false 9 true))
           (mkContinuousRule "x" false 4 true)).
  split; reflexivity.
Defined.

(** X4. Merging two well-formed intervals returns their intersection as
    a well-formed interval on the receiver's attribute: the larger of
    the two lower bounds and the smaller of the two upper bounds, neither
    side inclusive. *)
Theorem interval_merge_interval_intersects (i j : IntervalRule Z) :
  well_formed i -> well_formed j ->
  IntervalRule_merge_with Z.gtb Z.ltb i (VRule (Interval j)) =
  Returned (VRule (Interval (mkIntervalRule (i_attr_name i)
    (mkContinuousRule (attr_name (left_rule i)) true
       (Z.max (value (left_rule i)) (value (left_rule j))) false)
    (mkContinuousRule (attr_name (right_rule i)) false
       (Z.min (value (right_rule i)) (value (right_rule j))) false)))).
Proof.
  intros [Hl Hr] [Hl' Hr']. unfold IntervalRule_merge_with.
  rewrite !continuous_merge_int, Hl, Hr, Hl', Hr'. reflexivity.
Qed.

Lemma interval_merge_interval_intersects_witness :
  IntervalRule_merge_with Z.gtb Z.ltb
    (mkIntervalRule "x" (mkContinuousRule "x" true 1 true)
       (mkContinuousRule "x" false 9 true))
    (VRule (Interval (mkIntervalRule "x" (mkContinuousRule "x" true 3 false)
       (mkContinuousRule "x" false 12 true)))) =
  Returned (VRule (Interval (mkIntervalRule "x"
    (mkContinuousRule "x" true 3 false) (mkContinuousRule "x" false 9 false)))).
Proof.
  apply (interval_merge_interval_intersects
           (mkIntervalRule "x" (mkContinuousRule "x" true 1 true)
              (mkContinuousRule "x" false 9 true))
           (mkIntervalRule "x" (mkContinuousRule "x" true 3 false)
              (mkContinuousRule "x" false 12 true)));
    split; reflexivity.
Defined.

(** X5. The constructor of [IntervalRule] does not look at the
    directions of its two sides.  An interval whose left side is an upper
    bound cannot take a lower bound: the merge of the left side is itself
    an interval, and [merge_with] raises [AttributeError], whatever the
    thresholds and their order are. *)
Theorem misdirected_interval_merge_raises {number} (gt lt : number -> number -> bool)
    (i : IntervalRule number) (c : ContinuousRule number) :
  sign (left_rule i) = false -> sign c = true ->
  IntervalRule_merge_with gt lt i (VRule (Continuous c)) =
  Raised (AttributeError
            "The left rule must be an instance of the `ContinuousRule` class.").
Proof.
  intros Hl Hc. unfold IntervalRule_merge_with, ContinuousRule_merge_with.
  rewrite Hc, Hl. reflexivity.
Qed.

Lemma misdirected_interval_merge_raises_witness :
  IntervalRule_merge_with Z.gtb Z.ltb
    (mkIntervalRule "x" (mkContinuousRule "x" false 9 false)
       (mkContinuousRule "x" true 1 false))
    (VRule (Continuous (mkContinuousRule "x" true 4 false))) =
  Raised (AttributeError
            "The left rule must be an instance of the `ContinuousRule` class.").
Proof.
  apply (misdirected_interval_merge_raises Z.gtb Z.ltb
           (mkIntervalRule "x" (mkContinuousRule "x" false 9 false)
              (mkContinuousRule "x" true 1 false))
           (mkContinuousRule "x" true 4 false)); reflexivity.
Defined.

End RulesLaws.

(* ===================================================================== *)
(** * Laws of the visible-set controller *)
(* ===================================================================== *)

Module ViewerLaws.
Import Viewer ViewerFacts.

Section ControllerLaws.

Context {Sq : Type}.
Implicit Types (n c root : TreeNode Sq) (ns F : list (TreeNode Sq)).
Implicit Types (v : PythagorasTreeViewer Sq) (s : state Sq).
Implicit Types (o : gmap Z bool) (tr : list (event Sq)).
Implicit Types (ot : gmap Z bool * list (event Sq)) (e : Z * TreeNode Sq).

(** ** One call on a drawn tree, exactly *)

(** A call on a viewer that shows [m] copies of the levels up to a limit
    that is not negative: the levels between the two limits are drawn
    or removed, and the copies stay [m]. *)
Lemma redraw_exact root L L' m o tr :
  0 <= L -> (1 <= m)%nat ->
  set_depth_limit L'
    (mkViewer (Some root) L o
       (levels_below (Z.to_nat (L + 1)) (repeat root m))
       (tag (L + 1) (level (Z.to_nat (L + 1)) (repeat root m))), tr)
  = Some (state_of (Some root) L'
            (levels_below (Z.to_nat (L' + 1)) (repeat root m))
            (if L' <? -1 then []
             else tag (L' + 1) (level (Z.to_nat (L' + 1)) (repeat root m)))
            (if L <=? L'
             then fold_left materialize
                    (levels_from (Z.to_nat (L + 1))
                       (Z.to_nat (L' + 1) - Z.to_nat (L + 1)) (repeat root m))
                    (o, tr)
             else fold_left dematerialize
                    (rev (levels_from (Z.to_nat (L' + 1))
                            (Z.to_nat (L + 1) - Z.to_nat (L' + 1)) (repeat root m)))
                    (o, tr))).
Proof.
  intros HL Hm. set (F := repeat root m). set (j := Z.to_nat (L + 1)).
  set (j' := Z.to_nat (L' + 1)).
  rewrite set_depth_limit_unfold.
  destruct (Z.leb_spec L L') as [Hle|Hlt].
  - set (k := (j' - j)%nat).
    assert (Forall (fun e => fst e <= L') (levels_below j F)) as Hp.
    { eapply Forall_impl; [apply levels_below_depths|]. simpl. intros e He. lia. }
    rewrite <- (app_nil_r (levels_below j F)) at 1.
    rewrite (_draw_tree_next root root L' o tr (levels_below j F) [] _);
      [| | exact Hp | constructor].
    2:{ rewrite app_nil_r. apply drawn_nonempty; lia. }
    cbn [List.filter app rev fold_left]. cbv zeta.
    replace (L + 1) with (Z.of_nat j) by lia.
    replace (L' <? -1) with false by lia.
    replace j' with (j + k)%nat by lia. rewrite levels_below_app.
    apply grow_loop_exact. apply (grow_levels (Some root) L' F k j). lia.
  - assert (exists k, j = (j' + S k)%nat) as [k Hk].
    { exists (j - j' - 1)%nat. lia. }
    replace (j - j')%nat with (S k) by lia.
    rewrite Hk, levels_below_app.
    assert (Forall (fun e => fst e <= L') (levels_below j' F)) as Hp.
    { eapply Forall_impl; [apply levels_below_depths|]. simpl. intros e He. lia. }
    assert (Forall (fun e => L' < fst e) (levels_from j' (S k) F)) as Hs.
    { eapply Forall_impl; [apply levels_from_depths|]. simpl. intros e He. lia. }
    assert (levels_below j' F ++ levels_from j' (S k) F <> []) as Hne.
    { rewrite <- levels_below_app. apply drawn_nonempty; lia. }
    rewrite (_draw_tree_next root root L' o tr _ _ _ Hne Hp Hs). cbv zeta.
    destruct (Z.ltb_spec L' (-1)) as [Hlow|Hge].
    + rewrite filter_none.
      2:{ eapply Forall_impl; [apply levels_from_depths|]. simpl. intros e He. lia. }
      destruct (levels_from j' (S k) F) as [|e0 l0] eqn:E.
      { exfalso. apply Hne. rewrite app_nil_r.
        replace j' with O by lia. reflexivity. }
      cbv iota. apply grow_stop. constructor.
    + replace (L' + 1) with (Z.of_nat j') by lia. rewrite filter_levels_from.
      assert (levels_from j' (S k) F = [] ->
              tag (L + 1) (level (j' + S k) F) = []) as Htail.
      { intros E. simpl in E. apply app_eq_nil in E as [E _]. apply tag_nil_inv in E.
        rewrite (level_empty_later j' (S k) F E). reflexivity. }
      destruct (levels_from j' (S k) F) as [|e0 l0] eqn:E.
      * rewrite (Htail eq_refl). cbv iota. rewrite app_nil_r.
        apply grow_stop. apply (tag_depths (fun z => L' < z)). lia.
      * cbv iota. rewrite app_nil_r.
        apply grow_stop. apply (tag_depths (fun z => L' < z)). lia.
Qed.

(** A run that ends with the limit [L] leaves a good viewer at that
    limit. *)
Lemma run_last root md limits L v0 :
  exists s, run root md (limits ++ [L]) v0 = Some s /\ good root (fst s)
            /\ _depth_limit (fst s) = L.
Proof.
  rewrite run_snoc.
  destruct (run_good root md limits v0) as [s [-> [Hg _]]].
  destruct (set_depth_limit_good root s L Hg) as [s' [-> [_ [Hg' HL]]]].
  exists s'. auto.
Qed.

Lemma run_app root md l1 l2 v0 :
  run root md (l1 ++ l2) v0 =
  match run root md l1 v0 with
  | Some s => set_depth_limits l2 s
  | None => None
  end.
Proof.
  unfold run. destruct (set_tree root md (v0, [])) as [s|]; [|reflexivity].
  apply set_depth_limits_app.
Qed.

(** The depths of the drawn entries of a consistent viewer. *)
Lemma consistent_depths root v :
  consistent root v -> Forall (fun e => fst e <= _depth_limit v) (_drawn_nodes v).
Proof.
  intros [_ [m [_ [-> _]]]].
  eapply Forall_impl; [apply levels_below_depths|]. simpl. intros e He. lia.
Qed.

(** Entries beyond a limit are no part of a deque within it. *)
Lemma beyond_nil (L L' : Z) (kept removed : list (Z * TreeNode Sq)) :
  L <= L' ->
  Forall (fun e => fst e <= L) (kept ++ removed) ->
  Forall (fun e => L' < fst e) removed ->
  removed = [].
Proof.
  intros HL Hall Hrem. destruct removed as [|e r]; [reflexivity|].
  apply Forall_app in Hall as [_ Hall].
  apply Forall_cons in Hall as [H1 _]. apply Forall_cons in Hrem as [H2 _]. lia.
Qed.

(** A call that does not lower the limit removes nothing: entries are
    added at the back of the drawn deque and shown or created. *)
Lemma call_not_lower root v tr L' :
  good root v -> _depth_limit v <= L' ->
  exists v' added evs,
    set_depth_limit L' (v, tr) = Some (v', tr ++ evs) /\
    _drawn_nodes v' = _drawn_nodes v ++ added /\
    shows_or_creates added evs.
Proof.
  intros Hg HL.
  destruct (set_depth_limit_good root (v, tr) L' Hg) as [s' [Hs [Hr _]]].
  cbn [fst snd] in Hr.
  destruct Hr as [m [kept [removed [added [Hd [_ [Hrem [_ [_ ->]]]]]]]]].
  assert (removed = []) as ->.
  { apply (beyond_nil (_depth_limit v) L' kept); [exact HL | | exact Hrem].
    rewrite <- Hd. apply (consistent_depths root). apply Hg. }
  cbn [rev fold_left] in Hs. rewrite app_nil_r in Hd.
  destruct (fold_materialize_trace added (_square_objects v, tr)) as [evs [Ht Hsc]].
  cbn [snd] in Ht.
  eexists _, added, evs. unfold state_of in Hs. rewrite Ht in Hs.
  split; [exact Hs|]. cbn [_drawn_nodes]. rewrite Hd. auto.
Qed.

(** A call that does not raise the limit adds nothing: the entries
    beyond the new limit leave the back of the drawn deque, and their
    items are hidden. *)
Lemma call_not_raise root v tr L' :
  good root v -> L' <= _depth_limit v ->
  exists kept removed fr,
    set_depth_limit L' (v, tr) =
      Some (state_of (Some root) L' kept fr
              (fold_left dematerialize (rev removed) (_square_objects v, tr))) /\
    _drawn_nodes v = kept ++ removed /\
    Forall (fun e => L' < fst e) removed.
Proof.
  intros Hg HL. destruct (Z.lt_ge_cases (_depth_limit v) 0) as [Hneg|Hpos].
  - destruct (set_depth_limit_good root (v, tr) L' Hg) as [s' [Hs [Hr _]]].
    cbn [fst snd] in Hr.
    destruct Hr as [m [kept [removed [added [Hd [_ [Hrem [Hk [_ ->]]]]]]]]].
    replace (Z.to_nat (L' + 1)) with O in Hk by lia. cbn [levels_below] in Hk.
    apply app_eq_nil in Hk as [-> ->]. cbn [fold_left app] in Hs.
    eexists [], removed, _. split; [exact Hs|]. split; [exact Hd | exact Hrem].
  - destruct Hg as [[Ht [m [Hm [Hd Hf]]]] _]. destruct v as [t L o D fr].
    cbn in Ht, Hm, Hd, Hf, HL, Hpos. cbn [_drawn_nodes _square_objects].
    replace (Z.max 0 (L + 1)) with (L + 1) in Hf by lia. subst t D fr.
    rewrite (redraw_exact root L L' m o tr Hpos ltac:(lia)).
    set (j := Z.to_nat (L + 1)). set (j' := Z.to_nat (L' + 1)).
    destruct (Z.leb_spec L L') as [Hle|Hlt].
    + assert (L' = L) as HLL by lia. replace (j' - j)%nat with O by lia.
      cbn [levels_from fold_left].
      eexists _, [], _. cbn [rev fold_left]. split; [reflexivity|].
      split; [|constructor]. rewrite app_nil_r.
      replace j' with j by lia. reflexivity.
    + eexists _, _, _. split; [reflexivity|]. split.
      * replace j with (j' + (j - j'))%nat at 1 by lia. apply levels_below_app.
      * eapply Forall_impl; [apply levels_from_depths|]. simpl. intros e He. lia.
Qed.

(** The trace of hiding the entries of a suffix of the drawn deque. *)
Lemma hide_trace root v tr kept removed :
  good root v -> _drawn_nodes v = kept ++ removed ->
  snd (fold_left dematerialize (rev removed) (_square_objects v, tr)) =
  tr ++ hides removed.
Proof.
  intros [_ [[Hh _] _]] Hd.
  apply (fold_dematerialize_trace (rev removed) (_square_objects v, tr)).
  intros e He. cbn [fst]. apply Hh. rewrite Hd. apply in_or_app. right.
  apply in_rev. exact He.
Qed.

(** The depths of the levels, in the order of the deque. *)
Lemma tag_sorted (d : Z) ns : StronglySorted Z.le (map fst (tag d ns)).
Proof.
  induction ns as [|n ns IH]; cbn; constructor; [exact IH|].
  apply List.Forall_forall. intros z Hz. apply in_map_iff in Hz as [e [<- He]].
  apply in_map_iff in He as [n' [<- _]]. cbn. lia.
Qed.

Lemma levels_below_sorted k F : StronglySorted Z.le (map fst (levels_below k F)).
Proof.
  induction k as [|k IH]; [constructor|].
  cbn [levels_below]. rewrite map_app. apply StronglySorted_app_2.
  - intros z1 z2 H1 H2. apply list_elem_of_In in H1, H2.
    apply in_map_iff in H1 as [e1 [<- H1]]. apply in_map_iff in H2 as [e2 [<- H2]].
    pose proof (levels_below_depths k F) as Hd.
    rewrite List.Forall_forall in Hd. specialize (Hd e1 H1).
    apply in_map_iff in H2 as [n' [<- _]]. cbn. lia.
  - exact IH.
  - apply tag_sorted.
Qed.

(** Hiding never removes an item from the table, and never adds one. *)
Lemma fold_dematerialize_dom xs : forall ot l,
  is_Some (fst (fold_left dematerialize xs ot) !! l) <-> is_Some (fst ot !! l).
Proof.
  induction xs as [|e xs IH]; intros ot l; [reflexivity|].
  cbn [fold_left]. rewrite IH, dematerialize_lookup.
  destruct (decide (label (snd e) = l)); [|reflexivity].
  destruct (fst ot !! l); split; intros [b' Hb]; try discriminate; eauto.
Qed.

(** The items of a call stay in the table. *)
Lemma redrawn_keeps root L' v tr s' l :
  redrawn root L' v tr s' ->
  is_Some (_square_objects v !! l) -> is_Some (_square_objects (fst s') !! l).
Proof.
  intros [m [kept [removed [added [_ [_ [_ [_ [_ ->]]]]]]]]] H.
  cbn [state_of fst _square_objects].
  apply fold_materialize_keeps, fold_dematerialize_keeps. exact H.
Qed.

Lemma set_depth_limits_keeps root limits : forall s,
  good root (fst s) ->
  exists s', set_depth_limits limits s = Some s' /\
    forall l, is_Some (_square_objects (fst s) !! l) ->
              is_Some (_square_objects (fst s') !! l).
Proof.
  induction limits as [|L limits IH]; intros s Hg.
  - exists s. split; [reflexivity | auto].
  - destruct (set_depth_limit_good root s L Hg) as [s1 [Hs1 [Hr [Hg1 _]]]].
    destruct (IH s1 Hg1) as [s' [Hs' Hk]].
    exists s'. cbn [set_depth_limits]. rewrite Hs1. split; [exact Hs'|].
    intros l Hl. apply Hk. eapply redrawn_keeps; eassumption.
Qed.

End ControllerLaws.

(** X6. After [set_tree] and any run of [set_depth_limit] calls the
    drawn deque is ordered by depth, shallowest entry first: the order
    [_depth_was_decreased] and the shrinking loop rely on when they look
    at the back of the deque only. *)
Theorem drawn_nodes_sorted_by_depth {Sq} (root : TreeNode Sq) (max_depth : Z)
    (v0 : PythagorasTreeViewer Sq) (limits : list Z) :
  exists v tr,
    run root max_depth limits v0 = Some (v, tr) /\
    StronglySorted Z.le (map fst (_drawn_nodes v)).
Proof.
  destruct (run_good root max_depth limits v0) as [[v tr] [Hs [Hg _]]].
  exists v, tr. split; [exact Hs|].
  destruct Hg as [[_ [m [_ [Hd _]]]] _]. cbn [fst] in Hd. rewrite Hd.
  apply levels_below_sorted.
Qed.

(** X7. After a run that ends with a limit [L >= -1] the frontier
    holds exactly the nodes of the level just below the limit, each with
    the depth [L + 1]: what the next increase of the limit starts from. *)
Theorem frontier_is_next_level {Sq} (root : TreeNode Sq) (max_depth : Z)
    (v0 : PythagorasTreeViewer Sq) (limits : list Z) (L : Z) :
  -1 <= L ->
  exists v tr,
    run root max_depth (limits ++ [L]) v0 = Some (v, tr) /\
    forall d n, In (d, n) (_frontier v) <->
                d = L + 1 /\ In n (level (Z.to_nat (L + 1)) [root]).
Proof.
  intros HL.
  destruct (run_last root max_depth limits L v0) as [[v tr] [Hs [Hg HLv]]].
  exists v, tr. split; [exact Hs|]. cbn [fst] in Hg, HLv.
  destruct Hg as [[_ [m [Hm [_ Hf]]]] _]. rewrite Hf, HLv in *.
  intros d n. rewrite In_tag, In_level_repeat.
  replace (Z.max 0 (L + 1)) with (L + 1) by lia.
  specialize (Hm HL). tauto.
Qed.

Lemma frontier_is_next_level_witness :
  -1 <= 0 /\
  exists v tr,
    run tree7 2 ([0; 2; -3] ++ [0]) (init 0) = Some (v, tr) /\
    forall d n, In (d, n) (_frontier v) <->
                d = 0 + 1 /\ In n (level (Z.to_nat (0 + 1)) [tree7]).
Proof.
  split; [lia|]. apply (frontier_is_next_level tree7 2 (init 0) [0; 2; -3] 0). lia.
Defined.

(** X8. Graphics items are never evicted while the tree stays set: a
    label that has an item after some run of [set_depth_limit] calls
    still has it after any further calls. *)
Theorem items_never_evicted {Sq} (root : TreeNode Sq) (max_depth : Z)
    (v0 : PythagorasTreeViewer Sq) (limits more : list Z) :
  exists v tr v' tr',
    run root max_depth limits v0 = Some (v, tr) /\
    run root max_depth (limits ++ more) v0 = Some (v', tr') /\
    forall l, is_Some (_square_objects v !! l) -> is_Some (_square_objects v' !! l).
Proof.
  rewrite run_app.
  destruct (run_good root max_depth limits v0) as [[v tr] [-> [Hg _]]].
  destruct (set_depth_limits_keeps root more (v, tr) Hg) as [[v' tr'] [-> Hk]].
  exists v, tr, v', tr'. auto.
Qed.

(** X9. A call that does not lower the limit hides nothing: the drawn
    deque only grows at its back, and each event of the call is a show
    or a create of an entry that joined. *)
Theorem raising_limit_hides_nothing {Sq} (root : TreeNode Sq) (max_depth : Z)
    (v0 : PythagorasTreeViewer Sq) (limits : list Z) (L L' : Z) :
  L <= L' ->
  exists v tr v' added evs,
    run root max_depth (limits ++ [L]) v0 = Some (v, tr) /\
    set_depth_limit L' (v, tr) = Some (v', tr ++ evs) /\
    _drawn_nodes v' = _drawn_nodes v ++ added /\
    shows_or_creates added evs /\
    Forall (fun ev => is_hide ev = false) evs.
Proof.
  intros HL.
  destruct (run_last root max_depth limits L v0) as [[v tr] [Hs [Hg HLv]]].
  cbn [fst] in Hg, HLv.
  destruct (call_not_lower root v tr L' Hg ltac:(lia)) as [v' [added [evs [Hc [Hd Hsc]]]]].
  exists v, tr, v', added, evs. repeat (split; [assumption|]).
  clear -Hsc. induction Hsc as [|e ev added evs [-> | ->] _ IH];
    constructor; auto.
Qed.

Lemma raising_limit_hides_nothing_witness :
  exists v tr v' added evs,
    run tree7 2 ([2; -1] ++ [0]) (init 0) = Some (v, tr) /\
    set_depth_limit 1 (v, tr) = Some (v', tr ++ evs) /\
    _drawn_nodes v' = _drawn_nodes v ++ added /\
    shows_or_creates added evs /\
    Forall (fun ev => is_hide ev = false) evs.
Proof.
  apply (raising_limit_hides_nothing tree7 2 (init 0) [2; -1] 0 1). lia.
Defined.

(** X10. A call that does not raise the limit draws nothing new: the
    entries beyond the new limit leave the back of the drawn deque, the
    call emits one hide for each of them, deepest and rightmost first,
    and nothing else, and the labels that have an item are the same
    before and after. *)
Theorem lowering_limit_only_hides {Sq} (root : TreeNode Sq) (max_depth : Z)
    (v0 : PythagorasTreeViewer Sq) (limits : list Z) (L L' : Z) :
  L' <= L ->
  exists v tr v' removed,
    run root max_depth (limits ++ [L]) v0 = Some (v, tr) /\
    set_depth_limit L' (v, tr) = Some (v', tr ++ hides removed) /\
    _drawn_nodes v = _drawn_nodes v' ++ removed /\
    Forall (fun e => L' < fst e) removed /\
    forall l, is_Some (_square_objects v' !! l) <-> is_Some (_square_objects v !! l).
Proof.
  intros HL.
  destruct (run_last root max_depth limits L v0) as [[v tr] [Hs [Hg HLv]]].
  cbn [fst] in Hg, HLv.
  destruct (call_not_raise root v tr L' Hg ltac:(lia))
    as [kept [removed [fr [Hc [Hd Hrem]]]]].
  unfold state_of in Hc. rewrite (hide_trace root v tr kept removed Hg Hd) in Hc.
  eexists v, tr, _, removed. split; [exact Hs|]. split; [exact Hc|].
  cbn [_drawn_nodes _square_objects]. split; [exact Hd|]. split; [exact Hrem|].
  intros l. apply (fold_dematerialize_dom (rev removed) (_square_objects v, tr)).
Qed.

Lemma lowering_limit_only_hides_witness :
  exists v tr v' removed,
    run tree7 2 ([0] ++ [2]) (init 0) = Some (v, tr) /\
    set_depth_limit 0 (v, tr) = Some (v', tr ++ hides removed) /\
    _drawn_nodes v = _drawn_nodes v' ++ removed /\
    Forall (fun e => 0 < fst e) removed /\
    forall l, is_Some (_square_objects v' !! l) <-> is_Some (_square_objects v !! l).
Proof.
  apply (lowering_limit_only_hides tree7 2 (init 0) [0] 2 0). lia.
Defined.

(** X11. Asking again for the limit that is already in force changes
    nothing on the scene: the call emits no event and leaves the drawn
    deque and the table of items as they were. *)
Theorem same_limit_is_silent {Sq} (root : TreeNode Sq) (max_depth : Z)
    (v0 : PythagorasTreeViewer Sq) (limits : list Z) (L : Z) :
  exists v tr v',
    run root max_depth (limits ++ [L]) v0 = Some (v, tr) /\
    set_depth_limit L (v, tr) = Some (v', tr) /\
    _drawn_nodes v' = _drawn_nodes v /\
    _square_objects v' = _square_objects v.
Proof.
  destruct (run_last root max_depth limits L v0) as [[v tr] [Hs [Hg HLv]]].
  cbn [fst] in Hg, HLv.
  destruct (call_not_raise root v tr L Hg ltac:(lia))
    as [kept [removed [fr [Hc [Hd Hrem]]]]].
  assert (removed = []) as ->.
  { apply (beyond_nil (_depth_limit v) L kept); [lia | | exact Hrem].
    rewrite <- Hd. apply (consistent_depths root). apply Hg. }
  cbn [rev fold_left state_of fst snd] in Hc. rewrite app_nil_r in Hd.
  eexists v, tr, _. split; [exact Hs|]. split; [exact Hc|].
  cbn [_drawn_nodes _square_objects]. auto.
Qed.

End ViewerLaws.

(* ===================================================================== *)
(** * Laws of the layout engine *)
(* ===================================================================== *)

Module GeometryLaws.
Import Geometry GeometryFacts Notions.

Section EngineLaws.

Context {F : Type} {ops : FloatOps F}.
Implicit Types (tree : TreeAdapter F) (sq P : Square F) (s slopes : slopes_memo F).

Lemma map_children_each
    (f : Z -> slopes_memo F -> option (TreeNode (Square F) * slopes_memo F)) cs :
  forall s ns s', map_children f cs s = Some (ns, s') ->
  Forall2 (fun c n => exists s1 s2, f c s1 = Some (n, s2)) cs ns.
Proof.
  induction cs as [|c cs IH]; intros s ns s' H; cbn in H.
  - injection H as <- _. constructor.
  - destruct (f c s) as [[n s1]|] eqn:E; [|discriminate].
    destruct (map_children f cs s1) as [[ns1 s2]|] eqn:E2; [|discriminate].
    injection H as <- _. constructor; [eauto | eapply IH; eassumption].
Qed.

Lemma map_children_none
    (f : Z -> slopes_memo F -> option (TreeNode (Square F) * slopes_memo F)) cs c :
  In c cs -> (forall s, f c s = None) -> forall s, map_children f cs s = None.
Proof.
  intros Hin Hf. induction cs as [|c' cs IH]; [contradiction|]. intros s. cbn.
  destruct Hin as [->|Hin].
  - rewrite Hf. reflexivity.
  - destruct (f c' s) as [[n s1]|]; [|reflexivity]. rewrite (IH Hin s1). reflexivity.
Qed.

(** Fuel that is enough bounds the height of what the adapter
    describes. *)
Lemma pythagoras_tree_height tree n : forall node sq s r,
  pythagoras_tree n tree node sq s = Some r -> height_below tree n node.
Proof.
  induction n as [|n IH]; intros node sq s r H; [discriminate|].
  rewrite pythagoras_tree_eq in H. constructor.
  match type of H with
  | context [map_children ?f ?cs ?s0] =>
      destruct (map_children f cs s0) as [[ns s1]|] eqn:E; [|discriminate]
  end.
  apply map_children_each in E. clear H.
  induction E as [|c n' cs ns' [s2 [s3 Hc]] _ IHE]; constructor; [|exact IHE].
  rewrite _compute_child_eq in Hc. eapply IH. exact Hc.
Qed.

Lemma all_mirrors tree (cs : list (TreeNode (Square F))) :
  (fix all (cs : list (TreeNode (Square F))) : Prop :=
     match cs with
     | [] => True
     | c :: cs' => mirrors tree c /\ all cs'
     end) cs <-> List.Forall (mirrors tree) cs.
Proof.
  induction cs as [|c cs IH]; [split; constructor|]. rewrite IH. split.
  - intros [H1 H2]. constructor; assumption.
  - intros H. inversion H. auto.
Qed.

Lemma mirrors_set_parent tree p (n : TreeNode (Square F)) :
  mirrors tree n -> mirrors tree (set_parent p n).
Proof. destruct n. intros H. exact H. Qed.

Lemma pythagoras_tree_mirrors tree fuel : forall node sq s t s',
  pythagoras_tree fuel tree node sq s = Some (t, s') ->
  label t = node /\ square t = sq /\ parent t = adapter_parent tree node
  /\ mirrors tree t.
Proof.
  induction fuel as [|fuel IH]; intros node sq s t s' H; [discriminate|].
  rewrite pythagoras_tree_eq in H.
  match type of H with
  | context [map_children ?f ?cs ?s0] =>
      destruct (map_children f cs s0) as [[ns s1]|] eqn:E; [|discriminate]
  end.
  injection H as <- _. cbn [label square parent]. repeat (split; [reflexivity|]).
  apply map_children_each in E. cbn [mirrors]. rewrite all_mirrors.
  induction E as [|c n' cs ns' [s2 [s3 Hc]] _ IHE]; [repeat split; constructor|].
  rewrite _compute_child_eq in Hc. apply IH in Hc as [Hl [_ [_ Hm]]].
  destruct IHE as [H1 [H2 H3]]. cbn [map]. split; [|split].
  - f_equal; [exact Hl | exact H1].
  - f_equal. exact H2.
  - constructor; [apply mirrors_set_parent; exact Hm | exact H3].
Qed.

End EngineLaws.

(** ** Without collisions in the memo *)

Section Distinct.

Context {F : Type} {ops : FloatOps F}.
Implicit Types (tree : TreeAdapter F) (sq P Q : Square F) (s : slopes_memo F).
Implicit Types (t n : TreeNode (Square F)) (ns : list (TreeNode (Square F))).

(** [==] decides equality, as it does on the real numbers, and on
    floats apart from NaN and the two zeros. *)
Hypothesis eqb_eq : forall a b : F, eqb a b = true <-> a = b.













End Distinct.

(** X12. The layout returns within [n] nested calls exactly when the
    adapter describes, under the node it starts from, a tree of height
    below [n].  On an adapter whose [children] lead back to a node the
    recursion has no end, whatever the squares and the memo. *)
Theorem layout_returns_iff_finite {F} {ops : FloatOps F} (tree : TreeAdapter F)
    (n : nat) (node : Z) (sq : Square F) (s : slopes_memo F) :
  (exists r, pythagoras_tree n tree node sq s = Some r) <-> height_below tree n node.
Proof.
  split.
  - intros [r H]. eapply pythagoras_tree_height. exact H.
  - intros H. apply pythagoras_tree_total. exact H.
Qed.

(** X13. The tree the layout returns has the shape the adapter
    describes: the node carries the label and the square it was called
    with and the parent the adapter reports, and at every level the
    children are the adapter's children of the label, in the adapter's
    order, each pointing back to its parent's label. *)
Theorem layout_mirrors_adapter {F} {ops : FloatOps F} (tree : TreeAdapter F)
    (n : nat) (node : Z) (sq : Square F) (s : slopes_memo F) :
  height_below tree n node ->
  exists t s',
    pythagoras_tree n tree node sq s = Some (t, s') /\
    label t = node /\ square t = sq /\ parent t = adapter_parent tree node /\
    mirrors tree t.
Proof.
  intros H. destruct (pythagoras_tree_total tree n node H sq s) as [[t s'] Hr].
  exists t, s'. split; [exact Hr|]. eapply pythagoras_tree_mirrors. exact Hr.
Qed.

Lemma layout_mirrors_adapter_witness :
  exists t s',
    pythagoras_tree 2 two_halves (root two_halves) initial_square [] = Some (t, s') /\
    label t = root two_halves /\ square t = initial_square /\
    parent t = adapter_parent two_halves (root two_halves) /\
    mirrors two_halves t.
Proof.
  apply (layout_mirrors_adapter two_halves 2 (root two_halves) initial_square []).
  exact two_halves_height.
Defined.




(** ** Over the real numbers *)

Local Open Scope R_scope.











End GeometryLaws.

(* ===================================================================== *)
(** * Facts about the scikit-learn adapter *)
(* ===================================================================== *)

Module AdapterFacts.
Import Rules Adapter Notions.

Local Open Scope string_scope.
Local Open Scope Z_scope.
Local Open Scope list_scope.

(** ** Arrays *)

Lemma bind_ret {A B} (a : A) (k : A -> out B) : bind (ret a) k = k a.
Proof. unfold bind, ret. destruct (k a). reflexivity. Qed.

Lemma index_nat {A} (arr : list A) (p : nat) (a : A) :
  arr !! p = Some a -> index arr (Z.of_nat p) = ret a.
Proof.
  intros H. pose proof (lookup_lt_Some _ _ _ H) as Hlt. unfold index.
  replace (Z.of_nat p <? 0) with false by lia.
  replace ((0 <=? Z.of_nat p) && (Z.of_nat p <? Z.of_nat (List.length arr)))
    with true by lia.
  rewrite Nat2Z.id, H. reflexivity.
Qed.

Lemma index_returns {A} (arr : list A) (i : Z) (a : A) (w : list string) :
  0 <= i -> index arr i = (inl a, w) -> arr !! Z.to_nat i = Some a /\ w = [].
Proof.
  intros Hi. unfold index. replace (i <? 0) with false by lia.
  destruct ((0 <=? i) && (i <? _)); [|discriminate].
  destruct (arr !! Z.to_nat i) as [a'|]; [|discriminate].
  intros [= -> <-]. auto.
Qed.

(** The search for the first entry equal to [node]. *)
Lemma first_index_Some node arr : forall i j,
  first_index node arr i = Some j ->
  exists k : nat, j = i + Z.of_nat k /\ arr !! k = Some node.
Proof.
  induction arr as [|c arr IH]; intros i j H; [discriminate|]. cbn in H.
  destruct (Z.eqb_spec c node) as [->|Hne].
  - injection H as <-. exists O. split; [lia | reflexivity].
  - destruct (IH _ _ H) as [k [-> Hk]]. exists (S k). split; [lia | exact Hk].
Qed.

Lemma first_index_None node arr : forall i,
  first_index node arr i = None <-> ~ In node arr.
Proof.
  induction arr as [|c arr IH]; intros i; cbn; [tauto|].
  destruct (Z.eqb_spec c node) as [->|Hne].
  - split; [discriminate | tauto].
  - rewrite IH. tauto.
Qed.

Lemma In_lookup {A} (l : list A) (a : A) : In a l <-> exists k : nat, l !! k = Some a.
Proof. rewrite <- list_elem_of_In. apply list_elem_of_lookup. Qed.

(** An entry other than [-1] occurs at one place only of the two
    arrays of children. *)
Lemma NoDup_filter_lookup (l : list Z) (i j : nat) (c : Z) :
  NoDup (List.filter (fun c => negb (c =? -1)) l) ->
  c <> -1 -> l !! i = Some c -> l !! j = Some c -> i = j.
Proof.
  revert i j. induction l as [|a l IH]; intros i j Hnd Hc Hi Hj; [discriminate|].
  cbn [List.filter] in Hnd.
  assert (forall k : nat, l !! k = Some c ->
            In c (List.filter (fun c => negb (c =? -1)) l)) as Hin.
  { intros k Hk. apply List.filter_In. split.
    - apply In_lookup. eauto.
    - apply negb_true_iff, Z.eqb_neq, Hc. }
  destruct (Z.eqb_spec a (-1)) as [->|Ha]; cbn [negb] in Hnd.
  - destruct i as [|i]; [cbn in Hi; congruence|].
    destruct j as [|j]; [cbn in Hj; congruence|].
    f_equal. apply IH; assumption.
  - apply NoDup_cons in Hnd as [Hnotin Hnd']. rewrite list_elem_of_In in Hnotin.
    destruct i as [|i], j as [|j]; cbn in Hi, Hj.
    + reflexivity.
    + injection Hi as ->. exfalso. apply Hnotin. eapply Hin, Hj.
    + injection Hj as ->. exfalso. apply Hnotin. eapply Hin, Hi.
    + f_equal. apply IH; assumption.
Qed.

(** ** Parents and children *)

Section Navigation.

Context {number : Type}.
Implicit Types (self : SklTreeAdapter number) (c node : Z) (p k : nat).

Lemma parent_of_left self p c :
  sklearn_shaped self -> c <> -1 ->
  children_left (_tree self) !! p = Some c -> parent self c = Z.of_nat p.
Proof.
  intros Hs Hc Hp. unfold parent.
  destruct (first_index c (children_left (_tree self)) 0) as [j|] eqn:E.
  - apply first_index_Some in E as [k [-> Hk]].
    rewrite (NoDup_filter_lookup _ k p c (shaped_once self Hs) Hc); [lia | |].
    + apply lookup_app_l_Some, Hk.
    + apply lookup_app_l_Some, Hp.
  - apply first_index_None in E. exfalso. apply E, In_lookup. eauto.
Qed.

Lemma parent_of_right self p c :
  sklearn_shaped self -> c <> -1 ->
  children_right (_tree self) !! p = Some c -> parent self c = Z.of_nat p.
Proof.
  intros Hs Hc Hp. unfold parent.
  set (n := List.length (children_left (_tree self))).
  assert ((children_left (_tree self) ++ children_right (_tree self)) !! (n + p)%nat
          = Some c) as Hp'.
  { rewrite lookup_app_r by (unfold n; lia).
    replace (n + p - List.length (children_left (_tree self)))%nat with p
      by (unfold n; lia).
    exact Hp. }
  destruct (first_index c (children_left (_tree self)) 0) as [j|] eqn:E.
  - apply first_index_Some in E as [k [_ Hk]]. exfalso.
    pose proof (lookup_lt_Some _ _ _ Hk) as Hlt.
    assert (k = (n + p)%nat); [|unfold n in *; lia].
    apply (NoDup_filter_lookup _ k (n + p) c (shaped_once self Hs) Hc);
      [apply lookup_app_l_Some, Hk | exact Hp'].
  - destruct (first_index c (children_right (_tree self)) 0) as [j|] eqn:E'.
    + apply first_index_Some in E' as [k [-> Hk]].
      assert ((n + k)%nat = (n + p)%nat); [|lia].
      apply (NoDup_filter_lookup _ (n + k) (n + p) c (shaped_once self Hs) Hc);
        [|exact Hp'].
      rewrite lookup_app_r by (unfold n; lia).
      replace (n + k - List.length (children_left (_tree self)))%nat with k
        by (unfold n; lia).
      exact Hk.
    + apply first_index_None in E'. exfalso. apply E', In_lookup. eauto.
Qed.

(** The parent of a node of a well-shaped tree other than the root: a
    node with a smaller number, one of whose children it is. *)
Lemma parent_found self node :
  sklearn_shaped self ->
  0 < node < Z.of_nat (List.length (children_left (_tree self))) ->
  exists p, parent self node = Z.of_nat p /\ Z.of_nat p < node /\
    (children_left (_tree self) !! p = Some node
     \/ children_right (_tree self) !! p = Some node).
Proof.
  intros Hs Hn. pose proof (shaped_reached self Hs node Hn) as Hin.
  apply in_app_or in Hin as [Hin|Hin]; apply In_lookup in Hin as [p Hp]; exists p.
  - split; [apply parent_of_left; [assumption | lia | assumption]|].
    split; [|auto]. destruct (shaped_after self Hs p node (or_introl Hp)); lia.
  - split; [apply parent_of_right; [assumption | lia | assumption]|].
    split; [|auto]. destruct (shaped_after self Hs p node (or_intror Hp)); lia.
Qed.

Lemma parent_of_root self : sklearn_shaped self -> parent self root = ROOT_PARENT_INDEX.
Proof.
  intros Hs. unfold parent.
  destruct (first_index root (children_left (_tree self)) 0) as [j|] eqn:E.
  { apply first_index_Some in E as [k [_ Hk]].
    destruct (shaped_after self Hs k root (or_introl Hk)); unfold root in *; lia. }
  destruct (first_index root (children_right (_tree self)) 0) as [j|] eqn:E'.
  { apply first_index_Some in E' as [k [_ Hk]].
    destruct (shaped_after self Hs k root (or_intror Hk)); unfold root in *; lia. }
  reflexivity.
Qed.

(** What [children] returns on a node that exists. *)
Lemma children_returns self node (cs : list Z) (w : list string) :
  0 <= node -> children self node = (inl cs, w) ->
  w = [] /\
  (cs = [] \/
   exists l r, cs = [l; r]
     /\ children_left (_tree self) !! Z.to_nat node = Some l
     /\ children_right (_tree self) !! Z.to_nat node = Some r).
Proof.
  intros Hn. unfold children, has_children, _left_child, _right_child.
  destruct (index (children_left (_tree self)) node) as [[l|e] w1] eqn:El;
    [|discriminate].
  apply index_returns in El as [Hl ->]; [|exact Hn]. cbn [bind].
  destruct (index (children_right (_tree self)) node) as [[r|e] w2] eqn:Er.
  - apply index_returns in Er as [Hr ->]; [|exact Hn].
    destruct (negb (l =? -1)); cbn; [|destruct (negb (r =? -1)); cbn];
      intros [= <- <-]; split; eauto 10.
  - destruct (negb (l =? -1)); cbn; discriminate.
Qed.

End Navigation.


(** X19. [parent] inverts [children] on a tree shaped as scikit-learn
    builds it: both nodes [children] returns for a node have that node as
    their parent, and the root has the parent index [-1]. *)
Theorem parent_inverts_children {number} (self : SklTreeAdapter number)
    (node l r : Z) (w : list string) :
  sklearn_shaped self -> 0 <= node ->
  children self node = (inl [l; r], w) ->
  (l <> -1 -> parent self l = node) /\
  (r <> -1 -> parent self r = node) /\
  parent self root = ROOT_PARENT_INDEX.
Proof.
  intros Hs Hn Hc. apply children_returns in Hc as [_ [Hc|Hc]]; [discriminate| |exact Hn].
  destruct Hc as [l' [r' [[= <- <-] [Hl Hr]]]].
  split; [|split].
  - intros Hne. rewrite (parent_of_left self _ l Hs Hne Hl). lia.
  - intros Hne. rewrite (parent_of_right self _ r Hs Hne Hr). lia.
  - apply parent_of_root, Hs.
Qed.

Lemma numeric_sample_shaped : sklearn_shaped numeric_sample.
Proof.
  split; cbn; try reflexivity.
  - intros p c H.
    do 7 (destruct p as [|p]; [cbn in H; destruct H as [[= <-]|[= <-]]; lia|]).
    cbn in H. destruct H; discriminate.
  - repeat (apply NoDup_cons_2; [rewrite list_elem_of_In; cbn; intuition lia|]).
    apply NoDup_nil_2.
  - intros c Hc.
    assert (c = 1 \/ c = 2 \/ c = 3 \/ c = 4 \/ c = 5 \/ c = 6) as H by lia.
    intuition subst; tauto.
Qed.

Lemma parent_inverts_children_witness :
  (2 <> -1 -> parent numeric_sample 2 = 1) /\
  (5 <> -1 -> parent numeric_sample 5 = 1) /\
  parent numeric_sample root = ROOT_PARENT_INDEX.
Proof.
  apply (parent_inverts_children numeric_sample 1 2 5 []);
    [exact numeric_sample_shaped | lia | reflexivity].
Defined.

(** ** The ordered dictionary of [rules] *)

Section Dictionary.

Context {number : Type}.
Implicit Types (d : OrderedDict number) (k : string) (v : pyvalue number).

Lemma od_get_None k d : od_get k d = None <-> ~ In k (map fst d).
Proof.
  induction d as [|[k' v'] d IH]; cbn; [tauto|].
  destruct (String.eqb_spec k' k) as [->|Hne].
  - split; [discriminate | tauto].
  - rewrite IH. tauto.
Qed.

Lemma od_get_Some k d v : od_get k d = Some v -> In (k, v) d.
Proof.
  induction d as [|[k' v'] d IH]; cbn; [discriminate|].
  destruct (String.eqb_spec k' k) as [->|Hne].
  - intros [= ->]. auto.
  - auto.
Qed.

Lemma od_set_absent k v d : od_get k d = None -> od_set k v d = d ++ [(k, v)].
Proof.
  induction d as [|[k' v'] d IH]; cbn; [reflexivity|].
  destruct (String.eqb k' k); [discriminate|]. intros H. rewrite (IH H). reflexivity.
Qed.

Lemma od_set_In k v d kv : In kv (od_set k v d) -> kv = (k, v) \/ In kv d.
Proof.
  induction d as [|[k' v'] d IH]; cbn.
  - intros [<-|[]]. auto.
  - destruct (String.eqb_spec k' k) as [->|Hne]; cbn.
    + intros [<-|H]; auto.
    + intros [<-|H]; [auto|]. destruct (IH H); auto.
Qed.

Lemma od_set_keys k v d :
  map fst (od_set k v d) = map fst d ++ (if od_get k d is Some _ then [] else [k]).
Proof.
  induction d as [|[k' v'] d IH]; cbn; [reflexivity|].
  destruct (String.eqb_spec k' k) as [->|Hne]; cbn.
  - rewrite app_nil_r. reflexivity.
  - rewrite IH. reflexivity.
Qed.

Lemma od_set_NoDup k v d :
  NoDup (map fst d) -> NoDup (map fst (od_set k v d)).
Proof.
  intros H. rewrite od_set_keys. destruct (od_get k d) eqn:E.
  - rewrite app_nil_r. exact H.
  - apply od_get_None in E. apply NoDup_app. split; [exact H|].
    split; [|apply NoDup_singleton].
    intros x Hx Hk. apply list_elem_of_In in Hx, Hk. destruct Hk as [<-|[]]. auto.
Qed.

(** [OrderedDict(items)]: no key twice, and nothing but the items. *)
Lemma od_of_items_spec (items : list (string * pyvalue number)) :
  NoDup (map fst (od_of_items items)) /\
  forall kv, In kv (od_of_items items) -> In kv items.
Proof.
  unfold od_of_items.
  assert (forall acc : OrderedDict number,
            NoDup (map fst acc) ->
            NoDup (map fst (fold_left (fun d kv => od_set (fst kv) (snd kv) d)
                                   items acc)) /\
            forall kv, In kv (fold_left (fun d kv => od_set (fst kv) (snd kv) d)
                                items acc) -> In kv acc \/ In kv items) as H.
  { induction items as [|[k v] items IH]; intros acc Hacc; cbn; [auto|].
    destruct (IH (od_set k v acc) (od_set_NoDup k v acc Hacc)) as [H1 H2].
    split; [exact H1|]. intros kv Hkv.
    destruct (H2 kv Hkv) as [H|H]; [|auto].
    apply od_set_In in H as [->|H]; auto. }
  destruct (H [] (NoDup_nil_2 (A:=string))) as [H1 H2]. split; [exact H1|].
  intros kv Hkv. destruct (H2 kv Hkv) as [[]|Hin]. exact Hin.
Qed.

(** Items with different keys make the dictionary they are. *)
Lemma od_of_items_distinct (items : list (string * pyvalue number)) :
  NoDup (map fst items) -> od_of_items items = items.
Proof.
  unfold od_of_items.
  assert (forall acc : OrderedDict number,
            NoDup (map fst (acc ++ items)) ->
            fold_left (fun d kv => od_set (fst kv) (snd kv) d) items acc
            = acc ++ items) as H.
  { induction items as [|[k v] items IH]; intros acc Hnd; cbn.
    - rewrite app_nil_r. reflexivity.
    - rewrite od_set_absent.
      + rewrite IH; rewrite <- app_assoc; [reflexivity | exact Hnd].
      + apply od_get_None. rewrite map_app in Hnd. cbn in Hnd.
        apply NoDup_app in Hnd as [_ [Hnd _]]. intros Hin.
        apply (Hnd k); [apply list_elem_of_In, Hin | left]. }
  intros Hnd. apply (H []). exact Hnd.
Qed.

(** Replacing the entry of a key that is present and moving it to the
    end. *)
Lemma od_move_set k v d :
  od_get k d <> None ->
  od_move_to_end k (od_set k v d)
  = List.filter (fun kv => negb (String.eqb (fst kv) k)) d ++ [(k, v)].
Proof.
  intros Hk. unfold od_move_to_end.
  assert (od_get k (od_set k v d) = Some v) as ->.
  { induction d as [|[k' v'] d IH]; cbn in *; [congruence|].
    destruct (String.eqb k' k) eqn:E; cbn; rewrite E; [reflexivity | auto]. }
  f_equal. induction d as [|[k' v'] d IH]; cbn in *; [congruence|].
  destruct (String.eqb k' k) eqn:E; cbn; rewrite E; cbn; [reflexivity|].
  f_equal. auto.
Qed.

End Dictionary.

(** ** The rules of a node *)

Section RulesOfNode.

Context {number : Type}.
Variable gt lt : number -> number -> bool.
Variable fmt_percent_3f : number -> string.
Variable fmt_brace_3 : number -> result string.
Implicit Types (self : SklTreeAdapter number) (v : pyvalue number).
Implicit Types (prs : list (pyvalue number)) (k : string).

Lemma for_each_keyed prs :
  List.Forall (fun v => v <> VNone) prs ->
  for_each (fun r => bind (attr_name_of r) (fun a => ret (a, r))) prs
  = ret (keyed prs).
Proof.
  induction 1 as [|v prs Hv _ IH]; [reflexivity|]. cbn [for_each].
  rewrite IH. destruct v as [[r|r|r]|]; [reflexivity..|congruence].
Qed.

Lemma for_each_keyed_inv prs items (w : list string) :
  for_each (fun r => bind (attr_name_of r) (fun a => ret (a, r))) prs
  = (inl items, w) ->
  w = [] /\ items = keyed prs /\ List.Forall (fun v => v <> VNone) prs.
Proof.
  revert items w. induction prs as [|v prs IH]; intros items w H.
  - injection H as <- <-. repeat split. constructor.
  - cbn [for_each] in H.
    destruct (for_each _ prs) as [[bs|e] w'] eqn:E.
    + destruct (IH bs w' eq_refl) as [-> [-> Hall]].
      destruct v as [[r|r|r]|]; cbn in H; try discriminate;
        injection H as <- <-; repeat split; constructor; congruence.
    + destruct v as [[r|r|r]|]; cbn in H; discriminate.
Qed.

Lemma keyed_keys prs : map fst (keyed prs) = map value_name prs.
Proof. unfold keyed. rewrite map_map. reflexivity. Qed.

Lemma keyed_values prs : map snd (keyed prs) = prs.
Proof. unfold keyed. rewrite map_map. apply map_id. Qed.

Lemma keyed_filter k prs :
  map snd (List.filter (fun kv => negb (String.eqb (fst kv) k)) (keyed prs))
  = List.filter (fun v => negb (String.eqb (value_name v) k)) prs.
Proof.
  unfold keyed. induction prs as [|v prs IH]; [reflexivity|]. cbn.
  destruct (negb (String.eqb (value_name v) k)); cbn; rewrite IH; reflexivity.
Qed.

Lemma filter_other_names k prs :
  ~ In k (map value_name prs) ->
  List.filter (fun v => negb (String.eqb (value_name v) k)) prs = prs.
Proof.
  induction prs as [|v prs IH]; [reflexivity|]. cbn. intros H.
  destruct (String.eqb_spec (value_name v) k) as [E|E]; [tauto|]. cbn.
  rewrite IH; tauto.
Qed.

(** A bound merged into a rule on a numeric attribute gives such a
    rule again, on the same attribute; nothing is raised or printed. *)
Lemma merge_numeric v (c : ContinuousRule number) :
  numeric_value v ->
  exists r', call_merge_with gt lt fmt_percent_3f fmt_brace_3 v (VRule (Continuous c))
             = ret (VRule r')
             /\ numeric r' /\ rule_name r' = value_name v.
Proof.
  destruct v as [[d|c0|i]|]; cbn [numeric_value numeric]; try contradiction.
  - intros _. unfold call_merge_with, merge_with, ContinuousRule_merge_with.
    destruct (Bool.eqb (sign c0) (sign c)) eqn:E.
    + destruct (sign c0); eexists; (split; [reflexivity|]); cbn; auto.
    + destruct (sign c0) eqn:E0, (sign c) eqn:E1; try discriminate;
        eexists; (split; [reflexivity|]); cbn; unfold well_formed; cbn; auto.
  - intros [Hl Hr]. unfold call_merge_with, merge_with, IntervalRule_merge_with,
      ContinuousRule_merge_with.
    destruct (sign c) eqn:E; rewrite ?Hl, ?Hr; cbn;
      eexists; (split; [reflexivity|]); cbn; unfold well_formed; cbn; auto.
Qed.

(** Filing a bound among rules on numeric attributes that have
    different names: the other rules stay in their order, and the rule of
    the bound's attribute comes last. *)
Lemma file_rule_numeric prs (c : ContinuousRule number) :
  List.Forall numeric_value prs -> NoDup (map value_name prs) ->
  exists last,
    file_rule gt lt fmt_percent_3f fmt_brace_3 (od_of_items (keyed prs))
      (attr_name c) (Continuous c)
    = ret (List.filter (fun v => negb (String.eqb (value_name v) (attr_name c))) prs
           ++ [last])
    /\ numeric_value last /\ value_name last = attr_name c.
Proof.
  intros Hall Hnd. rewrite od_of_items_distinct by (rewrite keyed_keys; exact Hnd).
  unfold file_rule. destruct (od_get (attr_name c) (keyed prs)) as [old|] eqn:E.
  - pose proof (od_get_Some _ _ _ E) as Hin. unfold keyed in Hin.
    apply in_map_iff in Hin as [v [[= Hk ->] Hin]].
    rewrite List.Forall_forall in Hall.
    destruct (merge_numeric old c (Hall old Hin)) as [r' [-> [Hn Hname]]].
    rewrite bind_ret, od_move_set by congruence. unfold od_values.
    rewrite map_app, keyed_filter. cbn [map snd].
    exists (VRule r'). split; [reflexivity|]. split; [exact Hn|].
    cbn [value_name]. congruence.
  - apply od_get_None in E. rewrite keyed_keys in E.
    rewrite od_set_absent by (apply od_get_None; rewrite keyed_keys; exact E).
    unfold od_values. rewrite map_app, keyed_values, (filter_other_names _ _ E).
    exists (VRule (Continuous c)). repeat split.
Qed.

Lemma rules_eq fuel self node :
  rules gt lt fmt_percent_3f fmt_brace_3 (S fuel) self node =
  if negb (node =? root) then
    match rules gt lt fmt_percent_3f fmt_brace_3 fuel self (parent self node) with
    | None => None
    | Some above =>
        Some (bind above (fun prs =>
              bind (for_each (fun r => bind (attr_name_of r) (fun a => ret (a, r))) prs)
                (fun items =>
              bind (split_rule self (parent self node) node) (fun new =>
              file_rule gt lt fmt_percent_3f fmt_brace_3 (od_of_items items)
                (fst new) (snd new)))))
    end
  else Some (ret []).
Proof. reflexivity. Qed.

(** The rule a split on a numeric attribute contributes: a bound on
    that attribute. *)
Lemma split_rule_numeric self (p : nat) (node : Z) :
  sklearn_shaped self -> numeric_domain self ->
  children_left (_tree self) !! p = Some node
  \/ children_right (_tree self) !! p = Some node ->
  node <> -1 ->
  exists (a : Attribute) (c : ContinuousRule number),
    attribute self (Z.of_nat p) = ret a /\
    split_rule self (Z.of_nat p) node = ret (name a, Continuous c) /\
    attr_name c = name a.
Proof.
  intros Hs Hd Hp Hn. destruct (Hd p node Hp Hn) as [f [a [Hf [Ha Hcv]]]].
  assert (p < List.length (children_left (_tree self)))%nat as Hlt.
  { destruct Hp as [Hp|Hp]; apply lookup_lt_Some in Hp;
      [exact Hp | rewrite <- (shaped_right self Hs); exact Hp]. }
  destruct (lookup_lt_is_Some_2 (children_left (_tree self)) p Hlt) as [lc Hlc].
  destruct (lookup_lt_is_Some_2 (threshold (_tree self)) p) as [th Hth].
  { rewrite (shaped_threshold self Hs). exact Hlt. }
  assert (attribute self (Z.of_nat p) = ret a) as Hattr.
  { unfold attribute, splitting_attribute.
    rewrite (index_nat _ _ _ Hf), bind_ret. apply index_nat, Ha. }
  exists a, (mkContinuousRule (name a) (negb (lc =? node)) th (lc =? node)).
  split; [exact Hattr|]. split; [|reflexivity].
  unfold split_rule, _left_child.
  rewrite Hattr, bind_ret, (index_nat _ _ _ Hlc), bind_ret, Hcv,
    (index_nat _ _ _ Hth), bind_ret.
  reflexivity.
Qed.

Lemma NoDup_map_filter {A B} (g : A -> B) (f : A -> bool) (l : list A) :
  NoDup (map g l) -> NoDup (map g (List.filter f l)).
Proof.
  induction l as [|a l IH]; cbn; [auto|]. intros H.
  apply NoDup_cons in H as [Hnotin H]. destruct (f a); cbn; [|auto].
  apply NoDup_cons. split; [|auto]. intros Hin. apply Hnotin.
  apply list_elem_of_In in Hin. apply list_elem_of_In.
  apply in_map_iff in Hin as [x [Hx Hin]]. apply List.filter_In in Hin as [Hin _].
  apply in_map_iff. eauto.
Qed.

Lemma In_filter_names k prs (a : string) :
  In a (map value_name (List.filter (fun v => negb (String.eqb (value_name v) k)) prs))
  <-> In a (map value_name prs) /\ a <> k.
Proof.
  rewrite !in_map_iff. split.
  - intros [v [<- Hv]]. apply List.filter_In in Hv as [Hv Hk]. split; [eauto|].
    apply negb_true_iff in Hk. apply String.eqb_neq in Hk. exact Hk.
  - intros [[v [<- Hv]] Hk]. exists v. split; [reflexivity|].
    apply List.filter_In. split; [exact Hv|].
    apply negb_true_iff. apply String.eqb_neq. exact Hk.
Qed.

(** On a well-shaped tree over numeric attributes [rules] returns for
    every node, with fuel for the nodes above it. *)
Lemma rules_numeric self :
  sklearn_shaped self -> numeric_domain self ->
  forall (fuel : nat) (node : Z),
    0 <= node < Z.of_nat (List.length (children_left (_tree self))) ->
    (Z.to_nat node < fuel)%nat ->
    exists l,
      rules gt lt fmt_percent_3f fmt_brace_3 fuel self node = Some (ret l) /\
      List.Forall numeric_value l /\
      NoDup (map value_name l) /\
      forall a, In a (map value_name l) <-> In a (split_names fuel self node).
Proof.
  intros Hs Hd. induction fuel as [|fuel IH]; intros node Hn Hf; [lia|].
  rewrite rules_eq. cbn [split_names].
  destruct (Z.eqb_spec node root) as [->|Hroot]; cbn [negb].
  { exists []. repeat split; auto using NoDup_nil_2; intros []. }
  unfold root in Hroot.
  destruct (parent_found self node Hs ltac:(lia)) as [p [Hp [Hlt Hc]]].
  rewrite Hp.
  destruct (IH (Z.of_nat p) ltac:(lia) ltac:(lia)) as [prs [-> [Hall [Hnd Hnames]]]].
  destruct (split_rule_numeric self p node Hs Hd Hc ltac:(lia)) as [a [c [-> [-> Hname]]]].
  rewrite bind_ret, for_each_keyed, !bind_ret.
  2:{ eapply List.Forall_impl; [|exact Hall]. intros v Hv ->. exact Hv. }
  cbn [fst snd]. rewrite <- Hname.
  destruct (file_rule_numeric prs c Hall Hnd) as [last [-> [Hlast Hk]]].
  eexists. split; [reflexivity|]. split; [|split].
  - apply List.Forall_app. split; [|repeat constructor; exact Hlast].
    rewrite List.Forall_forall in *. intros v Hv.
    apply List.filter_In in Hv as [Hv _]. auto.
  - rewrite map_app. apply NoDup_app. split; [apply NoDup_map_filter, Hnd|].
    split; [|apply NoDup_singleton].
    intros x Hx Hin. apply list_elem_of_In in Hx, Hin.
    apply In_filter_names in Hx as [_ Hx]. cbn in Hin. intuition congruence.
  - intros x. rewrite map_app, !in_app_iff, In_filter_names, Hnames. cbn [map In].
    rewrite Hk. cbn [ret In]. rewrite <- Hname.
    destruct (String.eqb_spec x (attr_name c)) as [->|Hne]; intuition congruence.
Qed.

(** ** Whatever the domain *)

Lemma bind_inl {A B} (m : out A) (k : A -> out B) (b : B) (w : list string) :
  bind m k = (inl b, w) ->
  exists a w1 w2, m = (inl a, w1) /\ k a = (inl b, w2) /\ w = w1 ++ w2.
Proof.
  destruct m as [[a|e] w1]; cbn; [|discriminate].
  destruct (k a) as [r w2] eqn:E. intros [= -> <-]. eauto 6.
Qed.

(** The values of a dictionary whose entries are rules under their
    attribute. *)
Lemma values_rules (d : OrderedDict number) :
  NoDup (map fst d) ->
  (forall kv, In kv d -> exists r, kv = (rule_name r, VRule r)) ->
  exists front, map snd d = map VRule front /\ NoDup (map rule_name front).
Proof.
  induction d as [|[k v] d IH]; intros Hnd Hall.
  - exists []. split; [reflexivity | apply NoDup_nil_2].
  - cbn [map fst] in Hnd. apply NoDup_cons in Hnd as [Hk Hnd].
    destruct (IH Hnd (fun kv H => Hall kv (or_intror H))) as [front [Hf Hn]].
    destruct (Hall (k, v) (or_introl eq_refl)) as [r [= -> ->]].
    exists (r :: front). cbn [map snd]. rewrite Hf. split; [reflexivity|].
    apply NoDup_cons. split; [|exact Hn].
    intros Hin. apply Hk. apply list_elem_of_In in Hin. apply list_elem_of_In.
    apply in_map_iff in Hin as [r' [Hr' Hin]]. apply in_map_iff.
    assert (In (VRule r') (map snd d)) as Hin' by (rewrite Hf; apply in_map, Hin).
    apply in_map_iff in Hin' as [[k' v'] [Hv' Hin']]. cbn in Hv'. subst v'.
    destruct (Hall _ (or_intror Hin')) as [r'' [= -> <-]].
    exists (rule_name r', VRule r'). auto.
Qed.

(** X21. Whatever the tree and the domain, in the list [rules]
    returns for a node other than the root every entry before the last
    one is a rule, and these rules are about pairwise different
    attributes: the dictionary is rebuilt with [attr_name] alone as the
    key, so of the discrete rules of one variable that the nodes above
    contribute only the latest but one and the latest are kept. *)
Theorem rules_keep_one_rule_per_name self fuel node (l : list (pyvalue number))
    (w : list string) :
  rules gt lt fmt_percent_3f fmt_brace_3 fuel self node = Some (inl l, w) ->
  node <> root ->
  exists front last, l = map VRule front ++ [last] /\ NoDup (map rule_name front).
Proof.
  intros H Hroot. destruct fuel as [|fuel]; [discriminate|].
  rewrite rules_eq in H. destruct (Z.eqb_spec node root); [contradiction|].
  cbn [negb] in H.
  destruct (rules gt lt fmt_percent_3f fmt_brace_3 fuel self (parent self node))
    as [above|]; [|discriminate].
  injection H as H.
  apply bind_inl in H as [prs [w1 [w2 [_ [H _]]]]].
  apply bind_inl in H as [items [w3 [w4 [Hitems [H _]]]]].
  apply bind_inl in H as [[k new] [w5 [w6 [_ [H _]]]]]. cbn [fst snd] in H.
  apply for_each_keyed_inv in Hitems as [_ [-> Hrules]].
  destruct (od_of_items_spec (keyed prs)) as [Hnd Hsub].
  assert (forall kv, In kv (od_of_items (keyed prs)) ->
                     exists r, kv = (rule_name r, VRule r)) as Hkv.
  { intros kv Hin. apply Hsub in Hin. unfold keyed in Hin.
    apply in_map_iff in Hin as [v [<- Hv]].
    rewrite List.Forall_forall in Hrules. specialize (Hrules v Hv).
    destruct v as [r|]; [eauto | congruence]. }
  unfold file_rule in H.
  destruct (od_get k (od_of_items (keyed prs))) as [old|] eqn:E.
  - apply bind_inl in H as [merged [w7 [w8 [_ [H _]]]]].
    injection H as <- _. rewrite od_move_set by congruence.
    destruct (values_rules
                (List.filter (fun kv => negb (String.eqb (fst kv) k))
                   (od_of_items (keyed prs)))) as [front [Hf Hn]].
    + apply NoDup_map_filter, Hnd.
    + intros kv Hin. apply List.filter_In in Hin as [Hin _]. auto.
    + exists front, merged. unfold od_values. rewrite map_app, Hf. auto.
  - injection H as <- _. rewrite od_set_absent by exact E.
    destruct (values_rules (od_of_items (keyed prs)) Hnd Hkv) as [front [Hf Hn]].
    exists front, (VRule new). unfold od_values. rewrite map_app, Hf. auto.
Qed.

End RulesOfNode.

Lemma numeric_sample_domain : numeric_domain numeric_sample.
Proof.
  intros p c H Hc.
  do 3 (destruct p as [|p];
        [cbn; first [exists 0%nat; eexists; repeat split; reflexivity
                    | exists 1%nat; eexists; repeat split; reflexivity]|]).
  do 4 (destruct p as [|p]; [cbn in H; destruct H as [[= <-]|[= <-]]; lia|]).
  cbn in H. destruct H; discriminate.
Qed.

(** X20. On a tree shaped as scikit-learn builds it, all of whose
    splits are on numeric attributes, [rules] returns for every node,
    raises nothing and prints nothing; the list holds bounds and
    well-formed intervals only, exactly one rule for each attribute that
    the nodes above the node split on, and no rule for any other
    attribute. *)
Theorem rules_one_per_attribute {number} (gt lt : number -> number -> bool)
    (fmt_percent_3f : number -> string) (fmt_brace_3 : number -> result string)
    (self : SklTreeAdapter number) (node : Z) :
  sklearn_shaped self -> numeric_domain self ->
  0 <= node < Z.of_nat (List.length (children_left (_tree self))) ->
  exists l,
    rules gt lt fmt_percent_3f fmt_brace_3 (S (Z.to_nat node)) self node
      = Some (ret l) /\
    List.Forall numeric_value l /\
    NoDup (map value_name l) /\
    forall a, In a (map value_name l)
              <-> In a (split_names (S (Z.to_nat node)) self node).
Proof.
  intros Hs Hd Hn. apply rules_numeric; [assumption..|lia].
Qed.

Lemma rules_one_per_attribute_witness :
  exists l,
    rules Z.gtb Z.ltb int_percent_3f int_brace_3 (S (Z.to_nat 4)) numeric_sample 4
      = Some (ret l) /\
    List.Forall numeric_value l /\
    NoDup (map value_name l) /\
    forall a, In a (map value_name l)
              <-> In a (split_names (S (Z.to_nat 4)) numeric_sample 4).
Proof.
  apply (rules_one_per_attribute Z.gtb Z.ltb int_percent_3f int_brace_3
           numeric_sample 4);
    [exact numeric_sample_shaped | exact numeric_sample_domain | cbn; lia].
Defined.

Lemma rules_keep_one_rule_per_name_witness :
  exists front last,
    [VRule (Discrete (mkDiscreteRule "legs" false "4"));
     VRule (Discrete (mkDiscreteRule "legs" false "6"))]
    = map VRule front ++ [last] /\ NoDup (map (rule_name (number := Z)) front).
Proof.
  apply (rules_keep_one_rule_per_name Z.gtb Z.ltb int_percent_3f int_brace_3
           discrete_sample 4 3 _ []); [reflexivity | discriminate].
Defined.

(** ** Weights *)




(** ** Leaves and samples *)

Lemma index_Z {A} (arr : list A) (n : Z) (a : A) :
  0 <= n -> arr !! Z.to_nat n = Some a -> index arr n = ret a.
Proof.
  intros Hn H. rewrite <- (Z2Nat.id n Hn). apply index_nat, H.
Qed.

Lemma after_ret {A B} (a : A) (k : A -> option (out B)) :
  after (Some (ret a)) k = k a.
Proof. unfold after, ret. destruct (k a) as [[r w]|]; reflexivity. Qed.

Lemma select_map {A} (q : A -> bool) (l : list A) :
  select l (map q l) = List.filter q l.
Proof.
  induction l as [|a l IH]; [reflexivity|]. cbn. rewrite IH. reflexivity.
Qed.

Lemma filter_split {A} (q : A -> bool) (l : list A) :
  Permutation (List.filter q l ++ List.filter (fun a => negb (q a)) l) l.
Proof.
  induction l as [|a l IH]; [reflexivity|]. cbn. destruct (q a); cbn.
  - constructor. exact IH.
  - rewrite <- Permutation_middle. constructor. exact IH.
Qed.

Section SamplesFacts.

Context {number : Type}.
Variable data : Z -> Z -> number.
Variable le : number -> number -> bool.
Implicit Types (self : SklTreeAdapter number) (ids indices : list Z).

Lemma spans_length self n ids : spans self n ids -> (1 <= List.length ids)%nat.
Proof. destruct 1; cbn; lia. Qed.

Lemma leaf_ids_node self n l il ir :
  children_left (_tree self) !! Z.to_nat n = Some l -> l <> -1 ->
  leaf_ids self (n :: il ++ ir) = leaf_ids self il ++ leaf_ids self ir.
Proof.
  intros Hl Hne. unfold leaf_ids. cbn [List.filter]. unfold is_leaf_id at 1.
  rewrite Hl. replace (l =? -1) with false by lia. apply List.filter_app.
Qed.

(** [assign] sorts the samples it is given into the leaves under a
    node. *)
Lemma assign_spans self n ids :
  spans self n ids ->
  List.length (feature (_tree self)) = List.length (children_left (_tree self)) ->
  List.length (threshold (_tree self)) = List.length (children_left (_tree self)) ->
  forall (fuel : nat) indices, (List.length ids <= fuel)%nat ->
  exists groups,
    assign data le fuel self n indices = Some (ret groups) /\
    List.Forall2
      (fun leaf g => List.Forall (fun i => In i indices /\ lands data le self i n leaf) g)
      (leaf_ids self ids) groups /\
    Permutation (concat groups) indices.
Proof.
  intros Hsp Hf Ht.
  induction Hsp as [n Hn Hl _ | n l r il ir Hn Hl Hne Hr Hspl IHl Hspr IHr];
    intros fuel indices Hfuel.
  - destruct fuel as [|fuel]; [cbn in Hfuel; lia|]. cbn [assign].
    rewrite (index_Z _ _ _ Hn Hl), after_ret. cbn [Z.eqb Pos.eqb].
    exists [indices]. split; [reflexivity|]. split.
    + unfold leaf_ids. cbn [List.filter]. unfold is_leaf_id. rewrite Hl. cbn.
      constructor; [|constructor]. apply List.Forall_forall. intros i Hi.
      split; [exact Hi|]. apply lands_here; assumption.
    + cbn. rewrite app_nil_r. reflexivity.
  - destruct fuel as [|fuel]; [cbn in Hfuel; lia|]. cbn [assign].
    cbn [List.length] in Hfuel. rewrite length_app in Hfuel.
    pose proof (lookup_lt_Some _ _ _ Hl) as Hlt.
    destruct (lookup_lt_is_Some_2 (feature (_tree self)) (Z.to_nat n)) as [f Hfe];
      [lia|].
    destruct (lookup_lt_is_Some_2 (threshold (_tree self)) (Z.to_nat n)) as [t Hth];
      [lia|].
    rewrite (index_Z _ _ _ Hn Hl), after_ret.
    replace (l =? -1) with false by lia.
    rewrite (index_Z _ _ _ Hn Hfe), after_ret, (index_Z _ _ _ Hn Hth), after_ret.
    rewrite !map_map, select_map.
    destruct (IHl fuel (List.filter (fun i => le (data i f) t) indices) ltac:(lia))
      as [gl [-> [Hgl Hpl]]].
    rewrite after_ret, (index_Z _ _ _ Hn Hr), after_ret, select_map.
    destruct (IHr fuel (List.filter (fun i => negb (le (data i f) t)) indices)
                ltac:(lia)) as [gr [-> [Hgr Hpr]]].
    rewrite after_ret. exists (gl ++ gr). split; [reflexivity|]. split.
    + rewrite (leaf_ids_node self n l il ir Hl Hne). apply List.Forall2_app.
      * eapply List.Forall2_impl; [|exact Hgl]. intros leaf g Hg.
        eapply List.Forall_impl; [|exact Hg]. intros i [Hi Hland].
        apply List.filter_In in Hi as [Hi Hq]. split; [exact Hi|].
        eapply lands_left; eassumption.
      * eapply List.Forall2_impl; [|exact Hgr]. intros leaf g Hg.
        eapply List.Forall_impl; [|exact Hg]. intros i [Hi Hland].
        apply List.filter_In in Hi as [Hi Hq]. split; [exact Hi|].
        apply negb_true_iff in Hq. eapply lands_right; eassumption.
    + rewrite concat_app, Hpl, Hpr. apply filter_split.
Qed.

Lemma spans_head self n ids : spans self n ids -> exists tl, ids = n :: tl.
Proof. destruct 1; eauto. Qed.

Lemma spans_has_leaf self n ids : spans self n ids -> leaf_ids self ids <> [].
Proof.
  induction 1 as [n Hn Hl _ | n l r il ir Hn Hl Hne Hr _ IHl _ _].
  - unfold leaf_ids. cbn. unfold is_leaf_id. rewrite Hl. discriminate.
  - rewrite (leaf_ids_node self n l il ir Hl Hne). intros H.
    apply app_eq_nil in H as [H _]. contradiction.
Qed.

Lemma spans_valid self n ids :
  spans self n ids ->
  List.Forall (fun id => 0 <= id
                 /\ (Z.to_nat id < List.length (children_left (_tree self)))%nat) ids.
Proof.
  induction 1 as [n Hn Hl _ | n l r il ir Hn Hl Hne Hr _ IHl _ IHr].
  - repeat constructor; [exact Hn | eapply lookup_lt_Some, Hl].
  - constructor; [split; [exact Hn | eapply lookup_lt_Some, Hl]|].
    apply List.Forall_app. auto.
Qed.

(** In a depth-first numbering the nodes under the two children of a
    node are numbered one after the other. *)
Lemma contiguous_parts self n l r il ir :
  spans self l il -> spans self r ir ->
  n :: il ++ ir = seqZ n (Z.of_nat (List.length (n :: il ++ ir))) ->
  l = n + 1 /\ il = seqZ l (Z.of_nat (List.length il)) /\
  r = n + 1 + Z.of_nat (List.length il) /\ ir = seqZ r (Z.of_nat (List.length ir)).
Proof.
  intros Hl Hr H. cbn [List.length] in H. rewrite length_app in H.
  rewrite seqZ_cons in H by lia. injection H as H.
  replace (Z.pred (Z.of_nat (S (List.length il + List.length ir))))
    with (Z.of_nat (List.length il) + Z.of_nat (List.length ir)) in H by lia.
  rewrite seqZ_app in H by lia.
  apply app_inj_1 in H as [H1 H2]; [|rewrite length_seqZ; lia].
  destruct (spans_head _ _ _ Hl) as [tl Hil]. destruct (spans_head _ _ _ Hr) as [tr Hir].
  assert (l = Z.succ n) as ->.
  { rewrite Hil in H1. cbn [List.length] in H1. rewrite seqZ_cons in H1 by lia.
    injection H1 as -> _. reflexivity. }
  assert (r = Z.succ n + Z.of_nat (List.length il)) as ->.
  { rewrite Hir in H2. cbn [List.length] in H2. rewrite seqZ_cons in H2 by lia.
    injection H2 as -> _. reflexivity. }
  repeat split; auto; lia.
Qed.

(** In a depth-first numbering the largest number under a node is
    that of the last node under it. *)
Lemma find_largest_contiguous self n ids :
  spans self n ids -> ids = seqZ n (Z.of_nat (List.length ids)) ->
  forall fuel : nat, (List.length ids <= fuel)%nat ->
  find_largest_idx fuel self n = Some (ret (n + Z.of_nat (List.length ids) - 1)).
Proof.
  induction 1 as [n Hn Hl _ | n l r il ir Hn Hl Hne Hr Hspl IHl Hspr IHr];
    intros Hc fuel Hfuel.
  - destruct fuel as [|fuel]; [cbn in Hfuel; lia|]. cbn [find_largest_idx].
    rewrite (index_Z _ _ _ Hn Hl), after_ret. cbn. do 2 f_equal. lia.
  - destruct fuel as [|fuel]; [cbn in Hfuel; lia|]. cbn [find_largest_idx].
    destruct (contiguous_parts self n l r il ir Hspl Hspr Hc) as [El [Hil [Er Hir]]].
    cbn [List.length] in *. rewrite length_app in *.
    rewrite (index_Z _ _ _ Hn Hl), after_ret.
    replace (l =? -1) with false by lia.
    rewrite (IHl Hil fuel ltac:(lia)), after_ret, (index_Z _ _ _ Hn Hr), after_ret,
      (IHr Hir fuel ltac:(lia)), after_ret.
    pose proof (spans_length _ _ _ Hspr).
    replace (l + Z.of_nat (List.length il) - 1 >? r + Z.of_nat (List.length ir) - 1)
      with false by lia.
    do 3 f_equal. lia.
Qed.

(** The leaves of a stretch of the array of left children, as [leaves]
    finds them. *)
Lemma flatnonzero_stretch self : forall (k s : nat) (j c : Z),
  (s + k <= List.length (children_left (_tree self)))%nat ->
  c + j = Z.of_nat s ->
  map (fun i => c + i)
    (flatnonzero (map (fun x => x =? -1)
                    (take k (drop s (children_left (_tree self))))) j)
  = leaf_ids self (seqZ (Z.of_nat s) (Z.of_nat k)).
Proof.
  induction k as [|k IH]; intros s j c Hlen Hc; [reflexivity|].
  destruct (lookup_lt_is_Some_2 (children_left (_tree self)) s) as [x Hx]; [lia|].
  rewrite (drop_S _ _ _ Hx). cbn [take map flatnonzero].
  rewrite seqZ_cons by lia.
  replace (Z.succ (Z.of_nat s)) with (Z.of_nat (S s)) by lia.
  replace (Z.pred (Z.of_nat (S k))) with (Z.of_nat k) by lia.
  unfold leaf_ids. cbn [List.filter]. unfold is_leaf_id at 1.
  rewrite Nat2Z.id, Hx. fold (leaf_ids self (seqZ (Z.of_nat (S s)) (Z.of_nat k))).
  rewrite <- (IH (S s) (j + 1) c) by lia.
  destruct (x =? -1); cbn [map]; [f_equal; lia | reflexivity].
Qed.

(** What [leaves] computes when the nodes under a node are numbered
    one after the other: the range it scans is the nodes below the
    node. *)
Lemma leaves_contiguous self n ids :
  spans self n ids -> ids = seqZ n (Z.of_nat (List.length ids)) ->
  leaves (List.length ids) self n = Some (ret (leaf_ids self ids)).
Proof.
  intros Hsp Hc. pose proof (find_largest_contiguous self n ids Hsp Hc) as Hlargest.
  pose proof (spans_valid self n ids Hsp) as Hvalid.
  pose proof (spans_has_leaf self n ids Hsp) as Hleaf.
  destruct Hsp as [n Hn Hl Hr | n l r il ir Hn Hl Hne Hr Hspl Hspr].
  - unfold leaves, _subnode_range.
    rewrite (index_Z _ _ _ Hn Hl), after_ret. cbn [Z.eqb Pos.eqb].
    rewrite (index_Z _ _ _ Hn Hr), after_ret. cbn [Z.eqb Pos.eqb].
    rewrite after_ret, Z.eqb_refl.
    unfold leaf_ids. cbn. unfold is_leaf_id. rewrite Hl. reflexivity.
  - destruct (contiguous_parts self n l r il ir Hspl Hspr Hc) as [El [Hil [Er Hir]]].
    pose proof (spans_length _ _ _ Hspl). pose proof (spans_length _ _ _ Hspr).
    set (ids := n :: il ++ ir) in *.
    assert (List.length ids = S (List.length il + List.length ir)) as Hlen.
    { unfold ids. cbn [List.length]. rewrite length_app. reflexivity. }
    unfold leaves, _subnode_range.
    rewrite (index_Z _ _ _ Hn Hl), after_ret.
    replace (l =? -1) with false by lia.
    rewrite (Hlargest _ (Nat.le_refl _)), !after_ret.
    replace (l =? n + Z.of_nat (List.length ids) - 1 + 1) with false by lia.
    assert (n + Z.of_nat (List.length ids)
            <= Z.of_nat (List.length (children_left (_tree self)))) as Hstop.
    { rewrite List.Forall_forall in Hvalid.
      destruct (Hvalid (n + Z.of_nat (List.length ids) - 1)) as [_ Hv]; [|lia].
      apply list_elem_of_In.
      pose proof (proj2 (elem_of_seqZ n (Z.of_nat (List.length ids))
                           (n + Z.of_nat (List.length ids) - 1))) as Hin.
      rewrite <- Hc in Hin. apply Hin. lia. }
    assert (slice (children_left (_tree self)) l
              (n + Z.of_nat (List.length ids) - 1 + 1)
            = take (List.length il + List.length ir)
                (drop (Z.to_nat l) (children_left (_tree self)))) as ->.
    { unfold slice.
      replace (l <? 0) with false by lia.
      replace (n + Z.of_nat (List.length ids) - 1 + 1 <? 0) with false by lia.
      f_equal; [|f_equal]; lia. }
    pose proof (flatnonzero_stretch self (List.length il + List.length ir)
                  (Z.to_nat l) 0 l ltac:(lia) ltac:(lia)) as Hhits.
    assert (leaf_ids self
              (seqZ (Z.of_nat (Z.to_nat l))
                 (Z.of_nat (List.length il + List.length ir)))
            = leaf_ids self ids) as Hsame.
    { unfold ids. rewrite (leaf_ids_node self n l il ir Hl Hne).
      unfold leaf_ids. rewrite <- List.filter_app. f_equal.
      rewrite Nat2Z.inj_add, seqZ_app by lia. f_equal.
      - rewrite Z2Nat.id by lia. symmetry. exact Hil.
      - replace (Z.of_nat (Z.to_nat l) + Z.of_nat (List.length il)) with r by lia.
        symmetry. exact Hir. }
    rewrite Hsame in Hhits. revert Hhits.
    destruct (flatnonzero _ 0) as [|h hits]; intros Hhits.
    + cbn [map] in Hhits. congruence.
    + rewrite <- Hhits. reflexivity.
Qed.

(** X24. On a tree whose nodes are numbered in the order of a
    depth-first walk that goes left first, as scikit-learn numbers them
    when it grows a tree depth first, [leaves] returns exactly the leaves
    under the node, in increasing order. *)
Theorem leaves_of_depth_first_tree self n ids :
  spans self n ids -> ids = seqZ n (Z.of_nat (List.length ids)) ->
  leaves (List.length ids) self n = Some (ret (leaf_ids self ids)).
Proof. intros Hsp Hc. apply leaves_contiguous; assumption. Qed.

End SamplesFacts.

Lemma numeric_sample_spans : spans numeric_sample 0 [0; 1; 2; 3; 4; 5; 6].
Proof.
  apply (spans_node numeric_sample 0 1 6 [1; 2; 3; 4; 5] [6]);
    [lia | reflexivity | lia | reflexivity | | apply spans_leaf; [lia | reflexivity..]].
  apply (spans_node numeric_sample 1 2 5 [2; 3; 4] [5]);
    [lia | reflexivity | lia | reflexivity | | apply spans_leaf; [lia | reflexivity..]].
  apply (spans_node numeric_sample 2 3 4 [3] [4]);
    [lia | reflexivity | lia | reflexivity | |]; apply spans_leaf; (lia || reflexivity).
Qed.

(** X23. [get_samples_in_leaves] sorts the samples into the leaves.
    On arrays that describe a binary tree under node 0, a first call
    returns one group for each leaf, in the order in which a walk that
    goes left first meets the leaves; every sample of a group is one the
    thresholds send to the group's leaf, and the groups together hold
    every row number of the matrix once.  The groups are cached: a later
    call returns them again, whatever matrix it is given. *)
Theorem samples_sorted_into_leaves {number} (data : Z -> Z -> number)
    (le : number -> number -> bool) (self : SklTreeAdapter number)
    (ids : list Z) (n : Z) :
  spans self 0 ids ->
  List.length (feature (_tree self)) = List.length (children_left (_tree self)) ->
  List.length (threshold (_tree self)) = List.length (children_left (_tree self)) ->
  exists groups,
    get_samples_in_leaves data le (List.length ids) self None n
      = Some (ret groups, Some groups) /\
    List.Forall2
      (fun leaf g => List.Forall (fun i => lands data le self i 0 leaf) g)
      (leaf_ids self ids) groups /\
    Permutation (concat groups) (seqZ 0 n) /\
    forall data' le' fuel' n',
      get_samples_in_leaves data' le' fuel' self (Some groups) n'
        = Some (ret groups, Some groups).
Proof.
  intros Hsp Hf Ht.
  destruct (assign_spans data le self 0 ids Hsp Hf Ht (List.length ids) (seqZ 0 n)
              (Nat.le_refl _)) as [groups [Ha [Hg Hp]]].
  exists groups. unfold get_samples_in_leaves. rewrite Ha.
  split; [reflexivity|]. split; [|split; [exact Hp | reflexivity]].
  eapply List.Forall2_impl; [|exact Hg]. intros leaf g Hall.
  eapply List.Forall_impl; [|exact Hall]. intros i [_ Hi]. exact Hi.
Qed.

Lemma samples_sorted_into_leaves_witness :
  exists groups,
    get_samples_in_leaves (fun i _ => i) Z.leb (List.length [0; 1; 2; 3; 4; 5; 6])
      numeric_sample None 8
      = Some (ret groups, Some groups) /\
    List.Forall2
      (fun leaf g => List.Forall
                       (fun i => lands (fun i _ => i) Z.leb numeric_sample i 0 leaf) g)
      (leaf_ids numeric_sample [0; 1; 2; 3; 4; 5; 6]) groups /\
    Permutation (concat groups) (seqZ 0 8) /\
    forall (data' : Z -> Z -> Z) le' fuel' n',
      get_samples_in_leaves data' le' fuel' numeric_sample (Some groups) n'
        = Some (ret groups, Some groups).
Proof.
  apply (samples_sorted_into_leaves (fun i _ => i) Z.leb numeric_sample
           [0; 1; 2; 3; 4; 5; 6] 8);
    [exact numeric_sample_spans | reflexivity | reflexivity].
Defined.

Lemma leaves_of_depth_first_tree_witness :
  leaves (List.length [0; 1; 2; 3; 4; 5; 6]) numeric_sample 0
  = Some (ret (leaf_ids numeric_sample [0; 1; 2; 3; 4; 5; 6])).
Proof.
  apply (leaves_of_depth_first_tree numeric_sample 0 [0; 1; 2; 3; 4; 5; 6]);
    [exact numeric_sample_spans | reflexivity].
Defined.

(** X26. [leaves] and [get_samples_in_leaves] agree on a tree
    numbered depth first, which is what [get_instances_in_nodes] relies
    on when it looks a leaf up in [leaves(root)] and takes the group at
    the same position: the two lists are equally long, and every sample
    of the group at a position is one the thresholds send to the leaf at
    that position. *)
Theorem groups_line_up_with_leaves {number} (data : Z -> Z -> number)
    (le : number -> number -> bool) (self : SklTreeAdapter number)
    (ids : list Z) (n : Z) :
  spans self 0 ids -> ids = seqZ 0 (Z.of_nat (List.length ids)) ->
  List.length (feature (_tree self)) = List.length (children_left (_tree self)) ->
  List.length (threshold (_tree self)) = List.length (children_left (_tree self)) ->
  exists all_leaves groups,
    leaves (List.length ids) self root = Some (ret all_leaves) /\
    get_samples_in_leaves data le (List.length ids) self None n
      = Some (ret groups, Some groups) /\
    List.Forall2
      (fun leaf g => List.Forall (fun i => lands data le self i root leaf) g)
      all_leaves groups.
Proof.
  intros Hsp Hc Hf Ht.
  destruct (assign_spans data le self 0 ids Hsp Hf Ht (List.length ids) (seqZ 0 n)
              (Nat.le_refl _)) as [groups [Ha [Hg _]]].
  exists (leaf_ids self ids), groups. split; [|split].
  - apply leaves_contiguous; assumption.
  - unfold get_samples_in_leaves. rewrite Ha. reflexivity.
  - eapply List.Forall2_impl; [|exact Hg]. intros leaf g Hall.
    eapply List.Forall_impl; [|exact Hall]. intros i [_ Hi]. exact Hi.
Qed.

Lemma groups_line_up_with_leaves_witness :
  exists all_leaves groups,
    leaves (List.length [0; 1; 2; 3; 4; 5; 6]) numeric_sample root
      = Some (ret all_leaves) /\
    get_samples_in_leaves (fun i _ => i) Z.leb (List.length [0; 1; 2; 3; 4; 5; 6])
      numeric_sample None 8
      = Some (ret groups, Some groups) /\
    List.Forall2
      (fun leaf g => List.Forall
                       (fun i => lands (fun i _ => i) Z.leb numeric_sample i root leaf) g)
      all_leaves groups.
Proof.
  apply (groups_line_up_with_leaves (fun i _ => i) Z.leb numeric_sample
           [0; 1; 2; 3; 4; 5; 6] 8);
    [exact numeric_sample_spans | reflexivity..].
Defined.

(** ** What the rules of a node say *)

Lemma column_found (attributes : list Attribute) : forall (f : nat) (a : Attribute) (j : Z),
  NoDup (map name attributes) -> attributes !! f = Some a ->
  column (name a) attributes j = j + Z.of_nat f.
Proof.
  induction attributes as [|b rest IH]; intros f a j Hnd Hf; [discriminate|].
  cbn [map] in Hnd. apply NoDup_cons in Hnd as [Hb Hnd]. cbn [column].
  destruct f as [|f]; cbn in Hf.
  - injection Hf as ->. rewrite String.eqb_refl. lia.
  - destruct (String.eqb_spec (name b) (name a)) as [E|E].
    + exfalso. apply Hb. rewrite E. apply list_elem_of_In, in_map, In_lookup. eauto.
    + rewrite (IH f a (j + 1) Hnd Hf). lia.
Qed.

Section RulesMeaning.

Variable fmt_percent_3f : Z -> string.
Variable fmt_brace_3 : Z -> result string.
Implicit Types (self : SklTreeAdapter Z) (v : pyvalue Z) (env : string -> Z).
Implicit Types (prs : list (pyvalue Z)) (c : ContinuousRule Z).

(** The merge of a bound into a rule on the same attribute holds of
    the values of which both hold. *)
Lemma merge_meaning v c :
  numeric_value v -> coherent v -> value_name v = attr_name c ->
  exists r',
    call_merge_with Z.gtb Z.ltb fmt_percent_3f fmt_brace_3 v (VRule (Continuous c))
      = ret (VRule r')
    /\ numeric r' /\ coherent (VRule r') /\ rule_name r' = value_name v
    /\ forall env, holds env (VRule r') <-> holds env v /\ holds_bound env c.
Proof.
  destruct v as [[d|c0|i]|]; cbn [numeric_value numeric]; try contradiction.
  - intros _ _ Hname. cbn [value_name rule_name] in Hname.
    unfold call_merge_with, merge_with. rewrite RulesLaws.continuous_merge_int.
    destruct (sign c0) eqn:E0, (sign c) eqn:E1; cbn [Bool.eqb];
      eexists; (split; [reflexivity|]); cbn [numeric coherent rule_name value_name];
      unfold well_formed, holds, holds_bound;
      cbn [left_rule right_rule sign value attr_name i_attr_name];
      rewrite ?E0, ?E1, ?Hname; repeat split; auto; intros; lia.
  - intros [Hl Hr] [Hcl Hcr] Hname. cbn [value_name rule_name] in Hname.
    unfold call_merge_with, merge_with, IntervalRule_merge_with.
    rewrite !RulesLaws.continuous_merge_int, Hl, Hr.
    destruct (sign c) eqn:E1; cbn [Bool.eqb Rules.bind IntervalRule_init];
      eexists; (split; [reflexivity|]); cbn [numeric coherent rule_name value_name];
      unfold well_formed, holds, holds_bound;
      cbn [left_rule right_rule sign value attr_name i_attr_name];
      rewrite ?Hl, ?Hr, ?E1, ?Hcl, ?Hcr, ?Hname; repeat split; auto; intros; lia.
Qed.

(** Among rules with different names, the rules of one name are one
    rule. *)
Lemma Forall_by_name (P : pyvalue Z -> Prop) prs (k : string) v :
  NoDup (map value_name prs) -> In v prs -> value_name v = k ->
  List.Forall P prs <->
  List.Forall P (List.filter (fun v => negb (String.eqb (value_name v) k)) prs) /\ P v.
Proof.
  intros Hnd Hin Hk. rewrite !List.Forall_forall. split.
  - intros H. split; [|auto]. intros x Hx. apply List.filter_In in Hx as [Hx _]. auto.
  - intros [H Hv] x Hx. destruct (String.eqb_spec (value_name x) k) as [E|E].
    + assert (x = v) as ->; [|exact Hv].
      clear -Hnd Hin Hx E Hk. induction prs as [|y prs IH]; [contradiction|].
      cbn [map] in Hnd. apply NoDup_cons in Hnd as [Hy Hnd].
      rewrite list_elem_of_In in Hy.
      destruct Hin as [->|Hin], Hx as [->|Hx]; auto.
      * exfalso. apply Hy. rewrite Hk, <- E. apply in_map, Hx.
      * exfalso. apply Hy. rewrite E, <- Hk. apply in_map, Hin.
    + apply H, List.filter_In. split; [exact Hx|].
      apply negb_true_iff, String.eqb_neq, E.
Qed.

(** Filing a bound among the rules of the node above: the list holds
    of the values of which the rules above and the bound hold. *)
Lemma file_rule_meaning prs c :
  List.Forall numeric_value prs -> List.Forall coherent prs ->
  NoDup (map value_name prs) ->
  exists last,
    file_rule Z.gtb Z.ltb fmt_percent_3f fmt_brace_3 (od_of_items (keyed prs))
      (attr_name c) (Continuous c)
    = ret (List.filter (fun v => negb (String.eqb (value_name v) (attr_name c))) prs
           ++ [last])
    /\ numeric_value last /\ coherent last /\ value_name last = attr_name c
    /\ forall env,
         List.Forall (holds env)
           (List.filter (fun v => negb (String.eqb (value_name v) (attr_name c))) prs
            ++ [last])
         <-> List.Forall (holds env) prs /\ holds_bound env c.
Proof.
  intros Hall Hco Hnd. rewrite od_of_items_distinct by (rewrite keyed_keys; exact Hnd).
  unfold file_rule. destruct (od_get (attr_name c) (keyed prs)) as [old|] eqn:E.
  - pose proof (od_get_Some _ _ _ E) as Hin. unfold keyed in Hin.
    apply in_map_iff in Hin as [v [[= Hk ->] Hin]].
    rewrite List.Forall_forall in Hall, Hco.
    destruct (merge_meaning old c (Hall old Hin) (Hco old Hin) Hk)
      as [r' [-> [Hn [Hc' [Hname Hsem]]]]].
    rewrite bind_ret, od_move_set by congruence. unfold od_values.
    rewrite map_app, keyed_filter. cbn [map snd].
    exists (VRule r'). split; [reflexivity|]. split; [exact Hn|]. split; [exact Hc'|].
    split; [cbn [value_name] in *; congruence|].
    intros env. rewrite List.Forall_app, (Forall_by_name _ prs _ old Hnd Hin Hk).
    rewrite Forall_singleton, Hsem. tauto.
  - apply od_get_None in E. rewrite keyed_keys in E.
    rewrite od_set_absent by (apply od_get_None; rewrite keyed_keys; exact E).
    unfold od_values. rewrite map_app, keyed_values, (filter_other_names _ _ E).
    exists (VRule (Continuous c)). split; [reflexivity|].
    do 3 (split; [reflexivity || exact I|]).
    intros env. rewrite List.Forall_app, Forall_singleton. reflexivity.
Qed.

(** The bound a split on a numeric attribute contributes, spelled
    out. *)
Lemma split_rule_exact self (p : nat) (node : Z) :
  sklearn_shaped self -> numeric_domain self ->
  children_left (_tree self) !! p = Some node
  \/ children_right (_tree self) !! p = Some node ->
  node <> -1 ->
  exists (f : nat) (a : Attribute) (lc th : Z),
    feature (_tree self) !! p = Some (Z.of_nat f) /\
    _domain self !! f = Some a /\
    children_left (_tree self) !! p = Some lc /\
    threshold (_tree self) !! p = Some th /\
    split_rule self (Z.of_nat p) node
    = ret (name a,
           Continuous (mkContinuousRule (name a) (negb (lc =? node)) th (lc =? node))).
Proof.
  intros Hs Hd Hp Hn. destruct (Hd p node Hp Hn) as [f [a [Hf [Ha Hcv]]]].
  assert (p < List.length (children_left (_tree self)))%nat as Hlt.
  { destruct Hp as [Hp|Hp]; apply lookup_lt_Some in Hp;
      [exact Hp | rewrite <- (shaped_right self Hs); exact Hp]. }
  destruct (lookup_lt_is_Some_2 (children_left (_tree self)) p Hlt) as [lc Hlc].
  destruct (lookup_lt_is_Some_2 (threshold (_tree self)) p) as [th Hth].
  { rewrite (shaped_threshold self Hs). exact Hlt. }
  exists f, a, lc, th. repeat (split; [assumption|]).
  unfold split_rule, _left_child, attribute, splitting_attribute.
  rewrite (index_nat _ _ _ Hf), bind_ret, (index_nat _ _ _ Ha), bind_ret,
    (index_nat _ _ _ Hlc), bind_ret, Hcv, (index_nat _ _ _ Hth), bind_ret.
  reflexivity.
Qed.

(** Where an entry of the arrays of children is. *)
Lemma right_position self (p : nat) (c : Z) :
  children_right (_tree self) !! p = Some c ->
  (children_left (_tree self) ++ children_right (_tree self))
    !! (List.length (children_left (_tree self)) + p)%nat = Some c.
Proof.
  intros H. rewrite lookup_app_r by lia.
  replace (List.length (children_left (_tree self)) + p
           - List.length (children_left (_tree self)))%nat with p by lia.
  exact H.
Qed.

Lemma child_once self (p q : nat) (c : Z) :
  sklearn_shaped self -> c <> -1 ->
  children_left (_tree self) !! p = Some c
  \/ children_right (_tree self) !! p = Some c ->
  (children_left (_tree self) !! q = Some c -> 
   q = p /\ children_left (_tree self) !! p = Some c) /\
  (children_right (_tree self) !! q = Some c ->
   q = p /\ children_right (_tree self) !! p = Some c).
Proof.
  intros Hs Hc Hp. pose proof (shaped_once self Hs) as Hnd. split; intros Hq.
  - pose proof (lookup_lt_Some _ _ _ Hq) as Hlt. destruct Hp as [Hp|Hp].
    + split; [|exact Hp]. eapply (NoDup_filter_lookup _ q p c Hnd Hc);
        apply lookup_app_l_Some; assumption.
    + exfalso.
      assert (q = (List.length (children_left (_tree self)) + p)%nat); [|lia].
      apply (NoDup_filter_lookup _ _ _ c Hnd Hc);
        [apply lookup_app_l_Some, Hq | apply right_position, Hp].
  - destruct Hp as [Hp|Hp].
    + exfalso. pose proof (lookup_lt_Some _ _ _ Hp) as Hlt.
      assert (p = (List.length (children_left (_tree self)) + q)%nat); [|lia].
      apply (NoDup_filter_lookup _ _ _ c Hnd Hc);
        [apply lookup_app_l_Some, Hp | apply right_position, Hq].
    + split; [|exact Hp].
      assert ((List.length (children_left (_tree self)) + q)%nat
              = (List.length (children_left (_tree self)) + p)%nat); [|lia].
      apply (NoDup_filter_lookup _ _ _ c Hnd Hc); apply right_position; assumption.
Qed.

(** The walk of a sample comes through a left child when it comes
    through the parent and the sample is within the threshold, and
    through a right child when it is beyond it. *)
Lemma passes_child (data : Z -> Z -> Z) self (i : Z) (p : nat) (node lc f t : Z) :
  sklearn_shaped self -> two_children self -> 0 < node ->
  children_left (_tree self) !! p = Some node
  \/ children_right (_tree self) !! p = Some node ->
  children_left (_tree self) !! p = Some lc ->
  feature (_tree self) !! p = Some f ->
  threshold (_tree self) !! p = Some t ->
  passes data self i node <->
  passes data self i (Z.of_nat p)
  /\ if lc =? node then data i f <= t else t < data i f.
Proof.
  intros Hs Htwo Hn Hp Hlc Hf Ht.
  assert (node <> -1) as Hne by lia.
  destruct (child_once self p p node Hs Hne Hp) as [Honce_l Honce_r].
  split.
  - intros H. inversion H as [Hroot | q l f' t' Hq Hl Hl1 Hf' Ht' Hle Heq
                                    | q l r f' t' Hq Hl Hl1 Hr Hf' Ht' Hlt Heq].
    + unfold root in Hroot. lia.
    + subst l. destruct (child_once self p q node Hs Hne Hp) as [Hq1 _].
      destruct (Hq1 Hl) as [-> Hpl].
      assert (lc = node) as -> by congruence. rewrite Z.eqb_refl.
      split; [exact Hq|]. congruence.
    + subst r. destruct (child_once self p q node Hs Hne Hp) as [_ Hq2].
      destruct (Hq2 Hr) as [-> Hpr].
      assert (lc <> node) as Hdiff.
      { intros ->. destruct (child_once self p p node Hs Hne (or_intror Hpr)) as [Hx _].
        destruct Hp as [Hp|Hp]; [|clear Hp];
          pose proof (lookup_lt_Some _ _ _ Hlc) as Hlt';
          assert (p = (List.length (children_left (_tree self)) + p)%nat); try lia;
          apply (NoDup_filter_lookup _ _ _ node (shaped_once self Hs) Hne);
          [apply lookup_app_l_Some, Hlc | apply right_position, Hpr
          |apply lookup_app_l_Some, Hlc | apply right_position, Hpr]. }
      apply Z.eqb_neq in Hdiff. rewrite Hdiff. split; [exact Hq|]. congruence.
  - intros [Hpass Hcond]. destruct (Z.eqb_spec lc node) as [->|Hdiff].
    + eapply passes_left; eauto.
    + destruct Hp as [Hp|Hp]; [congruence|].
      eapply passes_right; eauto.
Qed.

(** On a well-shaped tree over numeric attributes with different
    names, the rules of a node hold of a sample exactly when the walk of
    the sample comes through the node. *)
Lemma rules_meaning (data : Z -> Z -> Z) self :
  sklearn_shaped self -> numeric_domain self -> two_children self ->
  NoDup (map name (_domain self)) ->
  forall (fuel : nat) (node : Z),
    0 <= node < Z.of_nat (List.length (children_left (_tree self))) ->
    (Z.to_nat node < fuel)%nat ->
    exists l,
      rules Z.gtb Z.ltb fmt_percent_3f fmt_brace_3 fuel self node = Some (ret l) /\
      List.Forall numeric_value l /\ List.Forall coherent l /\
      NoDup (map value_name l) /\
      forall i, List.Forall (holds (sample data self i)) l <-> passes data self i node.
Proof.
  intros Hs Hd Htwo Hnames. induction fuel as [|fuel IH]; intros node Hn Hf; [lia|].
  rewrite rules_eq.
  destruct (Z.eqb_spec node root) as [->|Hroot]; cbn [negb].
  { exists []. repeat split; auto using NoDup_nil_2; intros; constructor. }
  unfold root in Hroot.
  destruct (parent_found self node Hs ltac:(lia)) as [p [Hp [Hlt Hc]]].
  rewrite Hp.
  destruct (IH (Z.of_nat p) ltac:(lia) ltac:(lia))
    as [prs [-> [Hall [Hco [Hnd Hsem]]]]].
  destruct (split_rule_exact self p node Hs Hd Hc ltac:(lia))
    as [f [a [lc [th [Hfe [Ha [Hlc [Hth ->]]]]]]]].
  rewrite bind_ret, for_each_keyed, !bind_ret.
  2:{ eapply List.Forall_impl; [|exact Hall]. intros v Hv ->. exact Hv. }
  cbn [fst snd].
  set (c := mkContinuousRule (name a) (negb (lc =? node)) th (lc =? node)).
  change (name a) with (attr_name c).
  destruct (file_rule_meaning prs c Hall Hco Hnd) as [last [-> [Hlast [Hcl [Hk Hm]]]]].
  eexists. split; [reflexivity|]. split; [|split; [|split]].
  - apply List.Forall_app. split; [|repeat constructor; exact Hlast].
    rewrite List.Forall_forall in *. intros v Hv.
    apply List.filter_In in Hv as [Hv _]. auto.
  - apply List.Forall_app. split; [|repeat constructor; exact Hcl].
    rewrite List.Forall_forall in *. intros v Hv.
    apply List.filter_In in Hv as [Hv _]. auto.
  - rewrite map_app. apply NoDup_app. split; [apply NoDup_map_filter, Hnd|].
    split; [|apply NoDup_singleton].
    intros x Hx Hin. apply list_elem_of_In in Hx, Hin.
    apply In_filter_names in Hx as [_ Hx]. cbn in Hin. intuition congruence.
  - intros i. rewrite Hm, Hsem.
    rewrite (passes_child data self i p node lc (Z.of_nat f) th Hs Htwo ltac:(lia)
               Hc Hlc Hfe Hth).
    unfold holds_bound, c. cbn [sign value attr_name]. unfold sample.
    rewrite (column_found _ f a 0 Hnames Ha).
    destruct (lc =? node); cbn [negb]; reflexivity.
Qed.

End RulesMeaning.

Lemma numeric_sample_two_children : two_children numeric_sample.
Proof.
  intros p l r Hl Hr Hne.
  do 7 (destruct p as [|p]; [cbn in Hl, Hr; injection Hl as <-; injection Hr as <-; lia|]).
  discriminate.
Qed.

Lemma numeric_sample_names : NoDup (map name (_domain numeric_sample)).
Proof.
  cbn. repeat (apply NoDup_cons_2; [rewrite list_elem_of_In; cbn; intuition discriminate|]).
  apply NoDup_nil_2.
Qed.

(** X27. What the rules of a node mean.  On a well-shaped tree whose
    splits are on numeric attributes with pairwise different names, with
    integer thresholds and samples, the rules [rules] returns for a node
    (each bound read by its direction: [>] for a lower bound, [<=] for
    an upper bound, an interval as both of its bounds) hold of a sample
    exactly when the walk of the sample from the root (left where the
    sample's value is [<=] the threshold, right otherwise) comes through
    the node. *)
Theorem rules_describe_the_samples (data : Z -> Z -> Z)
    (fmt_percent_3f : Z -> string) (fmt_brace_3 : Z -> result string)
    (self : SklTreeAdapter Z) (node : Z) :
  sklearn_shaped self -> numeric_domain self -> two_children self ->
  NoDup (map name (_domain self)) ->
  0 <= node < Z.of_nat (List.length (children_left (_tree self))) ->
  exists l,
    rules Z.gtb Z.ltb fmt_percent_3f fmt_brace_3 (S (Z.to_nat node)) self node
      = Some (ret l) /\
    forall i, List.Forall (holds (sample data self i)) l <-> passes data self i node.
Proof.
  intros Hs Hd Htwo Hnames Hn.
  destruct (rules_meaning fmt_percent_3f fmt_brace_3 data self Hs Hd Htwo Hnames
              (S (Z.to_nat node)) node Hn ltac:(lia)) as [l [Hl [_ [_ [_ Hsem]]]]].
  exists l. auto.
Qed.

Lemma rules_describe_the_samples_witness :
  exists l,
    rules Z.gtb Z.ltb int_percent_3f int_brace_3 (S (Z.to_nat 4)) numeric_sample 4
      = Some (ret l) /\
    forall i, List.Forall (holds (sample (fun i f => i + f) numeric_sample i)) l
              <-> passes (fun i f => i + f) numeric_sample i 4.
Proof.
  apply (rules_describe_the_samples (fun i f => i + f) int_percent_3f int_brace_3
           numeric_sample 4);
    [exact numeric_sample_shaped | exact numeric_sample_domain
    | exact numeric_sample_two_children | exact numeric_sample_names | cbn; lia].
Defined.

End AdapterFacts.
